(** * DenseNet-PyTorch: verification of [densenet/utils.py]

    A shallow embedding of the helper functions of [densenet/utils.py]
    (model parameter resolver, checkpoint key renaming, learning-rate
    schedule, top-k accuracy and [AverageMeter]) and the properties the
    specification states about them.

    Conventions of the embedding.
    - A Python exception is a value of [exn]; a call that may raise returns
      [result A = exn + A].
    - A Python [dict] with string keys is a [gmap string _].
    - Python [int] is [Z].
    - Python [float] has two readings.  In [Num], [Training],
      [AverageMeter] and [Metrics] it is the rational number it denotes
      ([Q], compared with [==]) and arithmetic is exact: these serve the
      statements about exceptions, shapes and integer arguments, on which
      rounding has no bearing.  In [Py] and [IEEE] it is a binary64 number,
      and an entry of a float tensor is a float32 number, with the rounding
      to nearest, the signed zeros, the infinities and the [OverflowError]
      of the interpreter: these serve the statements about the numbers that
      the helpers compute.
    - A string is a sequence of characters with code points below 256.
    - A tensor is the list of its entries, by rows.  Strides are not part
      of the model, except that [IEEE.Metrics.view_flat] fails where the
      layout of the table [correct] admits no flat view. *)

From Stdlib Require Import ZArith QArith Qpower List Ascii String Lia Bool.
From Stdlib Require Import SpecFloat Sorted.
From stdpp Require Import base option gmap strings list fin_maps.

Set Default Proof Using "Type".
Open Scope Z_scope.

(** ** Python values and exceptions *)

Inductive pyobj : Type :=
| PyNone
| PyBool (b : bool)
| PyInt (z : Z)
| PyFloat (q : Q)
| PyStr (s : string).

Inductive exn : Type :=
| KeyError (key : string)
| NotImplementedError (msg : string)
| ValueError (unexpected : list string)
| ValueErrorMsg (msg : string)
| RuntimeError (msg : string)
| ZeroDivisionError
| OverflowError.

Definition result (A : Type) : Type := (exn + A)%type.

Definition raise {A} (e : exn) : result A := inl e.

#[global] Instance result_ret : MRet result := fun _ a => inr a.
#[global] Instance result_bind : MBind result := fun _ _ k m =>
  match m with
  | inl e => inl e
  | inr a => k a
  end.

Abbreviation ret := (mret (M := result)).

(** [d[key]]: subscripting a dict with a missing key raises [KeyError]. *)
Definition getitem {V} (d : gmap string V) (key : string) : result V :=
  match d !! key with
  | Some v => ret v
  | None => raise (KeyError key)
  end.

(** ** Helpers for loading model params *)

Module Params.

(** [GlobalParams]: a named tuple of seven fields, every field defaulting to
    [None]. *)
Record GlobalParams : Type := mkGlobalParams {
  growth_rate : pyobj;
  num_init_features : pyobj;
  bn_size : pyobj;
  drop_rate : pyobj;
  memory_efficient : pyobj;
  num_classes : pyobj;
  image_size : pyobj
}.

Definition GlobalParams_fields : list string :=
  ["growth_rate"; "num_init_features"; "bn_size"; "drop_rate";
   "memory_efficient"; "num_classes"; "image_size"]%string.

(** [kwds.pop(field, d)], the value. *)
Definition pop_default (kwds : gmap string pyobj) (field : string) (d : pyobj)
  : pyobj :=
  default d (kwds !! field).

(** [namedtuple._replace] with keyword arguments [kwds]: every declared
    field is popped from [kwds] (keeping the field of [self] when absent);
    keyword arguments that are left over are an error. *)
Definition _replace (self : GlobalParams) (kwds : gmap string pyobj)
  : result GlobalParams :=
  let result_ :=
    {| growth_rate := pop_default kwds "growth_rate" (growth_rate self);
       num_init_features :=
         pop_default kwds "num_init_features" (num_init_features self);
       bn_size := pop_default kwds "bn_size" (bn_size self);
       drop_rate := pop_default kwds "drop_rate" (drop_rate self);
       memory_efficient :=
         pop_default kwds "memory_efficient" (memory_efficient self);
       num_classes := pop_default kwds "num_classes" (num_classes self);
       image_size := pop_default kwds "image_size" (image_size self) |} in
  let kwds' := foldr delete kwds GlobalParams_fields in
  match map_to_list kwds' with
  | [] => ret result_
  | rest => raise (ValueError (rest.*1))
  end.

Definition params_dict : gmap string (Z * Z * Z) :=
  <["densenet121" := (32, 64, 224)]> (
  <["densenet161" := (48, 96, 224)]> (
  <["densenet169" := (32, 64, 224)]> (
  <["densenet201" := (32, 64, 224)]> ∅))).

Definition densenet_params (model_name : string) : result (Z * Z * Z) :=
  getitem params_dict model_name.

Definition blocks_dict : gmap string (list Z) :=
  <["densenet121" := [6; 12; 24; 16]]> (
  <["densenet161" := [6; 12; 36; 24]]> (
  <["densenet169" := [6; 12; 36; 32]]> (
  <["densenet201" := [6; 12; 48; 32]]> ∅))).

(** [densenet(model_name, growth_rate, num_init_features, image_size=224,
    bn_size=4, drop_rate=0, num_classes=1000, memory_efficient=False)]; the
    only caller passes the first four arguments. *)
Definition densenet (model_name : string) (growth_rate num_init_features
  image_size : pyobj) : result (list Z * GlobalParams) :=
  blocks_args ← getitem blocks_dict model_name;
  let global_params :=
    {| growth_rate := growth_rate;
       num_init_features := num_init_features;
       image_size := image_size;
       bn_size := PyInt 4;
       drop_rate := PyInt 0;
       num_classes := PyInt 1000;
       memory_efficient := PyBool false |} in
  ret (blocks_args, global_params).

(** [str.startswith]. *)
Definition startswith (s pre : string) : bool := String.prefix pre s.

(** Truth value of a dict: non-empty. *)
Definition truthy {V} (d : gmap string V) : bool :=
  match map_to_list d with
  | [] => false
  | _ => true
  end.

Definition get_model_params (model_name : string)
  (override_params : gmap string pyobj) : result (list Z * GlobalParams) :=
  '(blocks_args, global_params) ←
    (if startswith model_name "densenet" then
       '(g, n, s) ← densenet_params model_name;
       densenet model_name (PyInt g) (PyInt n) (PyInt s)
     else
       raise (NotImplementedError
                ("model name is not pre-defined: " ++ model_name)));
  global_params ←
    (if truthy override_params then _replace global_params override_params
     else ret global_params);
  ret (blocks_args, global_params).

Definition supported_names : list string :=
  ["densenet121"; "densenet161"; "densenet169"; "densenet201"]%string.

End Params.

(** ** Python numbers *)

Module Num.

(** A Python number is an [int] or a [float]; arithmetic promotes to
    [float] as soon as one operand is a [float], and true division always
    yields a [float].  Here a [float] is the rational it denotes and no
    operation rounds; [Py] below is the binary64 reading. *)
Inductive num : Type :=
| Int (z : Z)
| Float (q : Q).

Definition to_Q (x : num) : Q :=
  match x with
  | Int z => inject_Z z
  | Float q => q
  end.

Definition add (x y : num) : num :=
  match x, y with
  | Int a, Int b => Int (a + b)
  | _, _ => Float (to_Q x + to_Q y)
  end.

Definition mul (x y : num) : num :=
  match x, y with
  | Int a, Int b => Int (a * b)
  | _, _ => Float (to_Q x * to_Q y)
  end.

(** [x / y]: division by an [int] or [float] zero raises. *)
Definition truediv (x y : num) : result num :=
  if Qeq_bool (to_Q y) 0 then raise ZeroDivisionError
  else ret (Float (to_Q x / to_Q y)).

(** [x // y] on [int]s is floor division, [Z.div]. *)
Definition floordiv (x y : Z) : Z := x / y.

(** [x ** n] for a float [x] and an [int] [n]. *)
Definition pow (x : Q) (n : Z) : Q := (x ^ n)%Q.

End Num.

(** ** Helpers for training model params *)

Module Training.

Import Num.

(** The only attribute of [args] that is read. *)
Record Args : Type := { lr : Q }.

(** The optimizer is an external object; [param_groups] is its list of
    dicts. *)
Record Optimizer : Type := { param_groups : list (gmap string pyobj) }.

Definition adjust_learning_rate (optimizer : Optimizer) (epoch : Z)
  (args : Args) : Optimizer :=
  let lr := (lr args * pow (1 # 10) (floordiv epoch 30))%Q in
  {| param_groups :=
       (fun param_group => <["lr"%string := PyFloat lr]> param_group)
         <$> param_groups optimizer |}.

End Training.

(** ** [AverageMeter] *)

Module AverageMeter.

Import Num.

Record t : Type := mk {
  val : num;
  avg : num;
  sum : num;
  count : num
}.

Definition reset (self : t) : t :=
  {| val := Int 0; avg := Int 0; sum := Int 0; count := Int 0 |}.

(** [__init__] runs on the freshly allocated object [self]. *)
Definition __init__ (self : t) : t := reset self.

(** [update] assigns the attributes one after the other; when the final
    division raises, the first three assignments have already happened. *)
Definition update (val0 n : num) (self : t) : t * result unit :=
  let self1 :=
    {| val := val0; avg := avg self; sum := sum self; count := count self |} in
  let self2 :=
    {| val := val self1; avg := avg self1;
       sum := add (sum self1) (mul val0 n); count := count self1 |} in
  let self3 :=
    {| val := val self2; avg := avg self2; sum := sum self2;
       count := add (count self2) n |} in
  match truediv (sum self3) (count self3) with
  | inl e => (self3, inl e)
  | inr q =>
      ({| val := val self3; avg := q; sum := sum self3;
          count := count self3 |}, ret ())
  end.

(** A sequence of calls [update(v, n)] on one meter, stopping at the first
    exception. *)
Fixpoint updates (calls : list (num * Z)) (self : t) : t * result unit :=
  match calls with
  | [] => (self, ret ())
  | (v, n) :: calls' =>
      match update v (Int n) self with
      | (self', inr _) => updates calls' self'
      | (self', inl e) => (self', inl e)
      end
  end.

End AverageMeter.


(** ** Tensor operations used by [accuracy] *)

Module Torch.

(** A 2-D float tensor of shape [(length rows, ncols)]; every row has
    [ncols] entries.  A 1-D integer tensor is a [list Z], a 2-D index tensor
    a list of rows. *)
Record Tensor : Type := { ncols : nat; rows : list (list Q) }.

Definition well_formed (input : Tensor) : Prop :=
  Forall (fun row => length row = ncols input) (rows input).

(** Stable sort of scored indices by decreasing score: among equal scores
    the lower index stays first. *)
Fixpoint insert_desc (x : Q * nat) (l : list (Q * nat)) : list (Q * nat) :=
  match l with
  | [] => [x]
  | y :: l' =>
      if Qle_bool y.1 x.1 then x :: l else y :: insert_desc x l'
  end.

Definition sort_desc (l : list (Q * nat)) : list (Q * nat) :=
  foldr insert_desc [] l.

Definition topk_row (k : nat) (row : list Q) : list nat :=
  (take k (sort_desc (zip row (seq 0 (length row))))).*2.

(** [input.topk(k, 1, True, True)[1]]: for every row the indices of its [k]
    largest entries, largest first; [k] may not exceed the row size. *)
Definition topk (input : Tensor) (k : nat) : result (list (list nat)) :=
  if (ncols input <? k)%nat
  then raise (RuntimeError "selected index k out of range")
  else ret (topk_row k <$> rows input).

(** [m.t()] for [m] of shape [(_, k)]. *)
Definition t (k : nat) (m : list (list nat)) : list (list nat) :=
  (fun j => (fun row => nth j row 0%nat) <$> m) <$> seq 0 k.

(** [target.view(1, -1).expand_as(other)] for [other] of shape [(k, n)]: the
    row is repeated [k] times; its size must be [n], or 1 (and then the
    entry is repeated). *)
Definition expand_as (target : list Z) (k n : nat) : result (list (list Z)) :=
  if (length target =? n)%nat then ret (replicate k target)
  else if (length target =? 1)%nat
       then ret (replicate k (replicate n (hd 0 target)))
       else raise (RuntimeError "the expanded size must match the existing size").

(** [a.eq(b)], elementwise. *)
Definition eq (a : list (list nat)) (b : list (list Z)) : list (list bool) :=
  zip_with (zip_with (fun i y => Z.eqb (Z.of_nat i) y)) a b.

(** [c.view(-1).float().sum(0)]. *)
Definition float (b : bool) : Q := if b then 1%Q else 0%Q.

Definition sum (xs : list Q) : Q := foldr Qplus 0%Q xs.

Definition count_true (c : list (list bool)) : Q := sum (float <$> concat c).

End Torch.

(** ** [accuracy] *)

Module Metrics.

Import Num.

(** [max(topk)] of a tuple of ints. *)
Definition max_ (xs : list nat) : result nat :=
  match xs with
  | [] => raise (ValueErrorMsg "max() arg is an empty sequence")
  | x :: xs' => ret (foldl Nat.max x xs')
  end.

Definition accuracy (output : Torch.Tensor) (target : list Z)
  (topk : list nat) : result (list Q) :=
  maxk ← max_ topk;
  let batch_size := length target in
  pred ← Torch.topk output maxk;
  let pred := Torch.t maxk pred in
  expanded ← Torch.expand_as target maxk (length (Torch.rows output));
  let correct := Torch.eq pred expanded in
  mapM (fun k =>
          let correct_k := Torch.count_true (take k correct) in
          scale ← truediv (Float 100) (Int (Z.of_nat batch_size));
          ret (correct_k * to_Q scale)%Q)
       topk.

End Metrics.

(** ** Binary floating-point numbers *)

Module Binary.

(** A float is a [spec_float] of the Standard Library: a signed zero, a
    signed infinity, NaN, or a finite number [m * 2^e] with a sign.  Its
    operations [SFadd], [SFmul] and [SFdiv] are those of IEEE 754, rounding
    to nearest with ties to even. *)

Section Format.

(** The format: [prec] bits of mantissa, exponents below [emax]. *)
Variables prec emax : Z.

(** The float nearest to an integer. *)
Definition of_Z (z : Z) : spec_float := binary_normalize prec emax z 0 false.

(** The float nearest to the quotient of two integers, the second one not
    zero; a zero quotient has the sign of the divisor. *)
Definition of_ratio (a b : Z) : spec_float :=
  match a, b with
  | _, Z0 => S754_nan
  | Z0, _ => S754_zero (b <? 0)
  | _, _ =>
      let '(q, e, l) :=
        SFdiv_core_binary prec emax (Z.abs a) 0 (Z.abs b) 0 in
      binary_round_aux prec emax (xorb (a <? 0) (b <? 0)) q e l
  end.

(** The float that the decimal literal [d]e[e] denotes: the nearest one. *)
Definition of_decimal (d e : Z) : spec_float :=
  if 0 <=? e then of_Z (d * 10 ^ e) else of_ratio d (10 ^ (- e)).

(** Conversion of a float of a wider format. *)
Definition round (x : spec_float) : spec_float :=
  match x with
  | S754_finite s m e => binary_round prec emax s m e
  | _ => x
  end.

End Format.

Definition is_zero (x : spec_float) : bool :=
  match x with
  | S754_zero _ => true
  | _ => false
  end.

Definition is_infinite (x : spec_float) : bool :=
  match x with
  | S754_infinity _ => true
  | _ => false
  end.

(** The rational number that a finite float is. *)
Definition to_Q (x : spec_float) : Q :=
  match x with
  | S754_finite s m e =>
      ((if s then -1 else 1) * inject_Z (Zpos m) * (2 # 1) ^ e)%Q
  | _ => 0%Q
  end.

End Binary.

(** binary64, the [float] of Python. *)
Module B64.

Definition prec : Z := 53.
Definition emax : Z := 1024.

Definition add : spec_float -> spec_float -> spec_float := SFadd prec emax.
Definition mul : spec_float -> spec_float -> spec_float := SFmul prec emax.
Definition div : spec_float -> spec_float -> spec_float := SFdiv prec emax.
Definition of_Z : Z -> spec_float := Binary.of_Z prec emax.
Definition of_ratio : Z -> Z -> spec_float := Binary.of_ratio prec emax.
Definition of_decimal : Z -> Z -> spec_float := Binary.of_decimal prec emax.

(** The literals [0.1] and [100.0]. *)
Definition tenth : spec_float := of_decimal 1 (-1).
Definition hundred : spec_float := of_Z 100.

End B64.

(** float32, the element type of a float tensor. *)
Module B32.

Definition prec : Z := 24.
Definition emax : Z := 128.

Definition mul : spec_float -> spec_float -> spec_float := SFmul prec emax.
Definition of_Z : Z -> spec_float := Binary.of_Z prec emax.
Definition of_decimal : Z -> Z -> spec_float := Binary.of_decimal prec emax.

(** Conversion of a Python [float]. *)
Definition round : spec_float -> spec_float := Binary.round prec emax.

End B32.

(** ** Python numbers in binary64 *)

Module Py.

(** An [int] is unbounded, a [float] is a binary64 number. *)
Inductive num : Type :=
| Int (z : Z)
| Float (x : spec_float).

(** Where the interpreter checks a float result for overflow, an infinite
    one raises. *)
Definition in_range (x : spec_float) : result spec_float :=
  if Binary.is_infinite x then raise OverflowError else ret x.

(** An [int] operand is converted to the nearest [float]; an [int] too
    large for one raises. *)
Definition to_float (x : num) : result spec_float :=
  match x with
  | Int z => in_range (B64.of_Z z)
  | Float f => ret f
  end.

(** [x + y] and [x * y]: exact on two [int]s, in binary64 otherwise (a
    float result may be infinite, and that is no error). *)
Definition add (x y : num) : result num :=
  match x, y with
  | Int a, Int b => ret (Int (a + b))
  | _, _ => a ← to_float x; b ← to_float y; ret (Float (B64.add a b))
  end.

Definition mul (x y : num) : result num :=
  match x, y with
  | Int a, Int b => ret (Int (a * b))
  | _, _ => a ← to_float x; b ← to_float y; ret (Float (B64.mul a b))
  end.

(** [x / y] is a [float].  The quotient of two [int]s is rounded once, and
    raises when it is too large for a [float]; otherwise the operands are
    converted and divided.  A zero divisor raises. *)
Definition truediv (x y : num) : result spec_float :=
  match x, y with
  | Int a, Int b =>
      if b =? 0 then raise ZeroDivisionError
      else in_range (B64.of_ratio a b)
  | _, _ =>
      a ← to_float x; b ← to_float y;
      if Binary.is_zero b then raise ZeroDivisionError
      else ret (B64.div a b)
  end.

(** The mantissa and the exponent of [0.1]. *)
Definition tenth_mantissa : positive := 7205759403792794.
Definition tenth_exponent : Z := -56.

(** [0.1 ** n] for an [int] [n]: the exponent is converted to a [float]
    (which raises for an [int] too large for one); the power is the exact
    power of the float [0.1] rounded once, as the C library computes it for
    this base, and a power too large for a [float] raises.  A power too
    small for one is zero. *)
Definition pow_tenth (n : Z) : result spec_float :=
  _ ← to_float (Int n);
  match n with
  | Z0 => ret (B64.of_Z 1)
  | Zpos p =>
      in_range (binary_round B64.prec B64.emax false (tenth_mantissa ^ p)
                  (tenth_exponent * n))
  | Zneg p =>
      in_range (B64.of_ratio (2 ^ (- tenth_exponent * Zpos p))
                  (Zpos (tenth_mantissa ^ p)))
  end.

End Py.

(** ** The numerical helpers in floating point *)

Module IEEE.

(** Values of the entries of a parameter group. *)
Inductive pyobj : Type :=
| PyNone
| PyBool (b : bool)
| PyInt (z : Z)
| PyFloat (x : spec_float)
| PyStr (s : string).

Module Training.

(** [args.lr] is a [float]. *)
Record Args : Type := { lr : spec_float }.

Record Optimizer : Type := { param_groups : list (gmap string pyobj) }.

(** The rate is computed before the loop: when that raises, no parameter
    group has been written. *)
Definition adjust_learning_rate (optimizer : Optimizer) (epoch : Z)
  (args : Args) : result Optimizer :=
  p ← Py.pow_tenth (Num.floordiv epoch 30);
  let lr := B64.mul (lr args) p in
  ret {| param_groups :=
           (fun param_group => <["lr"%string := PyFloat lr]> param_group)
             <$> param_groups optimizer |}.

End Training.

Module AverageMeter.

Import Py.

Record t : Type := mk {
  val : num;
  avg : num;
  sum : num;
  count : num
}.

Definition reset (self : t) : t :=
  {| val := Int 0; avg := Int 0; sum := Int 0; count := Int 0 |}.

Definition __init__ (self : t) : t := reset self.

(** [update] assigns the attributes one after the other; an exception
    leaves the attributes assigned before it. *)
Definition update (val0 n : num) (self : t) : t * result unit :=
  let self1 :=
    {| val := val0; avg := avg self; sum := sum self; count := count self |} in
  match p ← mul val0 n; add (sum self1) p with
  | inl e => (self1, inl e)
  | inr s =>
      let self2 :=
        {| val := val self1; avg := avg self1; sum := s;
           count := count self1 |} in
      match add (count self2) n with
      | inl e => (self2, inl e)
      | inr c =>
          let self3 :=
            {| val := val self2; avg := avg self2; sum := sum self2;
               count := c |} in
          match truediv (sum self3) (count self3) with
          | inl e => (self3, inl e)
          | inr q =>
              ({| val := val self3; avg := Float q; sum := sum self3;
                  count := count self3 |}, ret ())
          end
      end
  end.

(** A sequence of calls [update(v, n)] on one meter, stopping at the first
    exception. *)
Fixpoint updates (calls : list (num * Z)) (self : t) : t * result unit :=
  match calls with
  | [] => (self, ret ())
  | (v, n) :: calls' =>
      match update v (Int n) self with
      | (self', inr _) => updates calls' self'
      | (self', inl e) => (self', inl e)
      end
  end.

End AverageMeter.

Module Metrics.

Section TopK.

(** [torch.topk] on one row: the indices of the [k] largest entries,
    largest first.  Which of several equal entries comes first is not
    specified, so the function is a parameter; [topk_contract] below is what
    is known of it.  Scores are finite and stand for the rationals they
    are: they are compared, never computed with. *)
Variable topk_row : nat -> list Q -> list nat.

Definition tensor_topk (input : Torch.Tensor) (k : nat)
  : result (list (list nat)) :=
  if (Torch.ncols input <? k)%nat
  then raise (RuntimeError "selected index k out of range")
  else ret (topk_row k <$> Torch.rows input).

(** [c.view(-1)] for the first rows [c] of the table [correct].  The table
    has the memory layout of [pred.t()], a transposed view (PyTorch 1.7 and
    later): the entries of one row are not adjacent, and two or more rows of
    two or more entries are not a view of one dimension. *)
Definition view_flat {A} (c : list (list A)) : result (list A) :=
  if (2 <=? length c)%nat && (2 <=? length (hd [] c))%nat
  then raise (RuntimeError
                "view size is not compatible with input tensor's size and stride")
  else ret (concat c).

(** [flat.float().sum(0)]: the float32 sum of entries 0.0 and 1.0, which is
    the number of ones (below [2^24] entries every partial sum is exact, in
    whichever order they are added). *)
Definition float_sum (flat : list bool) : spec_float :=
  B32.of_Z (Z.of_nat (length (filter (fun b => b = true) flat))).

(** [correct_k.mul_(100.0 / batch_size)]: the quotient is a Python [float];
    the tensor is float32, the scalar is converted to float32 and the
    product is rounded to float32. *)
Definition accuracy (output : Torch.Tensor) (target : list Z)
  (topk : list nat) : result (list spec_float) :=
  maxk ← Metrics.max_ topk;
  let batch_size := length target in
  pred ← tensor_topk output maxk;
  let pred := Torch.t maxk pred in
  expanded ← Torch.expand_as target maxk (length (Torch.rows output));
  let correct := Torch.eq pred expanded in
  mapM (fun k =>
          flat ← view_flat (take k correct);
          let correct_k := float_sum flat in
          scale ← Py.truediv (Py.Float B64.hundred)
                    (Py.Int (Z.of_nat batch_size));
          ret (B32.mul correct_k (B32.round scale)))
       topk.

End TopK.

(** What [torch.topk] guarantees for a row and [k] within its size: [k]
    indices that start an arrangement of all the indices of the row by
    decreasing score. *)
Definition descending (row : list Q) (p : list nat) : Prop :=
  forall (i j ci cj : nat) (x y : Q),
    (i <= j)%nat -> p !! i = Some ci -> p !! j = Some cj ->
    row !! ci = Some x -> row !! cj = Some y -> (y <= x)%Q.

Definition topk_contract (topk_row : nat -> list Q -> list nat) : Prop :=
  forall (k : nat) (row : list Q), (k <= length row)%nat ->
    length (topk_row k row) = k /\
    exists rest,
      topk_row k row ++ rest ≡ₚ seq 0 (length row) /\
      descending row (topk_row k row ++ rest).

End Metrics.

End IEEE.

(** ** Regular expressions of Python's [re] *)

Module Re.

(** The constructs of [re] that the checkpoint pattern uses.  Characters
    have code points below 256, among which the decimal digits that [\d]
    matches are [0] to [9]. *)
Inductive regex : Type :=
| Eps
| Bol                              (* ^ *)
| Eol                              (* $ *)
| Any                              (* . *)
| Digit                            (* \d *)
| Chr (c : ascii)
| Class (cs : list ascii)          (* [...] *)
| Seq (r1 r2 : regex)
| Alt (r1 r2 : regex)              (* r1|r2 *)
| Star (r : regex)                 (* r*, greedy *)
| Group (n : nat) (r : regex).     (* the n-th capturing group *)

(** [r+] *)
Definition Plus (r : regex) : regex := Seq r (Star r).

(** A literal word. *)
Definition Lit (w : string) : regex :=
  foldr (fun c r => Seq (Chr c) r) Eps (list_ascii_of_string w).

(** The characters of a word. *)
Definition chars (w : string) : list ascii := list_ascii_of_string w.

(** A sequence and a non-capturing alternation [(?:r1|...|rn)]. *)
Definition Cat (rs : list regex) : regex := foldr Seq Eps rs.

Fixpoint Alts (r : regex) (rs : list regex) : regex :=
  match rs with
  | [] => r
  | r' :: rs' => Alt r (Alts r' rs')
  end.

Definition newline : ascii := "010"%char.

Definition is_newline (c : ascii) : bool := Ascii.eqb c newline.

Definition is_digit (c : ascii) : bool :=
  (48 <=? nat_of_ascii c)%nat && (nat_of_ascii c <=? 57)%nat.

Definition in_class (cs : list ascii) (c : ascii) : bool :=
  existsb (Ascii.eqb c) cs.

Abbreviation captures := (gmap nat (list ascii)).

Definition cont : Type := list ascii -> captures -> option captures.

(** The iterations of [r*], where [body] matches [r] once: another
    iteration is tried first, and it has to consume input; when that way
    fails, the loop is left.  [fuel] bounds the iterations by the length of
    the input. *)
Fixpoint star_loop (body : list ascii -> captures -> cont -> option captures)
  (k : cont) (fuel : nat) (s : list ascii) (caps : captures)
  : option captures :=
  match fuel with
  | O => k s caps
  | S fuel' =>
      match body s caps
              (fun s' caps' =>
                 if (length s' <? length s)%nat
                 then star_loop body k fuel' s' caps' else None) with
      | Some res => Some res
      | None => k s caps
      end
  end.

Section Matcher.

(** The string being matched; [^] holds only at its start. *)
Variable subject : list ascii.

(** Backtracking matcher in continuation-passing style: [run r s caps k]
    matches [r] at the head of the remaining input [s] and hands what is
    left to [k]; alternatives are tried left to right and [*] takes as many
    iterations as it can before giving back.  Without flags, [.] is any
    character but a newline and [$] holds at the end of the string and just
    before a newline that ends it. *)
Fixpoint run (r : regex) (s : list ascii) (caps : captures) (k : cont)
  {struct r} : option captures :=
  match r with
  | Eps => k s caps
  | Bol => if (length s =? length subject)%nat then k s caps else None
  | Eol =>
      match s with
      | [] => k s caps
      | [c] => if is_newline c then k s caps else None
      | _ => None
      end
  | Any =>
      match s with
      | c :: s' => if is_newline c then None else k s' caps
      | [] => None
      end
  | Digit =>
      match s with
      | c :: s' => if is_digit c then k s' caps else None
      | [] => None
      end
  | Chr a =>
      match s with
      | c :: s' => if Ascii.eqb c a then k s' caps else None
      | [] => None
      end
  | Class cs =>
      match s with
      | c :: s' => if in_class cs c then k s' caps else None
      | [] => None
      end
  | Seq r1 r2 => run r1 s caps (fun s' caps' => run r2 s' caps' k)
  | Alt r1 r2 =>
      match run r1 s caps k with
      | Some res => Some res
      | None => run r2 s caps k
      end
  | Star r1 => star_loop (run r1) k (length s) s caps
  | Group n r1 =>
      run r1 s caps
        (fun s' caps' =>
           k s' (<[n := take (length s - length s') s]> caps'))
  end.

(** Declarative reading of the same constructs: [matches r s caps s' caps']
    when [r] can match the part of [s] before [s'], turning the captures
    [caps] into [caps']. *)
Inductive matches : regex -> list ascii -> captures -> list ascii ->
                    captures -> Prop :=
| M_Eps s caps : matches Eps s caps s caps
| M_Bol s caps :
    length s = length subject -> matches Bol s caps s caps
| M_Eol s caps :
    s = [] \/ s = [newline] -> matches Eol s caps s caps
| M_Any c s caps :
    c <> newline -> matches Any (c :: s) caps s caps
| M_Digit c s caps :
    is_digit c = true -> matches Digit (c :: s) caps s caps
| M_Chr c s caps : matches (Chr c) (c :: s) caps s caps
| M_Class cs c s caps :
    In c cs -> matches (Class cs) (c :: s) caps s caps
| M_Seq r1 r2 s caps s1 caps1 s2 caps2 :
    matches r1 s caps s1 caps1 -> matches r2 s1 caps1 s2 caps2 ->
    matches (Seq r1 r2) s caps s2 caps2
| M_Alt_l r1 r2 s caps s' caps' :
    matches r1 s caps s' caps' -> matches (Alt r1 r2) s caps s' caps'
| M_Alt_r r1 r2 s caps s' caps' :
    matches r2 s caps s' caps' -> matches (Alt r1 r2) s caps s' caps'
| M_Star_0 r s caps : matches (Star r) s caps s caps
| M_Star_S r s caps s1 caps1 s2 caps2 :
    matches r s caps s1 caps1 -> (length s1 < length s)%nat ->
    matches (Star r) s1 caps1 s2 caps2 ->
    matches (Star r) s caps s2 caps2
| M_Group n r s caps s' caps' :
    matches r s caps s' caps' ->
    matches (Group n r) s caps s'
      (<[n := take (length s - length s') s]> caps').

(** Regular expressions for one character out of a set [p]. *)
Definition char_regex (r : regex) (p : ascii -> Prop) : Prop :=
  forall s caps s' caps',
    matches r s caps s' caps' <->
    exists c, s = c :: s' /\ p c /\ caps' = caps.

End Matcher.

(** [pattern.match(key)]: the match is anchored at the start of [key] and
    need not reach its end. *)
Definition match_ (pattern : regex) (key : string) : option captures :=
  let s := list_ascii_of_string key in
  run s pattern s ∅ (fun _ caps => Some caps).

(** [res.group(n)] of a group that took part in the match. *)
Definition group (res : captures) (n : nat) : string :=
  string_of_list_ascii (default [] (res !! n)).

End Re.

(** ** Loading pretrained weights *)

Module Weights.

Import Re.

(** [^(.*denselayer\d+\.(?:norm|relu|conv))\.((?:[12])\.(?:weight|bias|running_mean|running_var))$] *)
Definition pattern : regex :=
  Cat [ Bol;
        Group 1 (Cat [ Star Any; Lit "denselayer"; Plus Digit; Chr ".";
                       Alts (Lit "norm") [Lit "relu"; Lit "conv"] ]);
        Chr ".";
        Group 2 (Cat [ Class ["1"; "2"]%char; Chr ".";
                       Alts (Lit "weight")
                         [Lit "bias"; Lit "running_mean"; Lit "running_var"] ]);
        Eol ].

(** The new name of [key], when the pattern matches it. *)
Definition new_key (key : string) : option string :=
  match match_ pattern key with
  | Some res => Some (group res 1 +:+ group res 2)
  | None => None
  end.

Definition urls_map : gmap string string :=
  <["densenet121" :=
      "https://download.pytorch.org/models/densenet121-a639ec97.pth"]> (
  <["densenet161" :=
      "https://download.pytorch.org/models/densenet161-8d451a50.pth"]> (
  <["densenet169" :=
      "https://download.pytorch.org/models/densenet169-b2777c0a.pth"]> (
  <["densenet201" :=
      "https://download.pytorch.org/models/densenet201-c1103571.pth"]> ∅)))%string.

Section StateDict.

(** The tensors of the checkpoint are opaque. *)
Context {tensor : Type}.

(** One iteration of the loop over the keys. *)
Definition rename_key (state_dict : gmap string tensor) (key : string)
  : result (gmap string tensor) :=
  match new_key key with
  | Some new_key =>
      v ← getitem state_dict key;
      ret (delete key (<[new_key := v]> state_dict))
  | None => ret state_dict
  end.

Fixpoint rename_keys (state_dict : gmap string tensor) (keys : list string)
  : result (gmap string tensor) :=
  match keys with
  | [] => ret state_dict
  | key :: keys' =>
      state_dict' ← rename_key state_dict key;
      rename_keys state_dict' keys'
  end.

(** [dict.pop(key)] without default. *)
Definition pop (state_dict : gmap string tensor) (key : string)
  : result (gmap string tensor) :=
  _ ← getitem state_dict key;
  ret (delete key state_dict).

(** [load_pretrained_weights] from the downloaded [state_dict] on: the
    result is the mapping handed to [model.load_state_dict] and its
    [strict] flag. *)
Definition load_pretrained_weights (state_dict : gmap string tensor)
  (load_fc : bool) : result (gmap string tensor * bool) :=
  if load_fc then
    state_dict' ← rename_keys state_dict ((map_to_list state_dict).*1);
    ret (state_dict', true)
  else
    state_dict1 ← pop state_dict "classifier.weight";
    state_dict2 ← pop state_dict1 "classifier.bias";
    ret (state_dict2, false).

(** [load_pretrained_weights(model, model_name, load_fc)] with the download
    [model_zoo.load_url] as a parameter: the URL of the model is looked up
    first, then the checkpoint is fetched and prepared as above. *)
Definition load_pretrained_weights_from
  (load_url : string -> result (gmap string tensor)) (model_name : string)
  (load_fc : bool) : result (gmap string tensor * bool) :=
  url ← getitem urls_map model_name;
  state_dict ← load_url url;
  load_pretrained_weights state_dict load_fc.

End StateDict.

End Weights.

(** ** Vocabulary of the properties *)

Section Vocabulary.

Import Num Re.

(** *** Learning-rate schedule *)

Definition sgd_optimizer : Training.Optimizer :=
  {| Training.param_groups :=
       [ {[ "lr"%string := PyFloat (1 # 10) ]};
         {[ "momentum"%string := PyFloat (9 # 10) ]} ] |}.

(** *** [AverageMeter] *)


(** *** Checkpoint keys *)

Definition kinds : list string := ["norm"; "relu"; "conv"]%string.
Definition indices : list ascii := ["1"; "2"]%char.
Definition fields : list string :=
  ["weight"; "bias"; "running_mean"; "running_var"]%string.

(** The part of a legacy key that group 1 captures, the legacy key and its
    new name: [P] is the prefix, [D] the digits of the layer number, [K] the
    kind, [V] the index and [F] the field. *)
Definition stem (P D : list ascii) (K : string) : list ascii :=
  P ++ chars "denselayer" ++ D ++ "."%char :: chars K.

Definition legacy (P D : list ascii) (K : string) (V : ascii) (F : string)
  : list ascii :=
  stem P D K ++ "."%char :: V :: "."%char :: chars F.

Definition renamed (P D : list ascii) (K : string) (V : ascii) (F : string)
  : list ascii :=
  stem P D K ++ V :: "."%char :: chars F.

Record legacy_parts (P D : list ascii) (K : string) (V : ascii) (F : string)
  : Prop := {
  prefix_one_line : Forall (fun c => c <> newline) P;
  number_digits : Forall (fun c => is_digit c = true) D;
  number_nonempty : D <> [];
  kind_known : In K kinds;
  index_known : In V indices;
  field_known : In F fields
}.

Definition line_end (e : list ascii) : Prop := e = [] \/ e = [newline].

Definition pattern_captures (P D : list ascii) (K : string) (V : ascii)
  (F : string) : captures :=
  <[2%nat := V :: "."%char :: chars F]> (<[1%nat := stem P D K]> ∅).

(** Legacy keys and their new names as strings. *)
Definition legacy_key (prefix N kind : string) (idx : ascii) (field : string)
  : string :=
  prefix +:+ "denselayer" +:+ N +:+ "." +:+ kind +:+ "." +:+
  String idx "." +:+ field.

Definition renamed_key (prefix N kind : string) (idx : ascii) (field : string)
  : string :=
  prefix +:+ "denselayer" +:+ N +:+ "." +:+ kind +:+
  String idx "." +:+ field.

Definition one_line (s : string) : Prop :=
  Forall (fun c => c <> newline) (chars s).

Definition number (s : string) : Prop :=
  s <> ""%string /\ Forall (fun c => is_digit c = true) (chars s).

(** A checkpoint with one legacy key, and what the loader makes of it. *)
Definition small_checkpoint : gmap string nat :=
  {[ "features.denseblock1.denselayer1.norm.1.weight"%string := 1%nat;
     "features.conv0.weight"%string := 2%nat;
     "classifier.weight"%string := 3%nat;
     "classifier.bias"%string := 4%nat ]}.

Definition small_checkpoint_renamed : gmap string nat :=
  {[ "features.denseblock1.denselayer1.norm1.weight"%string := 1%nat;
     "features.conv0.weight"%string := 2%nat;
     "classifier.weight"%string := 3%nat;
     "classifier.bias"%string := 4%nat ]}.

(** *** Top-k accuracy *)

(** The comparison table [correct] of [accuracy] for [maxk] and an expanded
    label tensor, and the percentages computed from it. *)
Definition correct_of (output : Torch.Tensor) (maxk : nat)
  (expanded : list (list Z)) : list (list bool) :=
  Torch.eq (Torch.t maxk (Torch.topk_row maxk <$> Torch.rows output)) expanded.

Definition percentages (correct : list (list bool)) (batch_size : nat)
  (topk : list nat) : list Q :=
  (fun k => Torch.count_true (take k correct) *
            (100 / inject_Z (Z.of_nat batch_size)))%Q <$> topk.

Definition two_scores : Torch.Tensor :=
  {| Torch.ncols := 3;
     Torch.rows := [[1 # 10; 7 # 10; 2 # 10]; [5 # 10; 5 # 10; 0 # 1]] |}.

(** *** The helpers in floating point *)

Definition float_optimizer : IEEE.Training.Optimizer :=
  {| IEEE.Training.param_groups :=
       [ {[ "lr"%string := IEEE.PyFloat B64.tenth ]};
         {[ "momentum"%string := IEEE.PyFloat (B64.of_decimal 9 (-1)) ]} ] |}.

Definition zero_float_meter : IEEE.AverageMeter.t :=
  IEEE.AverageMeter.mk (Py.Int 0) (Py.Int 0) (Py.Int 0) (Py.Int 0).

(** The total weight of a sequence of calls, and the sum that Python
    accumulates over it from [acc] on: [(acc + v1 * n1) + v2 * n2 ...]. *)
Definition total_weight (calls : list (Py.num * Z)) : Z :=
  foldr (fun c acc => c.2 + acc) 0 calls.

Fixpoint accumulate (acc : Py.num) (calls : list (Py.num * Z))
  : result Py.num :=
  match calls with
  | [] => ret acc
  | (v, n) :: calls' =>
      p ← Py.mul v (Py.Int n);
      acc' ← Py.add acc p;
      accumulate acc' calls'
  end.

(** Calls with [float] values. *)
Definition float_calls (calls : list (spec_float * Z)) : list (Py.num * Z) :=
  (fun c => (Py.Float c.1, c.2)) <$> calls.

(** Calls with [int] values, their total weight and their weighted sum. *)
Definition int_calls (calls : list (Z * Z)) : list (Py.num * Z) :=
  (fun c => (Py.Int c.1, c.2)) <$> calls.

Definition int_total (calls : list (Z * Z)) : Z :=
  foldr (fun c acc => c.2 + acc) 0 calls.

Definition int_weighted_sum (calls : list (Z * Z)) : Z :=
  foldr (fun c acc => c.1 * c.2 + acc) 0 calls.

(** The class that [topk] ranks first for a row, whether it is the label,
    and the number of examples of a batch for which it is. *)
Definition top1 (topk_row : nat -> list Q -> list nat) (row : list Q) : nat :=
  nth 0 (topk_row 1%nat row) 0%nat.

Definition hit (topk_row : nat -> list Q -> list nat) (row : list Q) (y : Z)
  : bool :=
  Z.eqb (Z.of_nat (top1 topk_row row)) y.

Definition hits (topk_row : nat -> list Q -> list nat) (rows : list (list Q))
  (target : list Z) : nat :=
  length (filter (fun b => b = true) (zip_with (hit topk_row) rows target)).

(** The factor [100.0 / n] as the float32 multiplication uses it. *)
Definition scale32 (n : Z) : spec_float :=
  B32.round (B64.div B64.hundred (B64.of_Z n)).

(** The label is the class of the single highest score of the row; some
    class of the row has a higher score than the label (a label that is no
    class of the row has no score). *)
Definition single_highest (row : list Q) (y : Z) : Prop :=
  exists (c : nat) (x : Q),
    y = Z.of_nat c /\ row !! c = Some x /\
    forall (j : nat) (z : Q), j <> c -> row !! j = Some z -> (z < x)%Q.

Definition outscored (row : list Q) (y : Z) : Prop :=
  forall (c : nat) (x : Q),
    y = Z.of_nat c -> row !! c = Some x ->
    exists (j : nat) (z : Q), row !! j = Some z /\ (x < z)%Q.

(** A batch of [n] examples with two classes, the second one ahead. *)
Definition second_class (n : nat) : Torch.Tensor :=
  {| Torch.ncols := 2; Torch.rows := replicate n [0%Q; 1%Q] |}.

(** Two examples with three classes and no equal scores. *)
Definition clear_scores : Torch.Tensor :=
  {| Torch.ncols := 3;
     Torch.rows := [[1 # 10; 7 # 10; 2 # 10]; [6 # 10; 3 # 10; 1 # 10]] |}.

End Vocabulary.

Import Params.

(** ** Properties of the model parameter resolver *)

Section Resolver.

Implicit Types (name key : string) (ov : gmap string pyobj).

Lemma supported_cases name :
  In name supported_names ->
  name = "densenet121"%string \/ name = "densenet161"%string \/
  name = "densenet169"%string \/ name = "densenet201"%string.
Proof. cbn. intuition. Qed.

Lemma params_dict_unsupported name :
  ~ In name supported_names -> params_dict !! name = None.
Proof.
  intros Hn. unfold params_dict.
  rewrite !lookup_insert_ne, lookup_empty; [done | ..];
    intros <-; apply Hn; cbn; tauto.
Qed.

Lemma truthy_true {V} (d : gmap string V) key :
  is_Some (d !! key) -> truthy d = true.
Proof.
  intros [v Hv]. unfold truthy.
  destruct (map_to_list d) as [|kv l] eqn:E; [|done].
  apply map_to_list_empty_iff in E. subst d. by rewrite lookup_empty in Hv.
Qed.

Lemma lookup_foldr_delete {V} (d : gmap string V) (ks : list string) key :
  foldr delete d ks !! key = if decide (key ∈ ks) then None else d !! key.
Proof.
  induction ks as [|k ks IH]; simpl.
  - destruct (decide (key ∈ [])) as [H|H]; [by apply elem_of_nil in H | done].
  - destruct (decide (k = key)) as [->|Hne].
    + rewrite lookup_delete_eq.
      destruct (decide (key ∈ key :: ks)) as [H|H]; [done|].
      exfalso. apply H, elem_of_cons. by left.
    + rewrite lookup_delete_ne, IH by done.
      destruct (decide (key ∈ ks)) as [H|H],
               (decide (key ∈ k :: ks)) as [H'|H']; try done.
      * exfalso. apply H', elem_of_cons. by right.
      * apply elem_of_cons in H' as [?|?]; [congruence | done].
Qed.

Lemma replace_unexpected (self : GlobalParams) ov key :
  is_Some (ov !! key) -> ~ In key GlobalParams_fields ->
  exists keys, _replace self ov = raise (ValueError keys) /\ In key keys.
Proof.
  intros [v Hv] Hk. unfold _replace.
  set (kwds' := foldr delete ov GlobalParams_fields).
  assert (Hin : kwds' !! key = Some v).
  { unfold kwds'. rewrite lookup_foldr_delete.
    case_decide as H; [|done]. by apply list_elem_of_In in H. }
  apply elem_of_map_to_list in Hin.
  destruct (map_to_list kwds') as [|kv l] eqn:E.
  - by apply elem_of_nil in Hin.
  - eexists. split; [reflexivity|].
    apply list_elem_of_In, list_elem_of_fmap. by exists (key, v).
Qed.

Lemma densenet_stage name :
  In name supported_names ->
  exists blocks gp,
    (if startswith name "densenet" then
       '(g, n, s) ← densenet_params name;
       densenet name (PyInt g) (PyInt n) (PyInt s)
     else
       raise (NotImplementedError ("model name is not pre-defined: " ++ name)))
    = ret (blocks, gp).
Proof.
  intros Hn.
  apply supported_cases in Hn as [-> | [-> | [-> | ->]]];
    do 2 eexists; vm_compute; reflexivity.
Qed.

End Resolver.

(** C1. For each of the four supported model names, [get_model_params]
    without overrides returns four block-layer counts (the entry of the name
    in [blocks_dict]) and a configuration record whose [growth_rate],
    [num_init_features] and [image_size] are the (non-[None]) integers of the
    name's entry in [params_dict]; for ["densenet121"] these are 32, 64, 224
    and the layer counts are (6, 12, 24, 16). *)
Theorem get_model_params_supported (name : string) :
  In name supported_names ->
  (exists blocks gp g n s,
      get_model_params name ∅ = ret (blocks, gp) /\
      length blocks = 4%nat /\
      blocks_dict !! name = Some blocks /\
      params_dict !! name = Some (g, n, s) /\
      growth_rate gp = PyInt g /\ growth_rate gp <> PyNone /\
      num_init_features gp = PyInt n /\ num_init_features gp <> PyNone /\
      image_size gp = PyInt s /\ image_size gp <> PyNone) /\
  (exists gp,
      get_model_params "densenet121" ∅ = ret ([6; 12; 24; 16], gp) /\
      growth_rate gp = PyInt 32 /\ num_init_features gp = PyInt 64 /\
      image_size gp = PyInt 224).
Proof.
  intros Hn. split.
  - apply supported_cases in Hn as [-> | [-> | [-> | ->]]];
      do 5 eexists; repeat split; try (vm_compute; reflexivity);
      discriminate.
  - eexists. repeat split; vm_compute; reflexivity.
Qed.

Lemma get_model_params_supported_witness :
  In "densenet161"%string supported_names /\
  exists blocks gp,
    get_model_params "densenet161" ∅ = ret (blocks, gp) /\
    length blocks = 4%nat.
Proof.
  split; [cbn; tauto|].
  destruct (get_model_params_supported "densenet161") as [H _]; [cbn; tauto|].
  destruct H as (blocks & gp & g & n & s & H1 & H2 & _).
  exists blocks, gp. split; assumption.
Defined.

(** C2. For every model name other than the four supported ones, and
    whatever the overrides, [get_model_params] raises: the
    [NotImplementedError] "model name is not pre-defined" when the name does
    not start with ["densenet"], and the [KeyError] of the coefficient table
    lookup when it does.  No result is returned in either case. *)
Theorem get_model_params_unsupported (name : string)
  (override_params : gmap string pyobj) :
  ~ In name supported_names ->
  get_model_params name override_params =
    raise (if startswith name "densenet" then KeyError name
           else NotImplementedError
                  ("model name is not pre-defined: " ++ name)) /\
  (forall r, get_model_params name override_params <> ret r).
Proof.
  intros Hn.
  assert (E : get_model_params name override_params =
    raise (if startswith name "densenet" then KeyError name
           else NotImplementedError
                  ("model name is not pre-defined: " ++ name))).
  { unfold get_model_params. destruct (startswith name "densenet"); [|done].
    unfold densenet_params, getitem.
    by rewrite params_dict_unsupported. }
  split; [exact E|]. intros r. rewrite E. discriminate.
Qed.

Lemma get_model_params_unsupported_witness :
  ~ In "densenet999"%string supported_names /\
  get_model_params "densenet999" ∅ = raise (KeyError "densenet999") /\
  get_model_params "resnet50" ∅ =
    raise (NotImplementedError "model name is not pre-defined: resnet50").
Proof.
  assert (H1 : ~ In "densenet999"%string supported_names)
    by (cbn; intros [H|[H|[H|[H|[]]]]]; discriminate H).
  assert (H2 : ~ In "resnet50"%string supported_names)
    by (cbn; intros [H|[H|[H|[H|[]]]]]; discriminate H).
  split; [exact H1|]. split.
  - exact (proj1 (get_model_params_unsupported "densenet999" ∅ H1)).
  - exact (proj1 (get_model_params_unsupported "resnet50" ∅ H2)).
Defined.

(** C3. For every supported model name, the override mapping
    [{drop_rate: 0.5}] yields the same block-layer counts and a
    configuration record whose [drop_rate] is [0.5] and whose six other
    fields are those of the record built without overrides. *)
Theorem get_model_params_override_drop_rate (name : string) :
  In name supported_names ->
  exists blocks gp gp',
    get_model_params name ∅ = ret (blocks, gp) /\
    get_model_params name {[ "drop_rate"%string := PyFloat (1 # 2) ]} =
      ret (blocks, gp') /\
    drop_rate gp' = PyFloat (1 # 2) /\
    growth_rate gp' = growth_rate gp /\
    num_init_features gp' = num_init_features gp /\
    bn_size gp' = bn_size gp /\
    memory_efficient gp' = memory_efficient gp /\
    num_classes gp' = num_classes gp /\
    image_size gp' = image_size gp.
Proof.
  intros Hn.
  apply supported_cases in Hn as [-> | [-> | [-> | ->]]];
    do 3 eexists; repeat split; vm_compute; reflexivity.
Qed.

Lemma get_model_params_override_drop_rate_witness :
  In "densenet201"%string supported_names /\
  exists blocks gp',
    get_model_params "densenet201" {[ "drop_rate"%string := PyFloat (1 # 2) ]}
      = ret (blocks, gp') /\
    drop_rate gp' = PyFloat (1 # 2) /\ bn_size gp' = PyInt 4.
Proof.
  split; [cbn; tauto|].
  destruct (get_model_params_override_drop_rate "densenet201")
    as (blocks & gp & gp' & H0 & H1 & H2 & _ & _ & H3 & _); [cbn; tauto|].
  exists blocks, gp'. repeat split; try assumption.
  rewrite H3. vm_compute in H0. by inversion H0.
Defined.

(** C4. For every supported model name and every override mapping that has
    a key outside the seven fields of [GlobalParams], [get_model_params]
    raises the [ValueError] of [_replace], which lists that key; no
    configuration record is returned. *)
Theorem get_model_params_unknown_override (name key : string)
  (override_params : gmap string pyobj) :
  In name supported_names ->
  is_Some (override_params !! key) ->
  ~ In key GlobalParams_fields ->
  (exists keys,
      get_model_params name override_params = raise (ValueError keys) /\
      In key keys) /\
  (forall r, get_model_params name override_params <> ret r).
Proof.
  intros Hn Hk Hf.
  assert (E : exists keys,
      get_model_params name override_params = raise (ValueError keys) /\
      In key keys).
  { unfold get_model_params. rewrite (truthy_true _ _ Hk).
    destruct (densenet_stage name Hn) as (blocks & gp & ->).
    destruct (replace_unexpected gp _ _ Hk Hf) as (keys & E & Hin).
    exists keys. split; [|exact Hin]. simpl. by rewrite E. }
  split; [exact E|].
  destruct E as (keys & -> & _). discriminate.
Qed.

Lemma get_model_params_unknown_override_witness :
  In "densenet121"%string supported_names /\
  is_Some (({[ "foo"%string := PyInt 1 ]} : gmap string pyobj) !! "foo"%string)
  /\ ~ In "foo"%string GlobalParams_fields /\
  exists keys,
    get_model_params "densenet121" {[ "foo"%string := PyInt 1 ]} =
      raise (ValueError keys).
Proof.
  assert (H1 : In "densenet121"%string supported_names) by (cbn; tauto).
  assert (H2 : is_Some (({[ "foo"%string := PyInt 1 ]} : gmap string pyobj)
                          !! "foo"%string))
    by (exists (PyInt 1); vm_compute; reflexivity).
  assert (H3 : ~ In "foo"%string GlobalParams_fields)
    by (cbn; intros [H|[H|[H|[H|[H|[H|[H|[]]]]]]]]; discriminate H).
  repeat split; try assumption.
  destruct (get_model_params_unknown_override _ _ _ H1 H2 H3)
    as [(keys & E & _) _].
  by exists keys.
Defined.

(** ** The result monad *)

Lemma result_bind_ret {A B} (x : A) (f : A -> result B) :
  (ret x ≫= f) = f x.
Proof. reflexivity. Qed.

(** ** Rounding to a binary format *)

Section Digits.

Lemma digits2_pos_size p : digits2_pos p = Pos.size p.
Proof. induction p; simpl; congruence. Qed.

Lemma Zdigits2_log2 m : 0 < m -> Zdigits2 m = Z.log2 m + 1.
Proof.
  destruct m as [|p|p]; try lia. intros _. simpl.
  rewrite digits2_pos_size. destruct p; simpl; lia.
Qed.

Lemma Zdigits2_nonneg m : 0 <= Zdigits2 m.
Proof. destruct m; simpl; lia. Qed.

Lemma Zdigits2_pos m : 0 < m -> 0 < Zdigits2 m.
Proof. destruct m; simpl; lia. Qed.

Lemma Zdigits2_bounds m : 0 < m -> 2 ^ (Zdigits2 m - 1) <= m < 2 ^ Zdigits2 m.
Proof.
  intros Hm. rewrite (Zdigits2_log2 m Hm).
  replace (Z.log2 m + 1 - 1) with (Z.log2 m) by lia.
  replace (Z.log2 m + 1) with (Z.succ (Z.log2 m)) by lia.
  apply Z.log2_spec, Hm.
Qed.

Lemma Zdigits2_le_pow m k : 0 <= k -> 0 <= m < 2 ^ k -> Zdigits2 m <= k.
Proof.
  intros Hk [Hm0 Hm]. destruct (Z.eq_dec m 0) as [->|Hne]; [simpl; lia|].
  rewrite Zdigits2_log2 by lia.
  assert (Z.log2 m < k) by (apply Z.log2_lt_pow2; lia). lia.
Qed.

Lemma Zdigits2_mono a b : 0 <= a <= b -> Zdigits2 a <= Zdigits2 b.
Proof.
  intros [Ha Hab]. destruct (Z.eq_dec a 0) as [->|Hne].
  - apply Zdigits2_nonneg.
  - rewrite !Zdigits2_log2 by lia.
    assert (Z.log2 a <= Z.log2 b) by (apply Z.log2_le_mono; lia). lia.
Qed.

Lemma Zdigits2_succ m : 0 <= m -> Zdigits2 (m + 1) <= Zdigits2 m + 1.
Proof.
  intros Hm. destruct (Z.eq_dec m 0) as [->|Hne]; [simpl; lia|].
  rewrite !Zdigits2_log2 by lia.
  pose proof (Z.log2_succ_le m). unfold Z.succ in *. lia.
Qed.

Lemma Zdigits2_shiftr m n :
  0 <= m -> 0 <= n -> Zdigits2 (Z.shiftr m n) = Z.max 0 (Zdigits2 m - n).
Proof.
  intros Hm Hn. destruct (Z.eq_dec m 0) as [->|Hne].
  - rewrite Z.shiftr_0_l. simpl. lia.
  - destruct (Z.eq_dec (Z.shiftr m n) 0) as [E|E].
    + rewrite E. simpl.
      apply Z.shiftr_eq_0_iff in E. destruct E as [E|[_ E]]; [lia|].
      rewrite Zdigits2_log2 by lia. lia.
    + assert (0 < Z.shiftr m n).
      { pose proof (proj2 (Z.shiftr_nonneg m n) Hm). lia. }
      rewrite !Zdigits2_log2 by lia.
      rewrite Z.log2_shiftr by lia.
      assert (Hlt : n <= Z.log2 m).
      { destruct (Z_le_gt_dec n (Z.log2 m)); [done|].
        exfalso. apply E. apply Z.shiftr_eq_0; lia. }
      lia.
Qed.

Lemma Zdigits2_shiftl m n :
  0 < m -> 0 <= n -> Zdigits2 (Z.shiftl m n) = Zdigits2 m + n.
Proof.
  intros Hm Hn.
  assert (0 < Z.shiftl m n).
  { rewrite Z.shiftl_mul_pow2 by lia. apply Z.mul_pos_pos; [lia|].
    apply Z.pow_pos_nonneg; lia. }
  rewrite !Zdigits2_log2 by lia. rewrite Z.log2_shiftl by lia. lia.
Qed.

End Digits.

Section Rounding.

Variables prec emax : Z.
Hypothesis Hprec : 1 < prec.
Hypothesis Hemax : prec <= emax.

Lemma fexp_eq x : fexp prec emax x = Z.max (x - prec) (3 - emax - prec).
Proof. reflexivity. Qed.

Lemma shr_1_m r : 0 <= shr_m r -> shr_m (shr_1 r) = Z.shiftr (shr_m r) 1.
Proof.
  destruct r as [m r s]. simpl. intros Hm.
  destruct m as [|[p|p|]|p]; try reflexivity; lia.
Qed.

Lemma iter_pos_shr_1 p : forall r,
  0 <= shr_m r -> shr_m (SpecFloat.iter_pos shr_1 p r) = Z.shiftr (shr_m r) (Zpos p).
Proof.
  induction p as [p IH|p IH|]; intros r Hr; simpl.
  - assert (H1 : 0 <= shr_m (shr_1 r)).
    { rewrite shr_1_m by done. by apply Z.shiftr_nonneg. }
    assert (H2 : 0 <= shr_m (SpecFloat.iter_pos shr_1 p (shr_1 r))).
    { rewrite IH by done. by apply Z.shiftr_nonneg. }
    rewrite IH, IH, shr_1_m by done.
    rewrite !Z.shiftr_shiftr by lia. f_equal. lia.
  - assert (H2 : 0 <= shr_m (SpecFloat.iter_pos shr_1 p r)).
    { rewrite IH by done. by apply Z.shiftr_nonneg. }
    rewrite IH, IH by done.
    rewrite Z.shiftr_shiftr by lia. f_equal. lia.
  - by apply shr_1_m.
Qed.

Lemma shr_record_of_loc_m m l : shr_m (shr_record_of_loc m l) = m.
Proof. by destruct l as [|[]]. Qed.

Lemma shr_fexp_spec m e l r e' :
  0 <= m -> shr_fexp prec emax m e l = (r, e') ->
  e' = Z.max e (fexp prec emax (Zdigits2 m + e)) /\ shr_m r = Z.shiftr m (e' - e).
Proof.
  intros Hm. unfold shr_fexp, shr.
  destruct (fexp prec emax (Zdigits2 m + e) - e) as [|p|p] eqn:E;
    intros [= <- <-].
  - split; [lia|]. rewrite shr_record_of_loc_m.
    replace (e - e) with 0 by lia. by rewrite Z.shiftr_0_r.
  - split; [lia|]. rewrite iter_pos_shr_1 by (by rewrite shr_record_of_loc_m).
    rewrite shr_record_of_loc_m. f_equal. lia.
  - split; [lia|]. rewrite shr_record_of_loc_m.
    replace (e - e) with 0 by lia. by rewrite Z.shiftr_0_r.
Qed.

Lemma round_nearest_even_bounds m l :
  m <= round_nearest_even m l <= m + 1.
Proof.
  destruct l as [|[]]; simpl; try lia. destruct (Z.even m); lia.
Qed.

(** The result of rounding [m * 2^e]: not an infinity when the number is
    below [2^(emax-1)], not a zero when it is at least [2^(3 - emax - prec)]; the
    magnitude of a finite result. *)
Lemma binary_round_aux_spec s m e l :
  0 <= m -> e <= emax - prec -> Zdigits2 m + e <= emax - 1 ->
  match binary_round_aux prec emax s m e l with
  | S754_zero s' => s' = s /\ (0 < m -> Zdigits2 m + e <= (3 - emax - prec))
  | S754_finite s' m' e' =>
      s' = s /\ Zdigits2 (Zpos m') + e' <= Z.max (Zdigits2 m + e) (3 - emax - prec) + 1 /\
      (0 < m -> (3 - emax - prec) < Zdigits2 m + e -> Zdigits2 m + e <= Zdigits2 (Zpos m') + e')
  | _ => False
  end.
Proof using Hprec Hemax.
  intros Hm He Hd. unfold binary_round_aux.
  destruct (shr_fexp prec emax m e l) as [r1 e1] eqn:E1.
  destruct (shr_fexp_spec _ _ _ _ _ Hm E1) as [He1 Hm1].
  pose proof (round_nearest_even_bounds (shr_m r1) (loc_of_shr_record r1))
    as Hr.
  set (mr := round_nearest_even (shr_m r1) (loc_of_shr_record r1)) in *.
  assert (Hm1' : 0 <= shr_m r1) by (rewrite Hm1; by apply Z.shiftr_nonneg).
  assert (Hmr : 0 <= mr) by lia.
  destruct (shr_fexp prec emax mr e1 loc_Exact) as [r2 e2] eqn:E2.
  destruct (shr_fexp_spec _ _ _ _ _ Hmr E2) as [He2 Hm2].
  assert (Hd1 : Zdigits2 (shr_m r1) = Z.max 0 (Zdigits2 m - (e1 - e))).
  { rewrite Hm1. apply Zdigits2_shiftr; lia. }
  assert (Hdr1 : Zdigits2 (shr_m r1) <= Zdigits2 mr) by (apply Zdigits2_mono; lia).
  assert (Hdr2 : Zdigits2 mr <= Zdigits2 (shr_m r1) + 1).
  { transitivity (Zdigits2 (shr_m r1 + 1)); [apply Zdigits2_mono; lia|].
    by apply Zdigits2_succ. }
  assert (Hd2 : Zdigits2 (shr_m r2) = Z.max 0 (Zdigits2 mr - (e2 - e1))).
  { rewrite Hm2. apply Zdigits2_shiftr; lia. }
  rewrite !fexp_eq in *.
  pose proof (Zdigits2_nonneg m) as Hdm.
  destruct (shr_m r2) as [|m2|m2] eqn:Em2.
  - split; [done|]. intros Hpos.
    pose proof (Zdigits2_pos m Hpos). simpl in Hd2. lia.
  - assert (Hpos2 : 0 < Zdigits2 (Zpos m2)) by (by apply Zdigits2_pos).
    destruct (Z.leb_spec e2 (emax - prec)) as [Hle|Hgt].
    + split; [done|]. split; [lia|]. intros Hpos Hmin.
      pose proof (Zdigits2_pos m Hpos). lia.
    + lia.
  - pose proof (proj2 (Z.shiftr_nonneg mr (e2 - e1)) Hmr). lia.
Qed.

Lemma Zpos_iter_xO m d : Zpos (Pos.iter xO m d) = Z.shiftl (Zpos m) (Zpos d).
Proof.
  rewrite Z.shiftl_mul_pow2 by lia.
  revert m. induction d using Pos.peano_ind; intros m.
  - simpl. lia.
  - rewrite Pos.iter_succ. rewrite Pos2Z.inj_xO, IHd, Pos2Z.inj_succ.
    rewrite Z.pow_succ_r by lia. lia.
Qed.

Lemma shl_align_spec m e e' mz ez :
  shl_align m e e' = (mz, ez) ->
  ez = Z.min e e' /\ Zpos mz = Z.shiftl (Zpos m) (e - ez).
Proof.
  unfold shl_align. destruct (e' - e) as [|p|p] eqn:E; intros [= <- <-].
  - split; [lia|]. replace (e - e) with 0 by lia. by rewrite Z.shiftl_0_r.
  - split; [lia|]. replace (e - e) with 0 by lia. by rewrite Z.shiftl_0_r.
  - split; [lia|]. rewrite Zpos_iter_xO. f_equal. lia.
Qed.

Lemma binary_round_spec s m e :
  Zdigits2 (Zpos m) + e <= emax - 1 ->
  match binary_round prec emax s m e with
  | S754_zero s' => s' = s /\ Zdigits2 (Zpos m) + e <= (3 - emax - prec)
  | S754_finite s' m' e' =>
      s' = s /\ Zdigits2 (Zpos m') + e' <= Z.max (Zdigits2 (Zpos m) + e) (3 - emax - prec) + 1 /\
      ((3 - emax - prec) < Zdigits2 (Zpos m) + e -> Zdigits2 (Zpos m) + e <= Zdigits2 (Zpos m') + e')
  | _ => False
  end.
Proof using Hprec Hemax.
  intros Hd. unfold binary_round.
  destruct (shl_align m e (fexp prec emax (Zpos (digits2_pos m) + e)))
    as [mz ez] eqn:E.
  destruct (shl_align_spec _ _ _ _ _ E) as [Hez Hmz].
  change (Zpos (digits2_pos m)) with (Zdigits2 (Zpos m)) in *.
  assert (Hdz : Zdigits2 (Zpos mz) + ez = Zdigits2 (Zpos m) + e).
  { rewrite Hmz, Zdigits2_shiftl by lia. lia. }
  rewrite fexp_eq in Hez.
  pose proof (binary_round_aux_spec s (Zpos mz) ez loc_Exact) as H.
  rewrite Hdz in H.
  destruct (binary_round_aux prec emax s (Zpos mz) ez loc_Exact);
    try (apply H; lia).
  - split; [apply H; lia|]. apply H; lia.
  - destruct H as (H1 & H2 & H3); [lia..|]. split; [done|]. split; [done|].
    intros. apply H3; lia.
Qed.

Lemma div_core_spec m1 e1 m2 e2 q e' l :
  0 < m1 -> 0 < m2 ->
  SFdiv_core_binary prec emax m1 e1 m2 e2 = (q, e', l) ->
  0 <= q /\ e' <= e1 - e2 /\ e' <= fexp prec emax (Zdigits2 m1 + e1 - (Zdigits2 m2 + e2)) /\
  q * m2 <= m1 * 2 ^ (e1 - e2 - e').
Proof.
  clear Hprec Hemax. intros H1 H2. unfold SFdiv_core_binary.
  set (x := fexp prec emax (Zdigits2 m1 + e1 - (Zdigits2 m2 + e2))).
  set (e0 := Z.min x (e1 - e2)).
  set (m' := match e1 - e2 - e0 with
             | 0 => m1 | Zpos _ => Z.shiftl m1 (e1 - e2 - e0) | Zneg _ => 0
             end).
  assert (Hm' : m' = m1 * 2 ^ (e1 - e2 - e0)).
  { unfold m'. destruct (e1 - e2 - e0) as [|p|p] eqn:E.
    - simpl. lia.
    - by rewrite Z.shiftl_mul_pow2.
    - lia. }
  pose proof (Z_div_mod m' m2 ltac:(lia)) as Hdiv.
  destruct (Z.div_eucl m' m2) as [q0 r0]. intros [= <- <- <-].
  destruct Hdiv as [Hdiv Hr].
  assert (0 <= m').
  { rewrite Hm'. apply Z.mul_nonneg_nonneg; [lia|]. apply Z.pow_nonneg. lia. }
  split; [nia|]. split; [lia|]. split; [lia|].
  rewrite <- Hm'. nia.
Qed.

End Rounding.

Section RoundingMore.

Variables prec emax : Z.
Hypothesis Hprec : 1 < prec.
Hypothesis Hemax : prec <= emax.

(** The float nearest to a positive integer below [2^(emax-1)]. *)
Lemma of_Z_pos (n : Z) :
  0 < n < 2 ^ (emax - 1) ->
  exists m e,
    Binary.of_Z prec emax n = S754_finite false m e /\
    Zdigits2 n <= Zdigits2 (Zpos m) + e <= Zdigits2 n + 1.
Proof using Hprec Hemax.
  intros [Hn Hlt]. destruct n as [|p|p]; try lia.
  unfold Binary.of_Z, binary_normalize.
  assert (Hd : Zdigits2 (Zpos p) <= emax - 1) by (apply Zdigits2_le_pow; lia).
  pose proof (Zdigits2_pos (Zpos p) Hn) as Hd0.
  pose proof (binary_round_spec prec emax Hprec Hemax false p 0) as H.
  destruct (binary_round prec emax false p 0) as [s|s| |s m e].
  - destruct H as [_ H]; lia.
  - destruct H; lia.
  - destruct H; lia.
  - destruct H as (-> & H1 & H2); [lia|]. exists m, e. split; [done|]. lia.
Qed.

Lemma of_Z_not_infinite (z : Z) :
  Z.abs z < 2 ^ (emax - 1) ->
  Binary.is_infinite (Binary.of_Z prec emax z) = false.
Proof using Hprec Hemax.
  intros Hlt. unfold Binary.of_Z, binary_normalize.
  destruct z as [|p|p]; [done|..].
  - pose proof (binary_round_spec prec emax Hprec Hemax false p 0) as H.
    assert (Hd : Zdigits2 (Zpos p) <= emax - 1) by (apply Zdigits2_le_pow; lia).
    destruct (binary_round prec emax false p 0); try done.
    all: destruct H; lia.
  - pose proof (binary_round_spec prec emax Hprec Hemax true p 0) as H.
    assert (Hd : Zdigits2 (Zpos p) <= emax - 1).
    { apply Zdigits2_le_pow; [lia|]. simpl in Hlt. lia. }
    destruct (binary_round prec emax true p 0); try done.
    all: destruct H; lia.
Qed.

Lemma div_digits (q m1 m2 s : Z) :
  0 <= q -> 0 < m1 -> 0 < m2 -> 0 <= s -> q * m2 <= m1 * 2 ^ s ->
  Zdigits2 q <= Z.max 0 (Zdigits2 m1 + s - Zdigits2 m2 + 1).
Proof.
  clear Hprec Hemax. intros Hq H1 H2 Hs Hle.
  destruct (Z.eq_dec q 0) as [->|Hq0]; [simpl; lia|].
  pose proof (Zdigits2_bounds m1 H1) as [_ Hb1].
  pose proof (Zdigits2_bounds m2 H2) as [Hb2 _].
  pose proof (Zdigits2_pos m1 H1) as Hd1.
  pose proof (Zdigits2_pos m2 H2) as Hd2.
  assert (Hs2 : 0 < 2 ^ s) by (apply Z.pow_pos_nonneg; lia).
  assert (Hp2 : 0 < 2 ^ (Zdigits2 m2 - 1)) by (apply Z.pow_pos_nonneg; lia).
  assert (Hlt : q * 2 ^ (Zdigits2 m2 - 1) < 2 ^ (Zdigits2 m1 + s)).
  { rewrite Z.pow_add_r by lia. nia. }
  destruct (Z_le_gt_dec (Zdigits2 m1 + s - Zdigits2 m2 + 1) 0) as [Hneg|Hpos].
  - exfalso.
    assert (2 ^ (Zdigits2 m1 + s) <= 2 ^ (Zdigits2 m2 - 1)) by (apply Z.pow_le_mono_r; lia).
    nia.
  - assert (q < 2 ^ (Zdigits2 m1 + s - Zdigits2 m2 + 1)).
    { replace (Zdigits2 m1 + s) with ((Zdigits2 m1 + s - Zdigits2 m2 + 1) + (Zdigits2 m2 - 1)) in Hlt
        by lia.
      rewrite Z.pow_add_r in Hlt by lia. nia. }
    assert (Zdigits2 q <= Zdigits2 m1 + s - Zdigits2 m2 + 1) by (apply Zdigits2_le_pow; lia).
    lia.
Qed.

(** The quotient of two finite floats whose magnitudes are not too far
    apart is a zero or a finite float. *)
Lemma SFdiv_finite sx mx ex sy my ey :
  Zdigits2 (Zpos mx) + ex - (Zdigits2 (Zpos my) + ey) <= emax - 2 ->
  match SFdiv prec emax (S754_finite sx mx ex) (S754_finite sy my ey) with
  | S754_zero s => s = xorb sx sy
  | S754_finite s m e =>
      s = xorb sx sy /\
      Zdigits2 (Zpos m) + e <=
        Z.max (Zdigits2 (Zpos mx) + ex - (Zdigits2 (Zpos my) + ey) + 1) (3 - emax - prec) + 1
  | _ => False
  end.
Proof using Hprec Hemax.
  intros HX. unfold SFdiv.
  destruct (SFdiv_core_binary prec emax (Zpos mx) ex (Zpos my) ey)
    as [[q e'] l] eqn:E.
  destruct (div_core_spec prec emax (Zpos mx) ex (Zpos my) ey q e' l
              ltac:(lia) ltac:(lia) E) as (Hq & He1 & He2 & Hv).
  rewrite fexp_eq in He2.
  pose proof (div_digits q (Zpos mx) (Zpos my) (ex - ey - e')
                Hq ltac:(lia) ltac:(lia) ltac:(lia) Hv) as Hd.
  pose proof (binary_round_aux_spec prec emax Hprec Hemax (xorb sx sy)
                q e' l Hq) as H.
  destruct (binary_round_aux prec emax (xorb sx sy) q e' l).
  - apply H; lia.
  - destruct H; lia.
  - destruct H; lia.
  - destruct H as (-> & H1 & _); [lia..|]. split; [done|]. lia.
Qed.

(** Conversion of a finite float below [2^(emax-1)] keeps it finite (or
    makes it a zero) and keeps its sign. *)
Lemma round_finite s m e :
  Zdigits2 (Zpos m) + e <= emax - 1 ->
  match Binary.round prec emax (S754_finite s m e) with
  | S754_zero s' => s' = s
  | S754_finite s' _ _ => s' = s
  | _ => False
  end.
Proof using Hprec Hemax.
  intros Hd. simpl.
  pose proof (binary_round_spec prec emax Hprec Hemax s m e Hd) as H.
  destruct (binary_round prec emax s m e); try done; apply H.
Qed.

(** The rounded quotient of two integers is not an infinity when the
    quotient is below [2^(emax-1)]. *)
Lemma of_ratio_not_infinite (a b : Z) :
  b <> 0 -> Z.abs a < 2 ^ (emax - 1) * Z.abs b ->
  Binary.is_infinite (Binary.of_ratio prec emax a b) = false.
Proof using Hprec Hemax.
  intros Hb Hlt. unfold Binary.of_ratio.
  destruct (Z.eq_dec a 0) as [->|Ha].
  { by destruct b. }
  assert (E : match a, b with
              | _, 0 => S754_nan
              | 0, _ => S754_zero (b <? 0)
              | _, _ =>
                  let '(q, e, l) :=
                    SFdiv_core_binary prec emax (Z.abs a) 0 (Z.abs b) 0 in
                  binary_round_aux prec emax (xorb (a <? 0) (b <? 0)) q e l
              end =
              let '(q, e, l) :=
                SFdiv_core_binary prec emax (Z.abs a) 0 (Z.abs b) 0 in
              binary_round_aux prec emax (xorb (a <? 0) (b <? 0)) q e l).
  { by destruct a, b. }
  rewrite E. clear E.
  destruct (SFdiv_core_binary prec emax (Z.abs a) 0 (Z.abs b) 0)
    as [[q e'] l] eqn:E.
  destruct (div_core_spec prec emax (Z.abs a) 0 (Z.abs b) 0 q e' l
              ltac:(lia) ltac:(lia) E) as (Hq & He1 & He2 & Hv).
  assert (Hs : 0 < 2 ^ (0 - 0 - e')) by (apply Z.pow_pos_nonneg; lia).
  assert (Hqlt : q < 2 ^ (emax - 1 - e')).
  { replace (emax - 1 - e') with ((emax - 1) + (0 - 0 - e')) by lia.
    rewrite Z.pow_add_r by lia.
    assert (0 < 2 ^ (emax - 1)) by (apply Z.pow_pos_nonneg; lia).
    nia. }
  assert (Hd : Zdigits2 q <= emax - 1 - e') by (apply Zdigits2_le_pow; lia).
  pose proof (binary_round_aux_spec prec emax Hprec Hemax
                (xorb (a <? 0) (b <? 0)) q e' l Hq) as H.
  destruct (binary_round_aux prec emax (xorb (a <? 0) (b <? 0)) q e' l);
    try done.
  all: destruct H; lia.
Qed.

End RoundingMore.

(** ** Properties of the learning-rate schedule *)

Section Schedule.

Import Num Training.

Lemma floordiv_30_spec (epoch : Z) :
  30 * floordiv epoch 30 <= epoch < 30 * floordiv epoch 30 + 30.
Proof.
  unfold floordiv.
  pose proof (Z.mul_div_le epoch 30 ltac:(lia)).
  pose proof (Z.mul_succ_div_gt epoch 30 ltac:(lia)). lia.
Qed.

End Schedule.

(** ** The learning-rate schedule in binary64 *)

Section ScheduleFloat.

Import IEEE.Training.

Lemma in_range_ret (x : spec_float) :
  Binary.is_infinite x = false -> Py.in_range x = ret x.
Proof. unfold Py.in_range. by intros ->. Qed.

Lemma to_float_int (z : Z) :
  Z.abs z < 2 ^ 1023 -> Py.to_float (Py.Int z) = ret (B64.of_Z z).
Proof.
  intros Hz. apply in_range_ret.
  apply (of_Z_not_infinite 53 1024); [lia | lia | exact Hz].
Qed.

Lemma tenth_power_digits (p : positive) :
  Zdigits2 (Zpos (Py.tenth_mantissa ^ p)) <= 53 * Zpos p.
Proof.
  apply Zdigits2_le_pow; [lia|]. split; [lia|].
  rewrite Pos2Z.inj_pow, Z.pow_mul_r by lia.
  apply Z.pow_lt_mono_l; [lia|]. split; [lia|]. reflexivity.
Qed.

(** [0.1 ** k] raises for no exponent from 0 up to [2^1023]. *)
Lemma pow_tenth_nonneg (k : Z) :
  0 <= k < 2 ^ 1023 -> exists p, Py.pow_tenth k = ret p.
Proof.
  intros Hk. unfold Py.pow_tenth. rewrite to_float_int by lia.
  destruct k as [|q|q]; [by eexists| |lia].
  eexists. apply in_range_ret.
  pose proof (tenth_power_digits q) as Hd.
  pose proof (binary_round_spec 53 1024 ltac:(lia) ltac:(lia) false
                (Py.tenth_mantissa ^ q) (Py.tenth_exponent * Zpos q)) as H.
  unfold B64.prec, B64.emax.
  destruct (binary_round 53 1024 false _ _); try done.
  all: unfold Py.tenth_exponent in H; destruct H; lia.
Qed.

Lemma adjust_learning_rate_ret optimizer epoch args p :
  Py.pow_tenth (epoch / 30) = ret p ->
  adjust_learning_rate optimizer epoch args =
  ret {| param_groups :=
           (fun g => <["lr"%string := IEEE.PyFloat (B64.mul (lr args) p)]> g)
             <$> param_groups optimizer |}.
Proof.
  intros E. unfold adjust_learning_rate, Num.floordiv. by rewrite E.
Qed.

End ScheduleFloat.

(** C5. For every base rate (a float) and every non-negative epoch below
    [2^1023], [adjust_learning_rate] returns normally, keeps the list of
    parameter groups, and in every group sets ['lr'] to one and the same
    binary64 number, the rounded product of the base rate and the float
    [0.1 ** k] with [k = floor(epoch / 30)], leaving the other entries of
    the group as they were; with base rate 0.1 the rate is 0.1 at epoch 0,
    0.010000000000000002 at epoch 30 and 0.0010000000000000002 at
    epoch 60. *)
Theorem adjust_learning_rate_binary64 (optimizer : IEEE.Training.Optimizer)
  (epoch : Z) (args : IEEE.Training.Args) :
  0 <= epoch < 2 ^ 1023 ->
  exists (k : Z) (p : spec_float) (optimizer' : IEEE.Training.Optimizer),
    30 * k <= epoch < 30 * (k + 1) /\
    Py.pow_tenth k = ret p /\
    IEEE.Training.adjust_learning_rate optimizer epoch args = ret optimizer' /\
    length (IEEE.Training.param_groups optimizer') =
      length (IEEE.Training.param_groups optimizer) /\
    (forall (i : nat) g,
       IEEE.Training.param_groups optimizer !! i = Some g ->
       exists g',
         IEEE.Training.param_groups optimizer' !! i = Some g' /\
         g' !! "lr"%string =
           Some (IEEE.PyFloat (B64.mul (IEEE.Training.lr args) p)) /\
         forall key, key <> "lr"%string -> g' !! key = g !! key) /\
    (IEEE.Training.lr args = B64.tenth ->
     (epoch = 0 -> B64.mul (IEEE.Training.lr args) p = B64.of_decimal 1 (-1)) /\
     (epoch = 30 ->
      B64.mul (IEEE.Training.lr args) p =
        B64.of_decimal 10000000000000002 (-18)) /\
     (epoch = 60 ->
      B64.mul (IEEE.Training.lr args) p =
        B64.of_decimal 10000000000000002 (-19))).
Proof.
  intros Hep.
  pose proof (floordiv_30_spec epoch) as Hk. unfold Num.floordiv in Hk.
  destruct (pow_tenth_nonneg (epoch / 30)) as [p Hp].
  { split; [lia|]. assert (0 < 2 ^ 1023) by (by apply Z.pow_pos_nonneg). lia. }
  exists (epoch / 30), p. eexists.
  split; [lia|]. split; [exact Hp|].
  split; [by apply adjust_learning_rate_ret|]. simpl.
  split; [by rewrite length_fmap|]. split.
  - intros i g Hg. eexists. split.
    { rewrite list_lookup_fmap, Hg. reflexivity. }
    split.
    + by rewrite lookup_insert_eq.
    + intros key Hkey. by rewrite lookup_insert_ne.
  - intros ->. repeat split; intros ->; vm_compute in Hp;
      injection Hp as <-; vm_compute; reflexivity.
Qed.

Lemma adjust_learning_rate_binary64_witness :
  0 <= 45 < 2 ^ 1023 /\
  exists optimizer' g',
    IEEE.Training.adjust_learning_rate float_optimizer 45
      {| IEEE.Training.lr := B64.tenth |} = ret optimizer' /\
    IEEE.Training.param_groups optimizer' !! 1%nat = Some g' /\
    g' !! "lr"%string =
      Some (IEEE.PyFloat (B64.of_decimal 10000000000000002 (-18))) /\
    g' !! "momentum"%string = Some (IEEE.PyFloat (B64.of_decimal 9 (-1))).
Proof.
  assert (H : 0 <= 45 < 2 ^ 1023) by (split; [lia | reflexivity]).
  split; [exact H|].
  destruct (adjust_learning_rate_binary64 float_optimizer 45
              {| IEEE.Training.lr := B64.tenth |} H)
    as (k & p & optimizer' & Hk & Hp & E & _ & Hg & _).
  destruct (Hg 1%nat _ eq_refl) as (g' & Hg' & Hlr & Hother).
  exists optimizer', g'. split; [exact E|]. split; [exact Hg'|]. split.
  - rewrite Hlr. assert (k = 1) as -> by lia.
    vm_compute in Hp. injection Hp as <-. vm_compute. reflexivity.
  - rewrite Hother by done. reflexivity.
Defined.

(** With base rate 0.1 the rate written at epoch 30 is not the float 0.01
    and the rate written at epoch 60 is not the float 0.001; and at epoch
    [30 * 2^1024] the exponent is too large for a float. *)
Lemma adjust_learning_rate_exact_counterexample :
  (exists optimizer' g',
     IEEE.Training.adjust_learning_rate float_optimizer 30
       {| IEEE.Training.lr := B64.tenth |} = ret optimizer' /\
     IEEE.Training.param_groups optimizer' !! 0%nat = Some g' /\
     g' !! "lr"%string =
       Some (IEEE.PyFloat (B64.of_decimal 10000000000000002 (-18))) /\
     g' !! "lr"%string <> Some (IEEE.PyFloat (B64.of_decimal 1 (-2)))) /\
  (exists optimizer' g',
     IEEE.Training.adjust_learning_rate float_optimizer 60
       {| IEEE.Training.lr := B64.tenth |} = ret optimizer' /\
     IEEE.Training.param_groups optimizer' !! 0%nat = Some g' /\
     g' !! "lr"%string =
       Some (IEEE.PyFloat (B64.of_decimal 10000000000000002 (-19))) /\
     g' !! "lr"%string <> Some (IEEE.PyFloat (B64.of_decimal 1 (-3)))) /\
  IEEE.Training.adjust_learning_rate float_optimizer (30 * 2 ^ 1024)
    {| IEEE.Training.lr := B64.tenth |} = raise OverflowError.
Proof.
  split; [|split].
  - do 2 eexists. split; [vm_compute; reflexivity|].
    split; [reflexivity|]. split; [vm_compute; reflexivity|].
    vm_compute. discriminate.
  - do 2 eexists. split; [vm_compute; reflexivity|].
    split; [reflexivity|]. split; [vm_compute; reflexivity|].
    vm_compute. discriminate.
  - vm_compute. reflexivity.
Qed.

(** ** Properties of [AverageMeter] *)

Section Meter.

Import Num AverageMeter.

Lemma truediv_pos x (c : Z) :
  0 < c -> truediv x (Int c) = ret (Float (to_Q x / inject_Z c)).
Proof.
  intros Hc. unfold truediv. simpl.
  destruct (Qeq_bool (inject_Z c) 0) eqn:E; [|reflexivity].
  apply Qeq_bool_iff in E. unfold Qeq in E. simpl in E. lia.
Qed.

Lemma last_cons_default {A} (l : list A) (x d d' : A) :
  List.last (x :: l) d = List.last (x :: l) d'.
Proof.
  revert x. induction l as [|y l IH]; intros x; [reflexivity|].
  change (List.last (y :: l) d = List.last (y :: l) d'). apply IH.
Qed.

End Meter.

(** C8. From the reset state, [update(4, 2)] then [update(6, 2)] succeed and
    leave the float average (4*2 + 6*2) / 4 = 5.0; a following [reset] puts
    [val], [avg], [sum] and [count] back to 0. *)
Theorem average_meter_example (self : AverageMeter.t) :
  exists m1 m2,
    AverageMeter.update (Num.Int 4) (Num.Int 2) (AverageMeter.reset self) =
      (m1, ret ()) /\
    AverageMeter.update (Num.Int 6) (Num.Int 2) m1 = (m2, ret ()) /\
    (exists q, AverageMeter.avg m2 = Num.Float q /\
               (q == (4 * 2 + 6 * 2) / 4)%Q /\ (q == 5)%Q) /\
    AverageMeter.avg (AverageMeter.reset m2) = Num.Int 0 /\
    AverageMeter.val (AverageMeter.reset m2) = Num.Int 0 /\
    AverageMeter.sum (AverageMeter.reset m2) = Num.Int 0 /\
    AverageMeter.count (AverageMeter.reset m2) = Num.Int 0.
Proof.
  do 2 eexists. split; [vm_compute; reflexivity|].
  split; [vm_compute; reflexivity|].
  split; [|by repeat split].
  eexists. split; [reflexivity|]. split; reflexivity.
Qed.

(** ** [AverageMeter] in binary64 *)

Section MeterFloat.

Import Py IEEE.AverageMeter.

Lemma total_weight_nonneg calls :
  Forall (fun c : num * Z => 0 < c.2) calls -> 0 <= total_weight calls.
Proof. induction 1; simpl; lia. Qed.

(** One call that returns normally. *)
Lemma update_ret v n c (self self' : t) :
  count self = Int c ->
  update v (Int n) self = (self', ret ()) ->
  exists s q,
    (p ← mul v (Int n); add (sum self) p) = ret s /\
    truediv s (Int (c + n)) = ret q /\
    self' = {| val := v; avg := Float q; sum := s; count := Int (c + n) |}.
Proof.
  intros Hc. unfold update. simpl. rewrite Hc.
  destruct (mul v (Int n) ≫= _) as [e|s]; [intros ?; simplify_eq|].
  simpl.
  destruct (truediv s (Int (c + n))) as [e|q] eqn:Eq;
    [intros ?; simplify_eq|].
  intros [= <-]. by exists s, q.
Qed.

Lemma updates_invariant_float calls : forall (self m : t) c,
  Forall (fun c : num * Z => 0 < c.2) calls ->
  count self = Int c ->
  updates calls self = (m, ret ()) ->
  count m = Int (c + total_weight calls) /\
  accumulate (sum self) calls = ret (sum m) /\
  (calls <> [] ->
   (exists q, truediv (sum m) (count m) = ret q /\ avg m = Float q) /\
   val m = List.last (calls.*1) (val self)).
Proof.
  induction calls as [|[v n] calls IH]; intros self m c Hall Hc E.
  - simpl in E. injection E as <-. simpl. rewrite Z.add_0_r. by repeat split.
  - inversion Hall as [|? ? Hn Hall']; subst. simpl in Hn.
    simpl updates in E.
    destruct (update v (Int n) self) as [self1 [e|[]]] eqn:E1; [done|].
    destruct (update_ret v n c self self1 Hc E1) as (s & q & Hs & Hq & ->).
    destruct (IH (mk v (Float q) s (Int (c + n))) m (c + n) Hall' eq_refl E)
      as (Hcount & Hsum & Hrest).
    simpl in Hsum. split.
    { rewrite Hcount. simpl. f_equal. lia. }
    split.
    { simpl. destruct (mul v (Int n)) as [e|p]; [done|]. simpl in Hs |- *.
      by rewrite Hs. }
    intros _. destruct calls as [|c' calls].
    + simpl in E. injection E as <-. simpl. split; [by exists q|done].
    + destruct Hrest as [Ha Hv]; [done|]. split; [exact Ha|].
      rewrite Hv. destruct c' as [v' n']. simpl fmap.
      change (List.last (v' :: calls.*1) v =
              List.last (v' :: calls.*1) (val self)).
      apply last_cons_default.
Qed.

Lemma truediv_int (a b : Z) :
  0 < b -> Z.abs a < 2 ^ 1023 * b ->
  truediv (Int a) (Int b) = ret (B64.of_ratio a b).
Proof.
  intros Hb Ha. unfold truediv.
  destruct (Z.eqb_spec b 0) as [->|_]; [lia|].
  apply in_range_ret.
  apply (of_ratio_not_infinite 53 1024); [lia | lia | lia |].
  change (1024 - 1) with 1023. lia.
Qed.

(** With [int] values below [2^1023] in magnitude no call raises, and the
    sum stays an exact [int]. *)
Lemma updates_ints calls : forall (self : t) s c,
  Forall (fun c : Z * Z => Z.abs c.1 < 2 ^ 1023 /\ 0 < c.2) calls ->
  sum self = Int s -> count self = Int c ->
  0 <= c -> Z.abs s <= (2 ^ 1023 - 1) * c ->
  exists m,
    updates (int_calls calls) self = (m, ret ()) /\
    sum m = Int (s + int_weighted_sum calls) /\
    count m = Int (c + int_total calls) /\
    (calls <> [] ->
     avg m = Float (B64.of_ratio (s + int_weighted_sum calls)
                      (c + int_total calls))).
Proof.
  induction calls as [|[v n] calls IH]; intros self s c Hall Hs Hc Hc0 Hb.
  - exists self. simpl. rewrite !Z.add_0_r. by repeat split.
  - inversion Hall as [|? ? [Hv Hn] Hall']; subst. simpl in Hv, Hn.
    assert (Hp : 0 < 2 ^ 1023) by (by apply Z.pow_pos_nonneg).
    assert (Hb' : Z.abs (s + v * n) <= (2 ^ 1023 - 1) * (c + n)) by nia.
    assert (Hq : truediv (Int (s + v * n)) (Int (c + n)) =
                 ret (B64.of_ratio (s + v * n) (c + n))).
    { apply truediv_int; [lia | nia]. }
    simpl int_calls. simpl updates. unfold update. simpl.
    rewrite Hs, Hc. simpl. unfold truediv in Hq. rewrite Hq. simpl.
    set (self1 := mk (Int v) (Float (B64.of_ratio (s + v * n) (c + n)))
                    (Int (s + v * n)) (Int (c + n))).
    destruct (IH self1 (s + v * n) (c + n) Hall' eq_refl eq_refl
                ltac:(lia) Hb') as (m & E & Hsum & Hcount & Havg).
    exists m. split; [exact E|]. split.
    { rewrite Hsum. f_equal. simpl. lia. }
    split.
    { rewrite Hcount. f_equal. simpl. lia. }
    intros _. destruct calls as [|c' calls].
    + simpl in E. injection E as <-. simpl. by rewrite !Z.add_0_r.
    + rewrite Havg by done. do 2 f_equal; simpl; lia.
Qed.

Lemma to_float_pos (n : Z) :
  0 < n < 2 ^ 1023 ->
  Py.to_float (Int n) = ret (B64.of_Z n) /\
  Binary.is_zero (B64.of_Z n) = false.
Proof.
  intros Hn. split; [apply to_float_int; lia|].
  destruct (of_Z_pos 53 1024 ltac:(lia) ltac:(lia) n Hn) as (m & e & E & _).
  unfold B64.of_Z, B64.prec, B64.emax. by rewrite E.
Qed.

(** With [float] values and a total weight below [2^1023] no call
    raises. *)
Lemma updates_floats calls : forall (self : t) c,
  Forall (fun c : spec_float * Z => 0 < c.2) calls ->
  count self = Int c -> 0 <= c ->
  c + total_weight (float_calls calls) < 2 ^ 1023 ->
  sum self = Int 0 \/ (exists s, sum self = Float s) ->
  exists m, updates (float_calls calls) self = (m, ret ()).
Proof.
  induction calls as [|[v n] calls IH]; intros self c Hall Hc Hc0 Hlt Hs.
  - by exists self.
  - inversion Hall as [|? ? Hn Hall']; subst. simpl in Hn.
    assert (Hrest : 0 <= total_weight (float_calls calls)).
    { apply total_weight_nonneg. unfold float_calls. apply Forall_fmap.
      eapply Forall_impl; [exact Hall'|]. by intros []. }
    simpl in Hlt.
    destruct (to_float_pos n ltac:(lia)) as [En _].
    destruct (to_float_pos (c + n) ltac:(lia)) as [Ec Ez].
    assert (Hsum : exists s,
               (p ← mul (Float v) (Int n); add (sum self) p) = ret (Float s)).
    { change (mul (Float v) (Int n))
        with (a ← ret v; b ← to_float (Int n); ret (Float (B64.mul a b))).
      rewrite result_bind_ret, En, !result_bind_ret.
      destruct Hs as [->|[s ->]].
      - change (add (Int 0) ?p)
          with (a ← to_float (Int 0); b ← to_float p; ret (Float (B64.add a b))).
        rewrite to_float_int by (simpl; lia).
        rewrite result_bind_ret. by eexists.
      - by eexists. }
    destruct Hsum as [s Hsum].
    simpl float_calls. simpl updates. unfold update. simpl val. simpl avg.
    simpl sum. simpl count.
    rewrite Hsum, Hc.
    change (add (Int c) (Int n)) with (ret (Int (c + n))).
    unfold mret at 1 2, result_ret at 1 2. cbv iota beta.
    change (truediv (Float s) (Int (c + n)))
      with (a ← ret s; b ← to_float (Int (c + n));
            if Binary.is_zero b then raise ZeroDivisionError
            else ret (B64.div a b)).
    rewrite result_bind_ret, Ec, result_bind_ret, Ez.
    apply (IH _ (c + n)); [done | done | lia | lia | right; by exists s].
Qed.

End MeterFloat.

(** C10. Construction calls [reset], which gives the all-zero meter.  From
    a constructed or reset meter, after a sequence of calls
    [update(v_i, n_i)] with positive integers [n_i] that all return
    normally, [count] is the sum of the [n_i] and [sum] is what Python
    accumulates, [(0 + v_1 * n_1) + v_2 * n_2 ...]; when the sequence is not
    empty, [avg] is the float [sum / count] of Python's true division and
    [val] the last [v_i]; when it is empty the meter is still all zero.
    When the [v_i] are integers below [2^1023] in magnitude, every call
    returns normally, [sum] is the exact integer sum of the [v_i * n_i] and
    [avg] the binary64 number nearest to [sum / count].  When the [v_i] are
    floats and the [n_i] add up to less than [2^1023], every call returns
    normally. *)
Theorem average_meter_binary64_invariant (self : IEEE.AverageMeter.t)
  (calls : list (Py.num * Z)) (m : IEEE.AverageMeter.t)
  (icalls : list (Z * Z)) (fcalls : list (spec_float * Z)) :
  Forall (fun c : Py.num * Z => 0 < c.2) calls ->
  IEEE.AverageMeter.updates calls (IEEE.AverageMeter.reset self) =
    (m, ret ()) ->
  Forall (fun c : Z * Z => Z.abs c.1 < 2 ^ 1023 /\ 0 < c.2) icalls ->
  Forall (fun c : spec_float * Z => 0 < c.2) fcalls ->
  total_weight (float_calls fcalls) < 2 ^ 1023 ->
  IEEE.AverageMeter.__init__ self = IEEE.AverageMeter.reset self /\
  IEEE.AverageMeter.reset self = zero_float_meter /\
  (IEEE.AverageMeter.count m = Py.Int (total_weight calls) /\
   accumulate (Py.Int 0) calls = ret (IEEE.AverageMeter.sum m) /\
   (calls <> [] ->
    (exists q,
       Py.truediv (IEEE.AverageMeter.sum m) (IEEE.AverageMeter.count m) =
         ret q /\
       IEEE.AverageMeter.avg m = Py.Float q) /\
    exists v n calls',
      calls = calls' ++ [(v, n)] /\ IEEE.AverageMeter.val m = v) /\
   (calls = [] -> m = zero_float_meter)) /\
  (exists mi,
     IEEE.AverageMeter.updates (int_calls icalls)
       (IEEE.AverageMeter.reset self) = (mi, ret ()) /\
     IEEE.AverageMeter.count mi = Py.Int (int_total icalls) /\
     IEEE.AverageMeter.sum mi = Py.Int (int_weighted_sum icalls) /\
     (icalls <> [] ->
      IEEE.AverageMeter.avg mi =
        Py.Float (B64.of_ratio (int_weighted_sum icalls)
                    (int_total icalls)))) /\
  exists mf,
    IEEE.AverageMeter.updates (float_calls fcalls)
      (IEEE.AverageMeter.reset self) = (mf, ret ()).
Proof.
  intros Hall E Hints Hfloats Hweight.
  split; [reflexivity|]. split; [reflexivity|]. split; [|split].
  - destruct (updates_invariant_float calls (IEEE.AverageMeter.reset self) m 0
                Hall eq_refl E) as (Hc & Hs & Hrest).
    split; [exact Hc|]. split; [exact Hs|]. split.
    + intros Hne. destruct (Hrest Hne) as [Ha Hv]. split; [exact Ha|].
      destruct (exists_last Hne) as (calls' & [v n] & ->).
      exists v, n, calls'. split; [reflexivity|].
      rewrite Hv, fmap_app. simpl. by rewrite last_last.
    + intros ->. simpl in E. by injection E as <-.
  - destruct (updates_ints icalls (IEEE.AverageMeter.reset self) 0 0 Hints
                eq_refl eq_refl ltac:(lia) ltac:(lia))
      as (mi & Ei & Hs & Hc & Ha).
    exists mi. split; [exact Ei|]. split; [exact Hc|]. split; [exact Hs|].
    exact Ha.
  - apply (updates_floats fcalls (IEEE.AverageMeter.reset self) 0);
      [done | done | lia | lia | by left].
Qed.

Lemma average_meter_binary64_invariant_witness :
  exists m mi,
    IEEE.AverageMeter.updates [(Py.Float B64.tenth, 3); (Py.Int 7, 1)]
      (IEEE.AverageMeter.reset zero_float_meter) = (m, ret ()) /\
    IEEE.AverageMeter.count m = Py.Int 4 /\
    IEEE.AverageMeter.val m = Py.Int 7 /\
    IEEE.AverageMeter.sum m =
      Py.Float (B64.of_decimal 73 (-1)) /\
    IEEE.AverageMeter.updates (int_calls [(4, 2); (6, 2)])
      (IEEE.AverageMeter.reset zero_float_meter) = (mi, ret ()) /\
    IEEE.AverageMeter.sum mi = Py.Int 20 /\
    IEEE.AverageMeter.avg mi = Py.Float (B64.of_decimal 5 0).
Proof.
  assert (H3 : Forall (fun c : spec_float * Z => 0 < c.2) [(B64.tenth, 3)])
    by (repeat constructor; simpl; lia).
  assert (H4 : total_weight (float_calls [(B64.tenth, 3)]) < 2 ^ 1023)
    by reflexivity.
  assert (H1 : Forall (fun c : Py.num * Z => 0 < c.2)
                 [(Py.Float B64.tenth, 3); (Py.Int 7, 1)])
    by (repeat constructor; simpl; lia).
  assert (H2 : Forall (fun c : Z * Z => Z.abs c.1 < 2 ^ 1023 /\ 0 < c.2)
                 [(4, 2); (6, 2)])
    by (repeat constructor; simpl; try lia; reflexivity).
  assert (E : exists m,
             IEEE.AverageMeter.updates
               [(Py.Float B64.tenth, 3); (Py.Int 7, 1)]
               (IEEE.AverageMeter.reset zero_float_meter) = (m, ret ()))
    by (eexists; vm_compute; reflexivity).
  destruct E as [m E].
  destruct (average_meter_binary64_invariant zero_float_meter _ m _ _
              H1 E H2 H3 H4)
    as (_ & _ & (Hc & Hs & Hrest & _) & (mi & Ei & _ & Hsi & Hai) & _).
  exists m, mi. split; [exact E|]. split; [exact Hc|].
  destruct Hrest as [_ (v & n & calls' & Hl & Hv)]; [done|].
  split.
  { rewrite Hv. destruct calls' as [|? [|? [|? ?]]]; try discriminate.
    by injection Hl as _ <- _. }
  split.
  { clear -E. vm_compute in E. injection E as <-. vm_compute. reflexivity. }
  split; [exact Ei|]. split; [exact Hsi|].
  rewrite Hai by done. vm_compute. reflexivity.
Defined.

(** [update(10**400, 1)] on a fresh meter raises [OverflowError] and leaves
    [avg] at 0 beside [sum = 10**400] and [count = 1].  [update(0.1, 3)]
    leaves the sum 0.30000000000000004, which is not three times the number
    that the float 0.1 is, and the average 0.10000000000000002, which is not
    the value 0.1. *)
Lemma average_meter_exact_counterexample :
  IEEE.AverageMeter.updates [(Py.Int (10 ^ 400), 1)] zero_float_meter =
    ({| IEEE.AverageMeter.val := Py.Int (10 ^ 400);
        IEEE.AverageMeter.avg := Py.Int 0;
        IEEE.AverageMeter.sum := Py.Int (10 ^ 400);
        IEEE.AverageMeter.count := Py.Int 1 |}, raise OverflowError) /\
  exists m s a,
    IEEE.AverageMeter.updates [(Py.Float B64.tenth, 3)] zero_float_meter =
      (m, ret ()) /\
    IEEE.AverageMeter.sum m = Py.Float s /\
    IEEE.AverageMeter.avg m = Py.Float a /\
    s = B64.of_decimal 30000000000000004 (-17) /\
    a = B64.of_decimal 10000000000000002 (-17) /\
    Qeq_bool (Binary.to_Q s) (3 * Binary.to_Q B64.tenth) = false /\
    a <> B64.tenth.
Proof.
  split; [vm_compute; reflexivity|].
  do 3 eexists. split; [vm_compute; reflexivity|].
  split; [reflexivity|]. split; [reflexivity|].
  split; [vm_compute; reflexivity|]. split; [vm_compute; reflexivity|].
  split; [vm_compute; reflexivity|]. vm_compute. discriminate.
Qed.

(** ** The matcher against the declarative semantics *)

Section MatcherFacts.

Import Re.

Variable subject : list ascii.

Abbreviation run' := (run subject).
Abbreviation matches' := (matches subject).
Abbreviation char_regex' := (char_regex subject).

#[local] Arguments chars : simpl never.

Lemma star_loop_sound r (k : cont) :
  (forall s caps k' res,
      run' r s caps k' = Some res ->
      exists s' caps', matches' r s caps s' caps' /\ k' s' caps' = Some res) ->
  forall fuel s caps res,
    star_loop (run' r) k fuel s caps = Some res ->
    exists s' caps', matches' (Star r) s caps s' caps' /\ k s' caps' = Some res.
Proof.
  intros Hr. induction fuel as [|fuel IH]; intros s caps res H; simpl in H.
  - exists s, caps. split; [constructor | exact H].
  - destruct (run' r s caps _) as [res'|] eqn:E.
    + injection H as ->.
      apply Hr in E as (s1 & caps1 & Hm & Hk).
      destruct (length s1 <? length s)%nat eqn:Hlt; [|discriminate].
      apply IH in Hk as (s2 & caps2 & Hm2 & Hk2).
      exists s2, caps2. split; [|exact Hk2].
      eapply M_Star_S; eauto. by apply Nat.ltb_lt.
    + exists s, caps. split; [constructor | exact H].
Qed.

(** Whatever the matcher returns comes from a declarative match followed by
    the continuation. *)
Lemma run_sound r : forall s caps (k : cont) res,
  run' r s caps k = Some res ->
  exists s' caps', matches' r s caps s' caps' /\ k s' caps' = Some res.
Proof.
  induction r as [| | | | |a|cs|r1 IH1 r2 IH2|r1 IH1 r2 IH2|r1 IH1|n r1 IH1];
    intros s caps k res H; simpl in H.
  - exists s, caps. split; [constructor | exact H].
  - destruct (length s =? length subject)%nat eqn:E; [|discriminate].
    exists s, caps. split; [constructor; by apply Nat.eqb_eq | exact H].
  - destruct s as [|c [|c' s]]; try discriminate.
    + exists [], caps. split; [constructor; by left | exact H].
    + destruct (is_newline c) eqn:E; [|discriminate].
      apply Ascii.eqb_eq in E as ->.
      exists [newline], caps. split; [constructor; by right | exact H].
  - destruct s as [|c s]; [discriminate|].
    destruct (is_newline c) eqn:E; [discriminate|].
    exists s, caps. split; [|exact H]. constructor.
    intros ->. unfold is_newline in E. by rewrite Ascii.eqb_refl in E.
  - destruct s as [|c s]; [discriminate|].
    destruct (is_digit c) eqn:E; [|discriminate].
    exists s, caps. split; [by constructor | exact H].
  - destruct s as [|c s]; [discriminate|].
    destruct (Ascii.eqb c a) eqn:E; [|discriminate].
    apply Ascii.eqb_eq in E as ->.
    exists s, caps. split; [constructor | exact H].
  - destruct s as [|c s]; [discriminate|].
    destruct (in_class cs c) eqn:E; [|discriminate].
    exists s, caps. split; [|exact H]. constructor.
    unfold in_class in E. apply existsb_exists in E as (x & Hx & Hc).
    by apply Ascii.eqb_eq in Hc as ->.
  - apply IH1 in H as (s1 & caps1 & Hm1 & H).
    apply IH2 in H as (s2 & caps2 & Hm2 & H).
    exists s2, caps2. split; [econstructor; eauto | exact H].
  - destruct (run' r1 s caps k) as [res'|] eqn:E.
    + injection H as ->. apply IH1 in E as (s' & caps' & Hm & Hk).
      exists s', caps'. split; [by apply M_Alt_l | exact Hk].
    + apply IH2 in H as (s' & caps' & Hm & Hk).
      exists s', caps'. split; [by apply M_Alt_r | exact Hk].
  - eapply star_loop_sound; eauto.
  - apply IH1 in H as (s' & caps' & Hm & Hk).
    eexists _, _. split; [by apply M_Group; exact Hm | exact Hk].
Qed.

(** When a declarative match exists whose continuation succeeds, the matcher
    returns a result (possibly found along another way). *)
Lemma run_complete_aux r s caps s' caps' :
  matches' r s caps s' caps' ->
  forall k : cont, is_Some (k s' caps') ->
    is_Some (run' r s caps k) /\
    (forall r1 fuel, r = Star r1 -> (length s <= fuel)%nat ->
       is_Some (star_loop (run' r1) k fuel s caps)).
Proof.
  induction 1 as
    [s caps|s caps Hs|s caps Hs|c s caps Hc|c s caps Hc|c s caps
    |cs c s caps Hc
    |r1 r2 s caps s1 caps1 s2 caps2 _ IH1 _ IH2
    |r1 r2 s caps s' caps' _ IH|r1 r2 s caps s' caps' _ IH
    |r s caps|r s caps s1 caps1 s2 caps2 _ IH1 Hlt _ IH2
    |n r s caps s' caps' _ IH];
    intros k Hk; (split; [|try discriminate]); simpl.
  - exact Hk.
  - apply Nat.eqb_eq in Hs. by rewrite Hs.
  - destruct Hs as [-> | ->]; [exact Hk|].
    unfold is_newline. by rewrite Ascii.eqb_refl.
  - destruct (is_newline c) eqn:E; [|exact Hk].
    by apply Ascii.eqb_eq in E.
  - by rewrite Hc.
  - by rewrite Ascii.eqb_refl.
  - assert (in_class cs c = true) as ->; [|exact Hk].
    apply existsb_exists. exists c. split; [exact Hc|apply Ascii.eqb_refl].
  - apply IH1. by apply IH2.
  - destruct (run' r1 s caps k) eqn:E; [done|].
    destruct (proj1 (IH k Hk)) as [res Hres]. congruence.
  - destruct (run' r1 s caps k) eqn:E; [done|]. by apply IH.
  - destruct (length s) as [|fuel]; simpl; [exact Hk|].
    destruct (run' r s caps _); done.
  - intros r1 fuel [= <-] _. destruct fuel as [|fuel]; simpl; [exact Hk|].
    destruct (run' r s caps _); done.
  - destruct (length s) as [|fuel] eqn:El; [lia|]. simpl.
    match goal with |- is_Some (match run' r s caps ?k' with _ => _ end) =>
      destruct (proj1 (IH1 k'
        ltac:(cbv beta; rewrite El, (proj2 (Nat.ltb_lt _ _) Hlt);
              apply (proj2 (IH2 k Hk) r fuel eq_refl); lia))) as [res ->]
    end. done.
  - intros r1 fuel [= <-] Hfuel.
    destruct fuel as [|fuel]; [lia|]. simpl.
    match goal with |- is_Some (match run' r s caps ?k' with _ => _ end) =>
      destruct (proj1 (IH1 k'
        ltac:(cbv beta; rewrite (proj2 (Nat.ltb_lt _ _) Hlt);
              apply (proj2 (IH2 k Hk) r fuel eq_refl); lia))) as [res ->]
    end. done.
  - apply IH. exact Hk.
Qed.

Lemma run_complete r s caps s' caps' (k : cont) :
  matches' r s caps s' caps' -> is_Some (k s' caps') ->
  is_Some (run' r s caps k).
Proof. intros Hm Hk. by apply (run_complete_aux _ _ _ _ _ Hm k Hk). Qed.

(** *** Inversion of the declarative semantics *)

Lemma matches_Eps_inv s caps s' caps' :
  matches' Eps s caps s' caps' -> s' = s /\ caps' = caps.
Proof. by inversion 1. Qed.

Lemma matches_Bol_inv s caps s' caps' :
  matches' Bol s caps s' caps' ->
  s' = s /\ caps' = caps /\ length s = length subject.
Proof. by inversion 1. Qed.

Lemma matches_Eol_inv s caps s' caps' :
  matches' Eol s caps s' caps' ->
  s' = s /\ caps' = caps /\ (s = [] \/ s = [newline]).
Proof. by inversion 1. Qed.

Lemma matches_Chr_inv a s caps s' caps' :
  matches' (Chr a) s caps s' caps' -> s = a :: s' /\ caps' = caps.
Proof. by inversion 1. Qed.

Lemma matches_Class_inv cs s caps s' caps' :
  matches' (Class cs) s caps s' caps' ->
  exists c, In c cs /\ s = c :: s' /\ caps' = caps.
Proof. inversion 1; subst. eauto. Qed.

Lemma matches_Seq_inv r1 r2 s caps s2 caps2 :
  matches' (Seq r1 r2) s caps s2 caps2 ->
  exists s1 caps1,
    matches' r1 s caps s1 caps1 /\ matches' r2 s1 caps1 s2 caps2.
Proof. inversion 1; subst. eauto. Qed.

Lemma matches_Alt_inv r1 r2 s caps s' caps' :
  matches' (Alt r1 r2) s caps s' caps' ->
  matches' r1 s caps s' caps' \/ matches' r2 s caps s' caps'.
Proof. inversion 1; subst; eauto. Qed.

Lemma matches_Group_inv n r s caps s' caps' :
  matches' (Group n r) s caps s' caps' ->
  exists caps1,
    matches' r s caps s' caps1 /\
    caps' = <[n := take (length s - length s') s]> caps1.
Proof. inversion 1; subst. eauto. Qed.

Lemma take_app_sub {A} (u v : list A) :
  take (length (u ++ v) - length v) (u ++ v) = u.
Proof.
  rewrite length_app, Nat.add_sub. by rewrite take_app_length.
Qed.

Lemma matches_Group_app n r u s' caps caps' :
  matches' r (u ++ s') caps s' caps' ->
  matches' (Group n r) (u ++ s') caps s' (<[n := u]> caps').
Proof.
  intros H. apply (M_Group subject n) in H. by rewrite take_app_sub in H.
Qed.

Lemma matches_Lit w s caps : matches' (Lit w) (chars w ++ s) caps s caps.
Proof.
  unfold Lit, chars. induction (list_ascii_of_string w) as [|c l IH]; simpl.
  - constructor.
  - econstructor; [constructor | exact IH].
Qed.

Lemma matches_Lit_inv w s caps s' caps' :
  matches' (Lit w) s caps s' caps' -> s = chars w ++ s' /\ caps' = caps.
Proof.
  unfold Lit, chars. revert s.
  induction (list_ascii_of_string w) as [|c l IH]; simpl; intros s H.
  - by apply matches_Eps_inv in H as [-> ->].
  - apply matches_Seq_inv in H as (s1 & caps1 & H1 & H2).
    apply matches_Chr_inv in H1 as [-> ->].
    apply IH in H2 as [-> ->]. done.
Qed.

Lemma char_regex_Any : char_regex' Any (fun c => c <> newline).
Proof.
  intros s caps s' caps'. split.
  - inversion 1; subst. eauto.
  - intros (c & -> & Hc & ->). by constructor.
Qed.

Lemma char_regex_Digit : char_regex' Digit (fun c => is_digit c = true).
Proof.
  intros s caps s' caps'. split.
  - inversion 1; subst. eauto.
  - intros (c & -> & Hc & ->). by constructor.
Qed.

Lemma matches_Star_chars r p u s caps :
  char_regex' r p -> Forall p u -> matches' (Star r) (u ++ s) caps s caps.
Proof.
  intros Hr. induction 1 as [|c u Hc _ IH]; simpl.
  - constructor.
  - eapply M_Star_S; [apply Hr; eauto | simpl; lia | exact IH].
Qed.

Lemma matches_Star_chars_inv r p s caps s' caps' :
  char_regex' r p -> matches' (Star r) s caps s' caps' ->
  exists u, s = u ++ s' /\ Forall p u /\ caps' = caps.
Proof.
  intros Hr H. remember (Star r) as r0 eqn:Er.
  induction H as [| | | | | | | | | | |r1 s caps s1 caps1 s2 caps2 H1 _ _ _ IH|];
    try discriminate.
  - by exists [].
  - injection Er as ->.
    apply Hr in H1 as (c & -> & Hc & ->).
    destruct (IH eq_refl) as (u & -> & Hu & ->).
    exists (c :: u). by repeat constructor.
Qed.

Lemma matches_Plus_chars r p u s caps :
  char_regex' r p -> Forall p u -> u <> [] ->
  matches' (Plus r) (u ++ s) caps s caps.
Proof.
  intros Hr Hu Hne. destruct Hu as [|c u Hc Hu]; [done|].
  econstructor; [apply Hr; eauto|]. by eapply matches_Star_chars.
Qed.

Lemma matches_Plus_chars_inv r p s caps s' caps' :
  char_regex' r p -> matches' (Plus r) s caps s' caps' ->
  exists u, s = u ++ s' /\ Forall p u /\ u <> [] /\ caps' = caps.
Proof.
  intros Hr H. apply matches_Seq_inv in H as (s1 & caps1 & H1 & H2).
  apply Hr in H1 as (c & -> & Hc & ->).
  eapply matches_Star_chars_inv in H2 as (u & -> & Hu & ->); [|exact Hr].
  exists (c :: u). by repeat constructor.
Qed.

(** Alternations of literal words. *)
Lemma matches_Alts_Lit w ws v s caps :
  In v (w :: ws) ->
  matches' (Alts (Lit w) (Lit <$> ws)) (chars v ++ s) caps s caps.
Proof.
  revert w. induction ws as [|w' ws IH]; intros w Hv.
  - destruct Hv as [<-|[]]. apply matches_Lit.
  - destruct Hv as [<-|Hv]; simpl.
    + apply M_Alt_l, matches_Lit.
    + apply M_Alt_r, IH, Hv.
Qed.

Lemma matches_Alts_Lit_inv w ws s caps s' caps' :
  matches' (Alts (Lit w) (Lit <$> ws)) s caps s' caps' ->
  exists v, In v (w :: ws) /\ s = chars v ++ s' /\ caps' = caps.
Proof.
  revert w. induction ws as [|w' ws IH]; intros w H; simpl in H.
  - apply matches_Lit_inv in H as [-> ->]. exists w. by repeat split; [left|..].
  - apply matches_Alt_inv in H as [H|H].
    + apply matches_Lit_inv in H as [-> ->].
      exists w. by repeat split; [left|..].
    + apply IH in H as (v & Hv & -> & ->). exists v. by repeat split; [right|..].
Qed.

End MatcherFacts.

(** ** The checkpoint key pattern *)

Section KeyPattern.

Import Re Weights.

Lemma pattern_unfold :
  pattern =
  Seq Bol
    (Seq (Group 1
            (Seq (Star Any)
               (Seq (Lit "denselayer")
                  (Seq (Plus Digit)
                     (Seq (Chr ".")
                        (Seq (Alts (Lit "norm") (Lit <$> ["relu"; "conv"]%string))
                           Eps))))))
       (Seq (Chr ".")
          (Seq (Group 2
                  (Seq (Class indices)
                     (Seq (Chr ".")
                        (Seq (Alts (Lit "weight")
                                (Lit <$> ["bias"; "running_mean";
                                          "running_var"]%string))
                           Eps))))
             (Seq Eol Eps)))).
Proof. reflexivity. Qed.

Lemma pattern_matches_legacy P D K V F e :
  legacy_parts P D K V F -> line_end e ->
  matches (legacy P D K V F ++ e) pattern (legacy P D K V F ++ e) ∅ e
    (pattern_captures P D K V F).
Proof.
  intros [HP HD HD0 HK HV HF] He. rewrite pattern_unfold.
  set (key := legacy P D K V F ++ e).
  set (tail := "."%char :: V :: "."%char :: chars F ++ e).
  assert (Ekey : key = stem P D K ++ tail).
  { unfold key, legacy, tail. by rewrite <- app_assoc. }
  eapply M_Seq; [by constructor|].
  eapply M_Seq with (s1 := tail).
  { rewrite Ekey. apply matches_Group_app.
    unfold stem. rewrite <- !app_assoc, <- app_comm_cons.
    eapply M_Seq; [by eapply matches_Star_chars; [apply char_regex_Any|]|].
    eapply M_Seq; [apply matches_Lit|].
    eapply M_Seq;
      [by eapply matches_Plus_chars; [apply char_regex_Digit|..]|].
    eapply M_Seq; [constructor|].
    eapply M_Seq; [by apply matches_Alts_Lit | constructor]. }
  eapply M_Seq; [constructor|].
  eapply M_Seq with (s1 := e).
  { change (V :: "."%char :: chars F ++ e)
      with ((V :: "."%char :: chars F) ++ e).
    apply matches_Group_app. rewrite <- !app_comm_cons.
    eapply M_Seq; [by constructor|].
    eapply M_Seq; [constructor|].
    eapply M_Seq; [by apply matches_Alts_Lit | constructor]. }
  eapply M_Seq; constructor. exact He.
Qed.

Lemma pattern_matches_inv key s' caps' :
  matches key pattern key ∅ s' caps' ->
  exists P D K V F,
    legacy_parts P D K V F /\ line_end s' /\
    key = legacy P D K V F ++ s' /\
    caps' = pattern_captures P D K V F.
Proof.
  rewrite pattern_unfold. intros H.
  apply matches_Seq_inv in H as (s1 & c1 & H1 & H).
  apply matches_Bol_inv in H1 as (-> & -> & _).
  apply matches_Seq_inv in H as (s2 & c2 & HG1 & H).
  apply matches_Group_inv in HG1 as (c1 & HG1 & ->).
  apply matches_Seq_inv in HG1 as (t1 & d1 & HP & HG1).
  eapply matches_Star_chars_inv in HP as (P & EP & HP & ->);
    [|apply char_regex_Any].
  apply matches_Seq_inv in HG1 as (t2 & d2 & HL & HG1).
  apply matches_Lit_inv in HL as [-> ->].
  apply matches_Seq_inv in HG1 as (t3 & d3 & HD & HG1).
  eapply matches_Plus_chars_inv in HD as (D & -> & HD & HD0 & ->);
    [|apply char_regex_Digit].
  apply matches_Seq_inv in HG1 as (t4 & d4 & HC & HG1).
  apply matches_Chr_inv in HC as [-> ->].
  apply matches_Seq_inv in HG1 as (t5 & d5 & HK & HG1).
  apply matches_Alts_Lit_inv in HK as (K & HK & -> & ->).
  apply matches_Eps_inv in HG1 as [-> ->].
  apply matches_Seq_inv in H as (s3 & c3 & HC & H).
  apply matches_Chr_inv in HC as [-> ->].
  apply matches_Seq_inv in H as (s4 & c4 & HG2 & H).
  apply matches_Group_inv in HG2 as (c2 & HG2 & ->).
  apply matches_Seq_inv in HG2 as (u1 & e1 & HV & HG2).
  apply matches_Class_inv in HV as (V & HV & -> & ->).
  apply matches_Seq_inv in HG2 as (u2 & e2 & HC & HG2).
  apply matches_Chr_inv in HC as [-> ->].
  apply matches_Seq_inv in HG2 as (u3 & e3 & HF & HG2).
  apply matches_Alts_Lit_inv in HF as (F & HF & -> & ->).
  apply matches_Eps_inv in HG2 as [-> ->].
  apply matches_Seq_inv in H as (s5 & c5 & HE & H).
  apply matches_Eol_inv in HE as (-> & -> & HE).
  apply matches_Eps_inv in H as [-> ->].
  exists P, D, K, V, F.
  assert (Ekey : key =
                 stem P D K ++ "."%char :: V :: "."%char :: chars F ++ u3).
  { rewrite EP. unfold stem. by rewrite <- !app_assoc. }
  split; [by constructor|]. split; [exact HE|]. split.
  { rewrite Ekey. unfold legacy. by rewrite <- app_assoc. }
  unfold pattern_captures. f_equal.
  - change (V :: "."%char :: chars F ++ u3)
      with ((V :: "."%char :: chars F) ++ u3).
    apply take_app_sub.
  - f_equal. rewrite Ekey. apply take_app_sub.
Qed.

(** The end of a key fixes its field, its index and everything before
    them. *)
Lemma legacy_unique P D K V F e P' D' K' V' F' e' :
  In F fields -> In F' fields -> line_end e -> line_end e' ->
  legacy P D K V F ++ e = legacy P' D' K' V' F' ++ e' ->
  renamed P D K V F = renamed P' D' K' V' F' /\ e = e'.
Proof.
  unfold legacy, renamed.
  generalize (stem P D K) (stem P' D' K'). intros X X' HF HF' He He' H.
  apply (f_equal (@rev ascii)) in H. rewrite !rev_app_distr in H.
  assert (HX : forall Y Y' : list ascii, rev Y = rev Y' -> Y = Y').
  { intros Y Y' E. by rewrite <- (rev_involutive Y), E, rev_involutive. }
  unfold fields in HF, HF'. simpl in HF, HF'.
  destruct He as [-> | ->], He' as [-> | ->];
    destruct HF as [<-|[<-|[<-|[<-|[]]]]];
    destruct HF' as [<-|[<-|[<-|[<-|[]]]]];
    simpl in H; try discriminate H;
    simplify_eq; by rewrite (HX X X').
Qed.

Lemma chars_app (a b : string) : chars (a +:+ b) = chars a ++ chars b.
Proof. unfold chars. induction a as [|c a IH]; simpl; by f_equal. Qed.

Lemma string_of_chars_app (a b : list ascii) :
  string_of_list_ascii (a ++ b) =
  string_of_list_ascii a +:+ string_of_list_ascii b.
Proof.
  induction a as [|c a IH]; [reflexivity|].
  simpl. rewrite IH. reflexivity.
Qed.

Lemma chars_inj (a b : string) : chars a = chars b -> a = b.
Proof.
  unfold chars. intros E.
  by rewrite <- (string_of_list_ascii_of_string a), E,
    string_of_list_ascii_of_string.
Qed.

(** [new_key] exactly: a key is renamed when it is a legacy key, possibly
    followed by a newline, and its new name is the legacy key without the
    dot before the index (and without that newline). *)
Lemma new_key_spec (key key' : string) :
  new_key key = Some key' <->
  exists P D K V F e,
    legacy_parts P D K V F /\ line_end e /\
    chars key = legacy P D K V F ++ e /\
    chars key' = renamed P D K V F.
Proof.
  assert (Hinv : forall k', new_key key = Some k' ->
    exists P D K V F e,
      legacy_parts P D K V F /\ line_end e /\
      chars key = legacy P D K V F ++ e /\
      chars k' = renamed P D K V F).
  { intros k'. unfold new_key, match_.
    destruct (run _ pattern _ ∅ _) as [res|] eqn:E; [|discriminate].
    intros [= <-].
    apply run_sound in E as (s' & caps' & Hm & [= <-]).
    apply pattern_matches_inv in Hm as (P & D & K & V & F & Hp & He & Hk & ->).
    exists P, D, K, V, F, s'.
    split; [exact Hp|]. split; [exact He|]. split; [exact Hk|].
    unfold group, pattern_captures.
    rewrite lookup_insert_ne, lookup_insert_eq by done.
    rewrite lookup_insert_eq. simpl default.
    rewrite chars_app. unfold chars.
    by rewrite !list_ascii_of_string_of_list_ascii. }
  split; [apply Hinv|].
  intros (P & D & K & V & F & e & Hp & He & Hk & Hk').
  assert (is_Some (new_key key)) as [k' Hsome].
  { unfold new_key, match_. fold (chars key). rewrite Hk.
    destruct (run_complete _ _ _ _ _ _ (fun _ caps => Some caps)
                (pattern_matches_legacy P D K V F e Hp He) ltac:(done))
      as [res ->]. done. }
  rewrite Hsome. f_equal.
  destruct (Hinv _ Hsome) as (P' & D' & K' & V' & F' & e' & Hp' & He' & Hk2 & Hk2').
  apply chars_inj. rewrite Hk', Hk2'.
  destruct (legacy_unique P' D' K' V' F' e' P D K V F e) as [E _];
    eauto using field_known.
  by rewrite <- Hk, <- Hk2.
Qed.

Lemma chars_legacy_key prefix N kind idx field :
  chars (legacy_key prefix N kind idx field) =
  legacy (chars prefix) (chars N) kind idx field.
Proof.
  unfold legacy_key, legacy, stem. rewrite !chars_app.
  rewrite <- !app_assoc. reflexivity.
Qed.

Lemma chars_renamed_key prefix N kind idx field :
  chars (renamed_key prefix N kind idx field) =
  renamed (chars prefix) (chars N) kind idx field.
Proof.
  unfold renamed_key, renamed, stem. rewrite !chars_app.
  rewrite <- !app_assoc. reflexivity.
Qed.

Lemma new_key_legacy_key prefix N kind idx field :
  one_line prefix -> number N ->
  In kind kinds -> In idx indices -> In field fields ->
  new_key (legacy_key prefix N kind idx field) =
  Some (renamed_key prefix N kind idx field).
Proof.
  intros Hp [HN0 HN] Hk Hi Hf. apply new_key_spec.
  exists (chars prefix), (chars N), kind, idx, field, [].
  split; [|split; [by left|split]].
  - constructor; try assumption. by destruct N.
  - by rewrite app_nil_r, chars_legacy_key.
  - apply chars_renamed_key.
Qed.

Section Dict.

Context {tensor : Type}.
Implicit Types (state_dict : gmap string tensor).

Lemma rename_key_no_match state_dict key :
  new_key key = None -> rename_key state_dict key = ret state_dict.
Proof. unfold rename_key. by intros ->. Qed.

Lemma rename_key_match state_dict key key' v :
  new_key key = Some key' -> state_dict !! key = Some v ->
  rename_key state_dict key = ret (delete key (<[key' := v]> state_dict)).
Proof. unfold rename_key, getitem. by intros -> ->. Qed.

Lemma rename_keys_no_match state_dict keys :
  Forall (fun key => new_key key = None) keys ->
  rename_keys state_dict keys = ret state_dict.
Proof.
  induction 1 as [|key keys Hk _ IH]; [reflexivity|].
  simpl. by rewrite rename_key_no_match.
Qed.

End Dict.

End KeyPattern.

(** C9, as the code has it.  A key
    [<prefix>denselayer<N>.(norm|relu|conv).<1|2>.(weight|bias|running_mean|running_var)]
    whose prefix has no newline character is renamed to the same key
    without the dot before the digit; in particular
    ['features.denseblock1.denselayer1.norm.1.weight'] becomes
    ['features.denseblock1.denselayer1.norm1.weight'].  The loop moves the
    value of such a key to the new name, and leaves the state dict as it is
    at every key that the pattern does not match. *)
Theorem key_rewrite_spec (prefix N kind : string) (idx : ascii)
  (field : string) :
  one_line prefix -> number N ->
  In kind kinds -> In idx indices -> In field fields ->
  Weights.new_key (legacy_key prefix N kind idx field) =
    Some (renamed_key prefix N kind idx field) /\
  Weights.new_key "features.denseblock1.denselayer1.norm.1.weight" =
    Some "features.denseblock1.denselayer1.norm1.weight"%string /\
  (forall (tensor : Type) (state_dict : gmap string tensor) v,
      state_dict !! legacy_key prefix N kind idx field = Some v ->
      Weights.rename_key state_dict (legacy_key prefix N kind idx field) =
        ret (delete (legacy_key prefix N kind idx field)
               (<[renamed_key prefix N kind idx field := v]> state_dict))) /\
  (forall (tensor : Type) (state_dict : gmap string tensor) key,
      Re.match_ Weights.pattern key = None ->
      Weights.rename_key state_dict key = ret state_dict) /\
  (forall (tensor : Type) (state_dict : gmap string tensor) keys,
      Forall (fun key => Re.match_ Weights.pattern key = None) keys ->
      Weights.rename_keys state_dict keys = ret state_dict).
Proof.
  intros Hp HN Hk Hi Hf.
  assert (Hnone : forall key,
             Re.match_ Weights.pattern key = None -> Weights.new_key key = None).
  { intros key E. unfold Weights.new_key. by rewrite E. }
  pose proof (new_key_legacy_key _ _ _ _ _ Hp HN Hk Hi Hf) as E.
  split; [exact E|]. split; [vm_compute; reflexivity|]. split; [|split].
  - intros tensor state_dict v Hv. by apply rename_key_match.
  - intros tensor state_dict key Hm. by apply rename_key_no_match, Hnone.
  - intros tensor state_dict keys Hm. apply rename_keys_no_match.
    eapply Forall_impl; [exact Hm|]. exact Hnone.
Qed.

Lemma key_rewrite_spec_witness :
  one_line "features.denseblock4.transition." /\ number "16" /\
  In "conv"%string kinds /\ In "2"%char indices /\
  In "running_var"%string fields /\
  Weights.new_key "features.denseblock4.transition.denselayer16.conv.2.running_var"
  = Some "features.denseblock4.transition.denselayer16.conv2.running_var"%string.
Proof.
  assert (H1 : one_line "features.denseblock4.transition.")
    by (repeat constructor; discriminate).
  assert (H2 : number "16")
    by (split; [discriminate | repeat constructor]).
  assert (H3 : In "conv"%string kinds) by (simpl; tauto).
  assert (H4 : In "2"%char indices) by (simpl; tauto).
  assert (H5 : In "running_var"%string fields) by (simpl; tauto).
  repeat (split; [assumption|]).
  exact (proj1 (key_rewrite_spec _ _ _ _ _ H1 H2 H3 H4 H5)).
Defined.

(** The claim for every prefix fails: with a newline in the prefix the
    pattern does not match, and the key keeps its name. *)
Lemma key_rewrite_any_prefix_counterexample :
  let prefix := String Re.newline "features." in
  number "1" /\ In "norm"%string kinds /\ In "1"%char indices /\
  In "weight"%string fields /\
  Weights.new_key (legacy_key prefix "1" "norm" "1" "weight") = None /\
  Weights.new_key (legacy_key prefix "1" "norm" "1" "weight") <>
    Some (renamed_key prefix "1" "norm" "1" "weight") /\
  Weights.rename_key
    ({[ legacy_key prefix "1" "norm" "1" "weight" := 0%nat ]} : gmap string nat)
    (legacy_key prefix "1" "norm" "1" "weight") =
  ret {[ legacy_key prefix "1" "norm" "1" "weight" := 0%nat ]}.
Proof.
  intros prefix.
  assert (E : Weights.new_key (legacy_key prefix "1" "norm" "1" "weight")
              = None) by (vm_compute; reflexivity).
  split; [split; [discriminate | repeat constructor]|].
  split; [simpl; tauto|]. split; [simpl; tauto|]. split; [simpl; tauto|].
  split; [exact E|]. split; [rewrite E; discriminate|].
  by apply rename_key_no_match.
Qed.

(** ** Properties of [accuracy] *)

Section Accuracy.

Import Num Torch Metrics.

Lemma mapM_ret {A B} (f : A -> result B) (g : A -> B) l :
  (forall x, f x = ret (g x)) -> mapM f l = ret (g <$> l).
Proof.
  intros Hf. induction l as [|x l IH]; [reflexivity|].
  simpl. rewrite Hf, IH. reflexivity.
Qed.

Lemma foldl_max_le x xs :
  (x <= foldl Nat.max x xs)%nat /\
  Forall (fun k => (k <= foldl Nat.max x xs)%nat) xs.
Proof.
  revert x. induction xs as [|y xs IH]; intros x; simpl; [by split|].
  destruct (IH (Nat.max x y)) as [H1 H2].
  split; [lia|]. constructor; [lia | exact H2].
Qed.

Lemma foldl_max_bound n x xs :
  (x <= n)%nat -> Forall (fun k => (k <= n)%nat) xs ->
  (foldl Nat.max x xs <= n)%nat.
Proof.
  revert x. induction xs as [|y xs IH]; intros x Hx Hxs; simpl; [done|].
  inversion Hxs; subst. apply IH; [lia | done].
Qed.

(** The loop over [topk] on a non-empty batch. *)
Lemma accuracy_loop (correct : list (list bool)) (n : Z) topk :
  0 < n ->
  mapM (fun k =>
          let correct_k := count_true (take k correct) in
          scale ← truediv (Float 100) (Int n);
          ret (correct_k * to_Q scale)%Q) topk =
  ret ((fun k => count_true (take k correct) * (100 / inject_Z n))%Q
         <$> topk).
Proof.
  intros Hn. apply mapM_ret. intros k. cbv zeta.
  rewrite (truediv_pos _ _ Hn). reflexivity.
Qed.

End Accuracy.

(** ** [accuracy] in float32 *)

Section AccuracyFloat.

Import Torch IEEE.Metrics.

(** The stable sort of [Torch.topk_row] permutes the indices of a row. *)
Lemma insert_desc_perm x l : insert_desc x l ≡ₚ x :: l.
Proof.
  induction l as [|y l IH]; simpl; [done|].
  destruct (Qle_bool y.1 x.1); [done|].
  rewrite IH. apply perm_swap.
Qed.

Lemma sort_desc_perm l : sort_desc l ≡ₚ l.
Proof.
  induction l as [|x l IH]; simpl; [done|].
  by rewrite insert_desc_perm, IH.
Qed.

Lemma sorted_indices row :
  (sort_desc (zip row (seq 0 (length row)))).*2 ≡ₚ seq 0 (length row).
Proof.
  rewrite sort_desc_perm. rewrite snd_zip; [done|]. by rewrite length_seq.
Qed.

Lemma topk_row_length k row :
  length (topk_row k row) = (k `min` length row)%nat.
Proof.
  unfold topk_row. rewrite fmap_take, length_take.
  by rewrite sorted_indices, length_seq.
Qed.

Lemma hundred_eq : B64.hundred = S754_finite false 7036874417766400 (-46).
Proof. vm_compute. reflexivity. Qed.

(** The factor [100.0 / n] of a batch of [n] examples: the division raises
    nothing, and the factor is a float32 zero or positive number. *)
Lemma scale_finite (n : Z) :
  0 < n < 2 ^ 1023 ->
  Py.truediv (Py.Float B64.hundred) (Py.Int n) =
    ret (B64.div B64.hundred (B64.of_Z n)) /\
  (scale32 n = S754_zero false \/
   exists m e, scale32 n = S754_finite false m e).
Proof.
  intros Hn.
  destruct (of_Z_pos 53 1024 ltac:(lia) ltac:(lia) n Hn)
    as (m & e & E & Hd1 & Hd2).
  pose proof (Zdigits2_pos n ltac:(lia)) as Hdn.
  unfold Py.truediv, Py.to_float, scale32. fold B64.prec B64.emax in E.
  change (Binary.of_Z B64.prec B64.emax n) with (B64.of_Z n) in E.
  rewrite E. split; [reflexivity|].
  rewrite hundred_eq.
  pose proof (SFdiv_finite 53 1024 ltac:(lia) ltac:(lia)
                false 7036874417766400 (-46) false m e) as H.
  change (Zdigits2 (Zpos 7036874417766400)) with 53 in H.
  unfold B64.div, B64.prec, B64.emax.
  destruct (SFdiv 53 1024 (S754_finite false 7036874417766400 (-46))
              (S754_finite false m e)) as [s|s| |s m' e'].
  - left. rewrite H by lia. reflexivity.
  - destruct H; lia.
  - destruct H; lia.
  - destruct H as [-> H]; [lia|]. simpl xorb.
    pose proof (round_finite 24 128 ltac:(lia) ltac:(lia) false m' e') as H'.
    unfold B32.round, B32.prec, B32.emax.
    destruct (Binary.round 24 128 (S754_finite false m' e'))
      as [s|s| |s m'' e''].
    + left. rewrite H' by lia. reflexivity.
    + destruct H'; lia.
    + destruct H'; lia.
    + right. rewrite H' by lia. by exists m'', e''.
Qed.

Lemma mul_zero_scale (s : spec_float) :
  s = S754_zero false \/ (exists m e, s = S754_finite false m e) ->
  B32.mul (B32.of_Z 0) s = S754_zero false.
Proof. by intros [->|(m & e & ->)]. Qed.

Lemma mapM_singleton {A B} (f : A -> result B) (x : A) :
  mapM f [x] = y ← f x; ret [y].
Proof. simpl. by destruct (f x). Qed.

(** The table [correct] for [maxk = 1], and the view of its row. *)
Lemma correct_top1 (pred : list (list nat)) (target : list Z) :
  take 1 (Torch.eq (Torch.t 1 pred) (replicate 1 target)) =
  [zip_with (fun i y => Z.eqb (Z.of_nat i) y)
     ((fun row => nth 0 row 0%nat) <$> pred) target].
Proof. reflexivity. Qed.

Lemma view_flat_row {A} (c : list A) : view_flat [c] = ret c.
Proof. unfold view_flat. simpl. by rewrite app_nil_r. Qed.

(** For up to 44 examples the product of their number and the factor is
    the float 100.0. *)
Lemma hundred_exact_small (n : nat) :
  (1 <= n <= 44)%nat ->
  B32.mul (B32.of_Z (Z.of_nat n)) (scale32 (Z.of_nat n)) = B32.of_Z 100.
Proof.
  intros [H1 H2].
  do 45 (destruct n as [|n]; [first [lia | vm_compute; reflexivity]|]).
  lia.
Qed.

Section TopK.

Variable topk_row : nat -> list Q -> list nat.

(** The result for [topk = (1,)]: one entry, the number of examples whose
    first-ranked class is the label times the factor, in float32. *)
Lemma accuracy_top1_value (output : Tensor) (target : list Z) :
  length target = length (rows output) ->
  (1 <= ncols output)%nat ->
  0 < Z.of_nat (length target) < 2 ^ 1023 ->
  accuracy topk_row output target [1%nat] =
  ret [B32.mul (B32.of_Z (Z.of_nat (hits topk_row (rows output) target)))
         (scale32 (Z.of_nat (length target)))].
Proof.
  intros Hlen Hcols Hn. unfold accuracy. simpl Metrics.max_.
  rewrite result_bind_ret. unfold tensor_topk.
  rewrite (proj2 (Nat.ltb_ge _ _) Hcols). rewrite result_bind_ret.
  unfold expand_as. rewrite (proj2 (Nat.eqb_eq _ _) Hlen).
  rewrite result_bind_ret. cbv zeta.
  destruct (scale_finite _ Hn) as [Hs _].
  rewrite mapM_singleton, correct_top1, view_flat_row, result_bind_ret.
  rewrite Hs, result_bind_ret.
  unfold float_sum, hits, scale32, hit, top1.
  rewrite zip_with_fmap_l, zip_with_fmap_l. reflexivity.
Qed.

Hypothesis contract : topk_contract topk_row.

(** The class ranked first has a score that no class exceeds. *)
Lemma top1_maximal (row : list Q) :
  row <> [] ->
  exists x,
    row !! top1 topk_row row = Some x /\
    forall (j : nat) (z : Q), row !! j = Some z -> (z <= x)%Q.
Proof using contract.
  intros Hrow.
  assert (Hk : (1 <= length row)%nat) by (destruct row; [done | simpl; lia]).
  destruct (contract 1%nat row Hk) as (Hl & rest & Hperm & Hdesc).
  unfold top1. destruct (topk_row 1%nat row) as [|c [|? ?]]; try done.
  simpl nth. simpl app in *.
  assert (Hc : (c < length row)%nat).
  { assert (c ∈ seq 0 (length row)) as Hin.
    { rewrite <- Hperm. apply list_elem_of_here. }
    apply elem_of_seq in Hin. lia. }
  apply lookup_lt_is_Some in Hc as [x Hx]. exists x. split; [exact Hx|].
  intros j z Hj.
  assert (j ∈ c :: rest) as Hin.
  { rewrite Hperm. apply elem_of_seq. apply lookup_lt_Some in Hj. lia. }
  apply list_elem_of_lookup in Hin as [i Hi].
  apply (Hdesc 0%nat i c j x z); [lia | done | done | done | done].
Qed.

Lemma single_highest_hit (row : list Q) (y : Z) :
  single_highest row y -> hit topk_row row y = true.
Proof using contract.
  intros (c & x & -> & Hx & Hlt). unfold hit. apply Z.eqb_eq. f_equal.
  destruct (top1_maximal row) as (x' & Hx' & Hmax).
  { intros ->. done. }
  destruct (decide (top1 topk_row row = c)) as [->|Hne]; [done|].
  exfalso. pose proof (Hlt _ _ Hne Hx') as H1.
  pose proof (Hmax _ _ Hx) as H2.
  by apply (Qlt_not_le _ _ H1).
Qed.

Lemma outscored_hit (row : list Q) (y : Z) :
  row <> [] -> outscored row y -> hit topk_row row y = false.
Proof using contract.
  intros Hrow Hout. unfold hit. apply Z.eqb_neq. intros Hy.
  destruct (top1_maximal row Hrow) as (x & Hx & Hmax).
  destruct (Hout _ x (eq_sym Hy) Hx) as (j & z & Hz & Hlt).
  by apply (Qlt_not_le _ _ Hlt), (Hmax j).
Qed.

Lemma hits_all (rows : list (list Q)) (target : list Z) :
  Forall2 single_highest rows target ->
  hits topk_row rows target = length target.
Proof using contract.
  unfold hits. induction 1 as [|row y rows target H _ IH]; [done|].
  simpl zip_with. rewrite filter_cons_True by (by apply single_highest_hit).
  simpl. by rewrite IH.
Qed.

Lemma hits_none (rows : list (list Q)) (target : list Z) :
  Forall (fun row => row <> []) rows ->
  Forall2 outscored rows target ->
  hits topk_row rows target = 0%nat.
Proof using contract.
  unfold hits. intros Hrows H. revert Hrows.
  induction H as [|row y rows target H _ IH]; [done|].
  intros Hrows. inversion Hrows; subst.
  simpl zip_with. rewrite filter_cons_False.
  - by apply IH.
  - rewrite outscored_hit by done. done.
Qed.

End TopK.

(** The stable sort of [Torch.topk_row] is one function that meets the
    contract of [torch.topk]. *)
Lemma insert_desc_sorted x l :
  StronglySorted (fun a b : Q * nat => (b.1 <= a.1)%Q) l ->
  StronglySorted (fun a b : Q * nat => (b.1 <= a.1)%Q) (insert_desc x l).
Proof.
  induction 1 as [|y l Hl IH Hy]; simpl.
  - repeat constructor.
  - destruct (Qle_bool y.1 x.1) eqn:E.
    + apply Qle_bool_iff in E. constructor; [by constructor|].
      constructor; [exact E|].
      eapply Forall_impl; [exact Hy|]. intros z Hz. simpl in *.
      by eapply Qle_trans.
    + constructor; [exact IH|].
      assert (Hxy : (x.1 <= y.1)%Q).
      { apply Qlt_le_weak, Qnot_le_lt. intros H.
        apply Qle_bool_iff in H. congruence. }
      assert (Hperm : insert_desc x l ≡ₚ x :: l) by apply insert_desc_perm.
      rewrite Hperm. by constructor.
Qed.

Lemma sort_desc_sorted l :
  StronglySorted (fun a b : Q * nat => (b.1 <= a.1)%Q) (sort_desc l).
Proof.
  induction l as [|x l IH]; simpl; [constructor|].
  by apply insert_desc_sorted.
Qed.

Lemma StronglySorted_lookup {A} (R : A -> A -> Prop) (l : list A) :
  StronglySorted R l ->
  forall (i j : nat) (a b : A),
    (i < j)%nat -> l !! i = Some a -> l !! j = Some b -> R a b.
Proof.
  induction 1 as [|x l Hl IH Hx]; intros i j a b Hij Hi Hj; [done|].
  destruct j as [|j]; [lia|]. simpl in Hj. destruct i as [|i].
  - injection Hi as <-. rewrite Forall_forall in Hx.
    apply Hx. by apply list_elem_of_lookup_2 with j.
  - simpl in Hi. apply (IH i j); [lia | done | done].
Qed.

Lemma zip_seq_lookup (row : list Q) : forall (i : nat) (x : Q) (c : nat),
  (x, c) ∈ zip row (seq i (length row)) -> row !! (c - i)%nat = Some x /\ (i <= c)%nat.
Proof.
  induction row as [|a row IH]; intros i x c; simpl; [by intros ?%elem_of_nil|].
  intros [[= -> ->]|H]%elem_of_cons.
  - rewrite Nat.sub_diag. split; [done | lia].
  - apply IH in H as [H ?]. split; [|lia].
    replace (c - i)%nat with (S (c - S i)) by lia. done.
Qed.

Lemma topk_row_contract : topk_contract topk_row.
Proof.
  intros k row Hk. split.
  { rewrite topk_row_length. lia. }
  unfold topk_row.
  set (sorted := sort_desc (zip row (seq 0 (length row)))).
  exists ((drop k sorted).*2). rewrite <- fmap_app, take_drop. split.
  - unfold sorted. rewrite sort_desc_perm, snd_zip; [done|].
    by rewrite length_seq.
  - intros i j ci cj x y Hij Hi Hj Hx Hy.
    rewrite list_lookup_fmap in Hi, Hj.
    destruct (sorted !! i) as [[xi ci']|] eqn:Ei; [|done].
    destruct (sorted !! j) as [[xj cj']|] eqn:Ej; [|done].
    simpl in Hi, Hj. injection Hi as ->. injection Hj as ->.
    assert (Hin : forall n a c, sorted !! n = Some (a, c) -> row !! c = Some a).
    { intros n a c Hn. apply list_elem_of_lookup_2 in Hn.
      unfold sorted in Hn. rewrite sort_desc_perm in Hn.
      apply zip_seq_lookup in Hn as [Hn _]. by rewrite Nat.sub_0_r in Hn. }
    pose proof (Hin _ _ _ Ei) as Hxi. pose proof (Hin _ _ _ Ej) as Hxj.
    assert (xi = x) as -> by congruence.
    assert (xj = y) as -> by congruence.
    destruct (decide (i = j)) as [->|Hne].
    { assert (x = y) as -> by congruence. apply Qle_refl. }
    pose proof (sort_desc_sorted (zip row (seq 0 (length row)))) as Hs.
    fold sorted in Hs.
    apply (StronglySorted_lookup _ _ Hs i j (x, ci) (y, cj)); [lia | done..].
Qed.

End AccuracyFloat.

(** C6. For a batch of [N] examples, [0 < N < 2^24] (scores of shape
    (N, C) with [C >= 1], N labels), and whichever way [torch.topk] orders
    equal scores, [accuracy] with [topk = (1,)] returns one float32 number:
    the rounded product of [N] and the factor [100.0 / N] when the label of
    every example is the class of its single highest score (the float 100.0
    for [N <= 44]), and [0.0] when for every example some class has a
    higher score than the label. *)
Theorem accuracy_top1_float32 (topk_row : nat -> list Q -> list nat)
  (output : Torch.Tensor) (target : list Z) :
  IEEE.Metrics.topk_contract topk_row ->
  Torch.well_formed output ->
  length target = length (Torch.rows output) ->
  (1 <= Torch.ncols output)%nat ->
  0 < Z.of_nat (length target) < 2 ^ 24 ->
  (Forall2 single_highest (Torch.rows output) target ->
   IEEE.Metrics.accuracy topk_row output target [1%nat] =
     ret [B32.mul (B32.of_Z (Z.of_nat (length target)))
            (scale32 (Z.of_nat (length target)))] /\
   ((length target <= 44)%nat ->
    B32.mul (B32.of_Z (Z.of_nat (length target)))
      (scale32 (Z.of_nat (length target))) = B32.of_Z 100)) /\
  (Forall2 outscored (Torch.rows output) target ->
   IEEE.Metrics.accuracy topk_row output target [1%nat] =
     ret [S754_zero false]).
Proof.
  intros Hc Hwf Hlen Hcols Hn.
  assert (Hn' : 0 < Z.of_nat (length target) < 2 ^ 1023).
  { split; [lia|]. transitivity (2 ^ 24); [lia | reflexivity]. }
  pose proof (accuracy_top1_value topk_row output target Hlen Hcols Hn')
    as E.
  split; intros Hall; rewrite E.
  - rewrite (hits_all topk_row Hc _ _ Hall). split; [done|].
    intros H44. apply hundred_exact_small. lia.
  - rewrite (hits_none topk_row Hc _ _); [|
      |exact Hall].
    + destruct (scale_finite _ Hn') as [_ Hs].
      change (Z.of_nat 0) with 0. by rewrite (mul_zero_scale _ Hs).
    + unfold Torch.well_formed in Hwf. eapply Forall_impl; [exact Hwf|].
      intros row Hrow ->. simpl in Hrow. lia.
Qed.

Lemma accuracy_top1_float32_witness :
  IEEE.Metrics.accuracy Torch.topk_row clear_scores [1; 0] [1%nat] =
    ret [B32.mul (B32.of_Z 2) (scale32 2)] /\
  B32.mul (B32.of_Z 2) (scale32 2) = B32.of_Z 100 /\
  IEEE.Metrics.accuracy Torch.topk_row clear_scores [2; 1] [1%nat] =
    ret [S754_zero false].
Proof.
  assert (H1 : Torch.well_formed clear_scores) by (repeat constructor).
  assert (H3 : (1 <= Torch.ncols clear_scores)%nat) by (simpl; lia).
  assert (H4 : 0 < 2 < 2 ^ 24) by (split; [lia | reflexivity]).
  split; [|split].
  - apply (accuracy_top1_float32 Torch.topk_row clear_scores [1; 0]
             topk_row_contract H1 eq_refl H3 H4).
    repeat constructor.
    + exists 1%nat, (7 # 10)%Q. split; [done|]. split; [done|].
      intros [|[|[|j]]] z Hj Hz; simpl in Hz; try done;
        injection Hz as <-; reflexivity.
    + exists 0%nat, (6 # 10)%Q. split; [done|]. split; [done|].
      intros [|[|[|j]]] z Hj Hz; simpl in Hz; try done;
        injection Hz as <-; reflexivity.
  - vm_compute. reflexivity.
  - apply (accuracy_top1_float32 Torch.topk_row clear_scores [2; 1]
             topk_row_contract H1 eq_refl H3 H4).
    repeat constructor.
    + intros c x Hc Hx. assert (c = 2%nat) as -> by lia.
      injection Hx as <-. exists 1%nat, (7 # 10)%Q. split; [done|]. reflexivity.
    + intros c x Hc Hx. assert (c = 1%nat) as -> by lia.
      injection Hx as <-. exists 0%nat, (6 # 10)%Q. split; [done|]. reflexivity.
Defined.

(** A batch of 45 examples, every one with its label as the single
    highest-scoring class: the result is 100.00000762939453, not 100.0. *)
Lemma accuracy_top1_exact_counterexample :
  Forall2 single_highest (Torch.rows (second_class 45)) (replicate 45 1) /\
  IEEE.Metrics.accuracy Torch.topk_row (second_class 45) (replicate 45 1)
    [1%nat] = ret [B32.of_decimal 10000000762939453 (-14)] /\
  B32.of_decimal 10000000762939453 (-14) <> B32.of_Z 100 /\
  Qle_bool (Binary.to_Q (B32.of_decimal 10000000762939453 (-14))) 100 = false.
Proof.
  split; [|split; [|split]].
  - apply Forall2_replicate. exists 1%nat, 1%Q.
    split; [done|]. split; [done|].
    intros [|[|j]] z Hj Hz; simpl in Hz; try done.
    by injection Hz as <-.
  - vm_compute. reflexivity.
  - vm_compute. discriminate.
  - vm_compute. reflexivity.
Qed.

(** C7. With no labels (and an output of no rows, at least one k, every k
    at most the number of classes), [accuracy] raises [ZeroDivisionError]:
    [100.0 / batch_size] is evaluated with [batch_size = 0] and nothing
    catches the exception. *)
Theorem accuracy_empty_batch (output : Torch.Tensor) (topk : list nat) :
  Torch.rows output = [] -> topk <> [] ->
  Forall (fun k => (k <= Torch.ncols output)%nat) topk ->
  Metrics.accuracy output [] topk = raise ZeroDivisionError.
Proof.
  intros Hrows Hne Hk. unfold Metrics.accuracy.
  destruct topk as [|k0 topk']; [done|]. unfold Metrics.max_.
  assert (Hmaxn : (foldl Nat.max k0 topk' <= Torch.ncols output)%nat).
  { inversion Hk; subst. by apply foldl_max_bound. }
  rewrite result_bind_ret.
  unfold Torch.topk. rewrite (proj2 (Nat.ltb_ge _ _) Hmaxn).
  rewrite result_bind_ret, Hrows.
  reflexivity.
Qed.

Lemma accuracy_empty_batch_witness :
  Torch.rows {| Torch.ncols := 3; Torch.rows := [] |} = [] /\
  [1%nat; 3%nat] <> [] /\
  Metrics.accuracy {| Torch.ncols := 3; Torch.rows := [] |} [] [1%nat; 3%nat]
  = raise ZeroDivisionError.
Proof.
  split; [reflexivity|]. split; [discriminate|].
  apply accuracy_empty_batch; [reflexivity | discriminate|].
  repeat constructor; simpl; lia.
Defined.

(** * Further properties *)

(** ** Which keys are renamed *)

Section KeyNames.

Import Re Weights.

(** A new name ends in a letter of the kind followed by the index, a legacy
    key in a dot followed by the index: no new name is a legacy key. *)
Lemma renamed_not_legacy P D K V F P' D' K' V' F' e' :
  In K kinds -> In F fields -> In F' fields -> line_end e' ->
  renamed P D K V F <> legacy P' D' K' V' F' ++ e'.
Proof.
  unfold renamed, legacy, stem.
  generalize (P' ++ chars "denselayer" ++ D' ++ "."%char :: chars K').
  intros X' HK HF HF' He' H.
  apply (f_equal (@rev ascii)) in H. rewrite !rev_app_distr in H.
  unfold kinds in HK. unfold fields in HF, HF'. simpl in HK, HF, HF'.
  destruct He' as [-> | ->];
    destruct HK as [<-|[<-|[<-|[]]]];
    destruct HF as [<-|[<-|[<-|[<-|[]]]]];
    destruct HF' as [<-|[<-|[<-|[<-|[]]]]];
    simpl in H; discriminate H.
Qed.

Lemma renamed_inj P D K V F P' D' K' V' F' :
  In F fields -> In F' fields ->
  renamed P D K V F = renamed P' D' K' V' F' ->
  legacy P D K V F = legacy P' D' K' V' F'.
Proof.
  unfold renamed, legacy.
  generalize (stem P D K) (stem P' D' K'). intros X X' HF HF' H.
  apply (f_equal (@rev ascii)) in H. rewrite !rev_app_distr in H.
  assert (HX : forall Y Y' : list ascii, rev Y = rev Y' -> Y = Y').
  { intros Y Y' E. by rewrite <- (rev_involutive Y), E, rev_involutive. }
  unfold fields in HF, HF'. simpl in HF, HF'.
  destruct HF as [<-|[<-|[<-|[<-|[]]]]];
    destruct HF' as [<-|[<-|[<-|[<-|[]]]]];
    simpl in H; try discriminate H;
    simplify_eq; by rewrite (HX X X').
Qed.

Lemma append_empty_r (s : string) : s +:+ "" = s.
Proof.
  induction s as [|c s IH]; [reflexivity|].
  change (String c (s +:+ "") = String c s). by rewrite IH.
Qed.

Lemma string_of_chars (s : string) : string_of_list_ascii (chars s) = s.
Proof. apply string_of_list_ascii_of_string. Qed.

End KeyNames.

(** X1. Among keys of characters with code points below 256 (where the
    decimal digits that [\d] matches are 0 to 9), [new_key] renames exactly
    the legacy keys, where a legacy key may be followed by one newline (the
    [$] of the pattern holds before it): the new name is the legacy key
    without the dot before the index, and without that newline. *)
Theorem new_key_characterisation (key key' : string) :
  Weights.new_key key = Some key' <->
  exists P D K V F e,
    legacy_parts P D K V F /\ line_end e /\
    Re.chars key = legacy P D K V F ++ e /\
    Re.chars key' = renamed P D K V F.
Proof. apply new_key_spec. Qed.

Lemma new_key_renamed_none (key key' : string) :
  Weights.new_key key = Some key' -> Weights.new_key key' = None.
Proof.
  intros H. apply new_key_spec in H
    as (P & D & K & V & F & e & Hp & He & Hk & Hk').
  destruct (Weights.new_key key') as [key''|] eqn:E; [|reflexivity].
  apply new_key_spec in E
    as (P' & D' & K' & V' & F' & e' & Hp' & He' & Hk2 & _).
  exfalso. rewrite Hk' in Hk2.
  eapply renamed_not_legacy; [..|exact Hk2];
    eauto using kind_known, field_known.
Qed.

(** X2. The renaming is idempotent: a new name is itself not matched by the
    pattern, so renaming it again leaves it alone. *)
Theorem new_key_idempotent (key key' : string) :
  Weights.new_key key = Some key' -> Weights.new_key key' = None.
Proof. apply new_key_renamed_none. Qed.

Lemma new_key_idempotent_witness :
  Weights.new_key "features.denseblock2.denselayer3.relu.2.bias" =
    Some "features.denseblock2.denselayer3.relu2.bias"%string /\
  Weights.new_key "features.denseblock2.denselayer3.relu2.bias" = None.
Proof.
  assert (H : Weights.new_key "features.denseblock2.denselayer3.relu.2.bias" =
              Some "features.denseblock2.denselayer3.relu2.bias"%string)
    by (vm_compute; reflexivity).
  split; [exact H|]. exact (new_key_idempotent _ _ H).
Defined.

(** X3. Two keys get the same new name only when they are the same key, or
    one is the other followed by a newline: the renaming merges no two
    entries of a checkpoint whose keys have no trailing newline. *)
Theorem new_key_injective (key1 key2 key' : string) :
  Weights.new_key key1 = Some key' -> Weights.new_key key2 = Some key' ->
  key1 = key2 \/
  key1 = key2 +:+ String Re.newline "" \/
  key2 = key1 +:+ String Re.newline "".
Proof.
  intros H1 H2.
  apply new_key_spec in H1
    as (P & D & K & V & F & e & Hp & He & Hk & Hk').
  apply new_key_spec in H2
    as (P' & D' & K' & V' & F' & e' & Hp' & He' & Hk2 & Hk2').
  assert (EL : legacy P D K V F = legacy P' D' K' V' F').
  { apply renamed_inj; eauto using field_known. by rewrite <- Hk', <- Hk2'. }
  rewrite <- EL in Hk2.
  assert (E1 : key1 = string_of_list_ascii (legacy P D K V F ++ e))
    by (by rewrite <- Hk, string_of_chars).
  assert (E2 : key2 = string_of_list_ascii (legacy P D K V F ++ e'))
    by (by rewrite <- Hk2, string_of_chars).
  rewrite E1, E2, !string_of_chars_app.
  destruct He as [-> | ->], He' as [-> | ->]; simpl.
  - by left.
  - right; right. by rewrite append_empty_r.
  - right; left. by rewrite append_empty_r.
  - by left.
Qed.

Lemma new_key_injective_witness :
  Weights.new_key "denselayer7.conv.1.weight" =
    Some "denselayer7.conv1.weight"%string /\
  Weights.new_key ("denselayer7.conv.1.weight" +:+ String Re.newline "") =
    Some "denselayer7.conv1.weight"%string /\
  ("denselayer7.conv.1.weight"%string =
     "denselayer7.conv.1.weight" +:+ String Re.newline "" \/
   "denselayer7.conv.1.weight"%string =
     ("denselayer7.conv.1.weight" +:+ String Re.newline "") +:+
     String Re.newline "" \/
   "denselayer7.conv.1.weight" +:+ String Re.newline "" =
     "denselayer7.conv.1.weight" +:+ String Re.newline "").
Proof.
  assert (H1 : Weights.new_key "denselayer7.conv.1.weight" =
               Some "denselayer7.conv1.weight"%string)
    by (vm_compute; reflexivity).
  assert (H2 : Weights.new_key
                 ("denselayer7.conv.1.weight" +:+ String Re.newline "") =
               Some "denselayer7.conv1.weight"%string)
    by (vm_compute; reflexivity).
  split; [exact H1|]. split; [exact H2|].
  exact (new_key_injective _ _ _ H1 H2).
Defined.

(** ** The renaming loop over a state dict *)

Section LoadWeights.

Import Re Weights.

Context {tensor : Type}.
Implicit Types (cur sd R : gmap string tensor) (todo : list string).

Lemma new_key_not_fixed (key key' : string) :
  new_key key = Some key' -> key' <> key.
Proof.
  intros H ->. pose proof (new_key_renamed_none _ _ H). congruence.
Qed.

(** The loop, started in [cur] with the keys [todo] still to visit: it runs
    to the end when the legacy keys to visit are present, and its result [R]
    is described entry by entry. *)
Lemma rename_keys_spec todo : forall cur,
  NoDup todo ->
  (forall j, j ∈ todo -> is_Some (new_key j) -> is_Some (cur !! j)) ->
  exists R,
    rename_keys cur todo = ret R /\
    (forall k v, R !! k = Some v ->
       (cur !! k = Some v /\ ~ (k ∈ todo /\ is_Some (new_key k))) \/
       (exists j, j ∈ todo /\ new_key j = Some k /\ cur !! j = Some v)) /\
    (forall k, is_Some (cur !! k) -> k ∉ todo \/ new_key k = None ->
       is_Some (R !! k)) /\
    (forall j k', j ∈ todo -> new_key j = Some k' -> is_Some (R !! k')) /\
    (forall k, k ∈ todo -> is_Some (new_key k) -> R !! k = None).
Proof.
  induction todo as [|key todo IH]; intros cur Hnd Hpre.
  - exists cur. split; [reflexivity|]. split; [|split; [|split]].
    + intros k v Hk. left. split; [exact Hk|]. intros [H _].
      by apply elem_of_nil in H.
    + by intros k Hk _.
    + intros j k' H. by apply elem_of_nil in H.
    + intros k H. by apply elem_of_nil in H.
  - apply NoDup_cons in Hnd as [Hkey Hnd].
    destruct (new_key key) as [key'|] eqn:Ekey.
    + destruct (Hpre key ltac:(left) ltac:(by rewrite Ekey)) as [v Hv].
      pose proof (new_key_not_fixed _ _ Ekey) as Hne.
      pose proof (new_key_renamed_none _ _ Ekey) as Hidem.
      set (cur' := delete key (<[key' := v]> cur)).
      assert (Hstep : rename_keys cur (key :: todo) = rename_keys cur' todo).
      { simpl. unfold rename_key, getitem. by rewrite Ekey, Hv. }
      assert (Hcur' : forall k, k <> key ->
                cur' !! k = if decide (k = key') then Some v else cur !! k).
      { intros k Hk. unfold cur'. rewrite lookup_delete_ne by done.
        destruct (decide (k = key')) as [->|Hk'].
        - by rewrite lookup_insert_eq.
        - by rewrite lookup_insert_ne. }
      destruct (IH cur' Hnd) as (R & ER & Hb & Hc & Hd & He).
      { intros j Hj Hm. assert (j <> key) by (intros ->; done).
        rewrite Hcur' by done. destruct (decide (j = key')); [done|].
        apply Hpre; [by right | done]. }
      exists R. split; [by rewrite Hstep|]. split; [|split; [|split]].
      * intros k v0 Hk. destruct (Hb k v0 Hk) as [[Hk' Hn]|(j & Hj & Enj & Hv0)].
        -- assert (k <> key).
           { intros ->. unfold cur' in Hk'. by rewrite lookup_delete_eq in Hk'. }
           rewrite Hcur' in Hk' by done.
           destruct (decide (k = key')) as [->|Hk2].
           ++ injection Hk' as <-. right. exists key.
              split; [left|]. by split.
           ++ left. split; [exact Hk'|]. intros [Hin Hm].
              apply elem_of_cons in Hin as [?|Hin]; [done|]. by apply Hn.
        -- right. exists j.
           assert (j <> key) by (intros ->; done).
           assert (j <> key') by (intros ->; congruence).
           rewrite Hcur' in Hv0 by done.
           destruct (decide (j = key')); [done|].
           split; [by right|]. by split.
      * intros k Hk Hor.
        assert (k <> key).
        { intros ->. destruct Hor as [Hor|Hor]; [apply Hor; left | congruence]. }
        apply Hc.
        -- rewrite Hcur' by done. by destruct (decide (k = key')).
        -- destruct Hor as [Hor|Hor]; [left | by right].
           intros Hin. apply Hor. by right.
      * intros j k' Hj Enj. apply elem_of_cons in Hj as [->|Hj].
        -- assert (k' = key') as -> by congruence.
           apply Hc; [|by right].
           rewrite Hcur' by done. by rewrite decide_True.
        -- by apply (Hd j).
      * intros k Hk Hm. apply elem_of_cons in Hk as [->|Hk]; [|by apply He].
        destruct (R !! key) as [v0|] eqn:ER0; [|done]. exfalso.
        destruct (Hb key v0 ER0) as [[Hk' _]|(j & _ & Enj & _)].
        -- unfold cur' in Hk'. by rewrite lookup_delete_eq in Hk'.
        -- pose proof (new_key_renamed_none _ _ Enj). congruence.
    + assert (Hstep : rename_keys cur (key :: todo) = rename_keys cur todo).
      { simpl. unfold rename_key. by rewrite Ekey. }
      destruct (IH cur Hnd) as (R & ER & Hb & Hc & Hd & He).
      { intros j Hj. apply Hpre. by right. }
      exists R. split; [by rewrite Hstep|]. split; [|split; [|split]].
      * intros k v0 Hk. destruct (Hb k v0 Hk) as [[Hk' Hn]|(j & Hj & Enj & Hv0)].
        -- left. split; [exact Hk'|]. intros [Hin Hm].
           apply elem_of_cons in Hin as [->|Hin].
           ++ rewrite Ekey in Hm. by destruct Hm.
           ++ by apply Hn.
        -- right. exists j. split; [by right|]. by split.
      * intros k Hk Hor. apply Hc; [done|].
        destruct Hor as [Hor|Hor]; [left | by right].
        intros Hin. apply Hor. by right.
      * intros j k' Hj Enj. apply elem_of_cons in Hj as [->|Hj];
          [congruence | by apply (Hd j)].
      * intros k Hk Hm. apply elem_of_cons in Hk as [->|Hk]; [|by apply He].
        rewrite Ekey in Hm. by destruct Hm.
Qed.

Lemma elem_of_keys sd k :
  k ∈ (map_to_list sd).*1 <-> is_Some (sd !! k).
Proof.
  rewrite list_elem_of_fmap. split.
  - intros ([k0 v] & -> & H). apply elem_of_map_to_list in H. by exists v.
  - intros [v H]. exists (k, v). split; [done|]. by apply elem_of_map_to_list.
Qed.

(** The whole loop of [load_pretrained_weights], from the checkpoint [sd]. *)
Lemma load_fc_spec sd :
  exists R,
    load_pretrained_weights sd true = ret (R, true) /\
    (forall k v, R !! k = Some v ->
       (new_key k = None /\ sd !! k = Some v) \/
       (exists j, new_key j = Some k /\ sd !! j = Some v)) /\
    (forall k, is_Some (sd !! k) -> new_key k = None -> is_Some (R !! k)) /\
    (forall j k', is_Some (sd !! j) -> new_key j = Some k' ->
       is_Some (R !! k')) /\
    (forall k, is_Some (new_key k) -> R !! k = None).
Proof.
  destruct (rename_keys_spec ((map_to_list sd).*1) sd)
    as (R & ER & Hb & Hc & Hd & He).
  { apply NoDup_fst_map_to_list. }
  { intros j Hj _. by apply elem_of_keys. }
  assert (Hgone : forall k, is_Some (new_key k) -> R !! k = None).
  { intros k Hm. destruct (R !! k) as [v|] eqn:E; [|done]. exfalso.
    destruct (Hb k v E) as [[Hk Hn]|(j & _ & Enj & _)].
    - apply Hn. split; [|done]. apply elem_of_keys. by exists v.
    - pose proof (new_key_renamed_none _ _ Enj) as Hi.
      rewrite Hi in Hm. by destruct Hm. }
  exists R. split; [|split; [|split; [|split]]].
  - unfold load_pretrained_weights. by rewrite ER.
  - intros k v Hk. destruct (Hb k v Hk) as [[Hk' Hn]|(j & _ & Enj & Hv)].
    + left. split; [|done].
      destruct (new_key k) eqn:E; [|done].
      specialize (Hgone k ltac:(by rewrite E)). congruence.
    + right. by exists j.
  - intros k Hk Hn. apply Hc; [done | by right].
  - intros j k' Hj. apply Hd. by apply elem_of_keys.
  - exact Hgone.
Qed.

End LoadWeights.

Lemma small_checkpoint_loaded :
  Weights.load_pretrained_weights small_checkpoint true =
  ret (small_checkpoint_renamed, true).
Proof. vm_compute. reflexivity. Qed.

Lemma small_checkpoint_keys (k : string) :
  is_Some (small_checkpoint !! k) ->
  k = "features.denseblock1.denselayer1.norm.1.weight"%string \/
  k = "features.conv0.weight"%string \/
  k = "classifier.weight"%string \/ k = "classifier.bias"%string.
Proof.
  unfold small_checkpoint. intros [v H].
  repeat (apply lookup_insert_Some in H as [[<- _]|[_ H]]; [tauto|]).
  apply lookup_singleton_Some in H as [<- _]. tauto.
Qed.

(** X4. With [load_fc] the loader never raises, whatever the checkpoint:
    every key the loop reads is still in the state dict when it is read;
    the state dict is then loaded strictly. *)
Theorem load_fc_never_raises {tensor : Type} (sd : gmap string tensor) :
  exists R, Weights.load_pretrained_weights sd true = ret (R, true).
Proof.
  destruct (load_fc_spec sd) as (R & E & _). by exists R.
Qed.

(** X5. After the loop no key of the state dict is matched by the pattern:
    no legacy key is left. *)
Theorem load_fc_no_legacy_left {tensor : Type} (sd R : gmap string tensor)
  (strict : bool) :
  Weights.load_pretrained_weights sd true = ret (R, strict) ->
  forall k, is_Some (R !! k) -> Weights.new_key k = None.
Proof.
  intros H k Hk. destruct (load_fc_spec sd) as (R' & E & _ & _ & _ & Hgone).
  rewrite E in H. injection H as <- _.
  destruct (Weights.new_key k) eqn:Ek; [|done].
  rewrite (Hgone k) in Hk by (by rewrite Ek). by destruct Hk.
Qed.

Lemma load_fc_no_legacy_left_witness :
  Weights.load_pretrained_weights small_checkpoint true =
    ret (small_checkpoint_renamed, true) /\
  Weights.new_key "features.denseblock1.denselayer1.norm1.weight" = None.
Proof.
  split; [exact small_checkpoint_loaded|].
  apply (load_fc_no_legacy_left small_checkpoint small_checkpoint_renamed true
           small_checkpoint_loaded).
  exists 1%nat. vm_compute. reflexivity.
Defined.

(** X6. The loop invents nothing and drops no name: every entry of the
    result is an entry of the checkpoint under a key that is not legacy, or
    the value of a legacy key under its new name; every key of the
    checkpoint that is not legacy, and the new name of every legacy key,
    is a key of the result. *)
Theorem load_fc_entries {tensor : Type} (sd R : gmap string tensor)
  (strict : bool) :
  Weights.load_pretrained_weights sd true = ret (R, strict) ->
  (forall k v, R !! k = Some v ->
     (Weights.new_key k = None /\ sd !! k = Some v) \/
     (exists j, Weights.new_key j = Some k /\ sd !! j = Some v)) /\
  (forall k, is_Some (sd !! k) -> Weights.new_key k = None ->
     is_Some (R !! k)) /\
  (forall j k', is_Some (sd !! j) -> Weights.new_key j = Some k' ->
     is_Some (R !! k')).
Proof.
  intros H. destruct (load_fc_spec sd) as (R' & E & Hb & Hc & Hd & _).
  rewrite E in H. injection H as <- _. by repeat split.
Qed.

Lemma load_fc_entries_witness :
  Weights.load_pretrained_weights small_checkpoint true =
    ret (small_checkpoint_renamed, true) /\
  is_Some (small_checkpoint_renamed !!
             "features.denseblock1.denselayer1.norm1.weight"%string).
Proof.
  split; [exact small_checkpoint_loaded|].
  destruct (load_fc_entries small_checkpoint small_checkpoint_renamed true
              small_checkpoint_loaded) as (_ & _ & Hd).
  apply (Hd "features.denseblock1.denselayer1.norm.1.weight"%string).
  - exists 1%nat. vm_compute. reflexivity.
  - vm_compute. reflexivity.
Defined.

(** X7. An entry whose key is not legacy and is the new name of no key of
    the checkpoint is in the result as it was in the checkpoint (and a key
    that is absent stays absent). *)
Theorem load_fc_keeps_other_entries {tensor : Type}
  (sd R : gmap string tensor) (strict : bool) (k : string) :
  Weights.load_pretrained_weights sd true = ret (R, strict) ->
  Weights.new_key k = None ->
  (forall j, is_Some (sd !! j) -> Weights.new_key j <> Some k) ->
  R !! k = sd !! k.
Proof.
  intros H Hk Hsrc. destruct (load_fc_spec sd) as (R' & E & Hb & Hc & _).
  rewrite E in H. injection H as <- _.
  destruct (R' !! k) as [v|] eqn:ER.
  - destruct (Hb k v ER) as [[_ Hv]|(j & Enj & Hv)]; [done|].
    exfalso. by apply (Hsrc j).
  - destruct (sd !! k) as [v|] eqn:Ek; [|done].
    destruct (Hc k ltac:(by rewrite Ek) Hk) as [v' Hv']. congruence.
Qed.

Lemma load_fc_keeps_other_entries_witness :
  Weights.load_pretrained_weights small_checkpoint true =
    ret (small_checkpoint_renamed, true) /\
  Weights.new_key "features.conv0.weight" = None /\
  small_checkpoint_renamed !! "features.conv0.weight"%string =
  small_checkpoint !! "features.conv0.weight"%string.
Proof.
  split; [exact small_checkpoint_loaded|].
  assert (Hk : Weights.new_key "features.conv0.weight" = None)
    by (vm_compute; reflexivity).
  split; [exact Hk|].
  apply (load_fc_keeps_other_entries small_checkpoint small_checkpoint_renamed
           true _ small_checkpoint_loaded Hk).
  intros j Hj.
  destruct (small_checkpoint_keys j Hj) as [-> | [-> | [-> | ->]]];
    vm_compute; discriminate.
Defined.

(** X8. The value of a legacy key moves to its new name and the legacy key
    is removed, when the new name is not yet a key of the checkpoint and no
    other key of the checkpoint has the same new name. *)
Theorem load_fc_moves_entry {tensor : Type} (sd R : gmap string tensor)
  (strict : bool) (j k' : string) (v : tensor) :
  Weights.load_pretrained_weights sd true = ret (R, strict) ->
  sd !! j = Some v -> Weights.new_key j = Some k' ->
  sd !! k' = None ->
  (forall j', is_Some (sd !! j') -> Weights.new_key j' = Some k' -> j' = j) ->
  R !! k' = Some v /\ R !! j = None.
Proof.
  intros H Hj Enj Hk' Huniq.
  destruct (load_fc_spec sd) as (R' & E & Hb & _ & Hd & Hgone).
  rewrite E in H. injection H as <- _. split.
  - destruct (Hd j k' ltac:(by rewrite Hj) Enj) as [v0 Hv0].
    destruct (Hb k' v0 Hv0) as [[_ Hv]|(j' & Enj' & Hv)]; [congruence|].
    assert (j' = j) as -> by (apply Huniq; [by rewrite Hv | done]).
    congruence.
  - apply Hgone. by rewrite Enj.
Qed.

Lemma load_fc_moves_entry_witness :
  Weights.load_pretrained_weights small_checkpoint true =
    ret (small_checkpoint_renamed, true) /\
  small_checkpoint_renamed !!
    "features.denseblock1.denselayer1.norm1.weight"%string = Some 1%nat /\
  small_checkpoint_renamed !!
    "features.denseblock1.denselayer1.norm.1.weight"%string = None.
Proof.
  split; [exact small_checkpoint_loaded|].
  apply (load_fc_moves_entry small_checkpoint small_checkpoint_renamed true
           "features.denseblock1.denselayer1.norm.1.weight"
           "features.denseblock1.denselayer1.norm1.weight" 1%nat
           small_checkpoint_loaded);
    try (vm_compute; reflexivity).
  intros j' Hj'.
  destruct (small_checkpoint_keys j' Hj') as [-> | [-> | [-> | ->]]];
    [reflexivity|..]; vm_compute; discriminate.
Defined.

(** ** Loading without the classifier, and the download *)

Section LoadOther.

Import Weights.

Context {tensor : Type}.
Implicit Types (sd R : gmap string tensor).

Lemma urls_map_unsupported name :
  ~ In name supported_names -> urls_map !! name = None.
Proof.
  intros Hn. unfold urls_map.
  rewrite !lookup_insert_ne, lookup_empty; [done | ..];
    intros <-; apply Hn; cbn; tauto.
Qed.

Lemma pop_spec sd key :
  pop sd key =
  match sd !! key with
  | Some _ => ret (delete key sd)
  | None => raise (KeyError key)
  end.
Proof. unfold pop, getitem. by destruct (sd !! key). Qed.

(** A new name has an index before its field: the classifier entries are
    the new name of no key. *)
Lemma new_key_not_classifier (j k' : string) :
  new_key j = Some k' ->
  k' <> "classifier.weight"%string /\ k' <> "classifier.bias"%string.
Proof.
  intros H. apply new_key_spec in H
    as (P & D & K & V & F & e & [_ _ _ _ HV HF] & _ & _ & Hk').
  unfold renamed in Hk'. revert Hk'. generalize (stem P D K). intros X Hk'.
  unfold indices in HV. unfold fields in HF. simpl in HV, HF.
  split; intros ->; apply (f_equal (@rev ascii)) in Hk';
    rewrite rev_app_distr in Hk';
    destruct HF as [<-|[<-|[<-|[<-|[]]]]]; simpl in Hk';
    try discriminate Hk';
    destruct HV as [<-|[<-|[]]]; discriminate Hk'.
Qed.

End LoadOther.

(** X9. Without [load_fc] the checkpoint must hold both classifier entries:
    when ['classifier.weight'] is missing the loader raises its [KeyError],
    and when only ['classifier.bias'] is missing, the [KeyError] of that
    key. *)
Theorem load_without_fc_missing {tensor : Type} (sd : gmap string tensor) :
  (sd !! "classifier.weight"%string = None ->
   Weights.load_pretrained_weights sd false =
     raise (KeyError "classifier.weight")) /\
  (is_Some (sd !! "classifier.weight"%string) ->
   sd !! "classifier.bias"%string = None ->
   Weights.load_pretrained_weights sd false =
     raise (KeyError "classifier.bias")).
Proof.
  unfold Weights.load_pretrained_weights. rewrite pop_spec. split.
  - by intros ->.
  - intros [w ->] Hb. rewrite result_bind_ret, pop_spec.
    by rewrite lookup_delete_ne, Hb.
Qed.

(** X10. Without [load_fc], a checkpoint that has both classifier entries
    is handed on for a non-strict load with exactly these two entries
    removed; every other entry stays under its key, so legacy keys are not
    renamed on this path. *)
Theorem load_without_fc_removes_classifier {tensor : Type}
  (sd : gmap string tensor) :
  is_Some (sd !! "classifier.weight"%string) ->
  is_Some (sd !! "classifier.bias"%string) ->
  exists R,
    Weights.load_pretrained_weights sd false = ret (R, false) /\
    R !! "classifier.weight"%string = None /\
    R !! "classifier.bias"%string = None /\
    (forall k, k <> "classifier.weight"%string ->
               k <> "classifier.bias"%string -> R !! k = sd !! k) /\
    (forall j k', is_Some (sd !! j) -> Weights.new_key j = Some k' ->
       R !! j = sd !! j /\ R !! k' = sd !! k').
Proof.
  intros [w Hw] [b Hb].
  exists (delete "classifier.bias"%string
            (delete "classifier.weight"%string sd)).
  assert (Hother : forall k, k <> "classifier.weight"%string ->
            k <> "classifier.bias"%string ->
            delete "classifier.bias"%string
              (delete "classifier.weight"%string sd) !! k = sd !! k).
  { intros k H1 H2. by rewrite !lookup_delete_ne. }
  split; [|split; [|split; [|split]]].
  - unfold Weights.load_pretrained_weights.
    rewrite pop_spec, Hw, result_bind_ret, pop_spec.
    by rewrite lookup_delete_ne, Hb.
  - by rewrite lookup_delete_ne, lookup_delete_eq.
  - by rewrite lookup_delete_eq.
  - exact Hother.
  - intros j k' Hj Enj.
    assert (Hcw : Weights.new_key "classifier.weight" = None)
      by (vm_compute; reflexivity).
    assert (Hcb : Weights.new_key "classifier.bias" = None)
      by (vm_compute; reflexivity).
    destruct (new_key_not_classifier _ _ Enj) as [Hk1 Hk2].
    split; apply Hother; try done; intros ->; congruence.
Qed.

Lemma load_without_fc_removes_classifier_witness :
  is_Some (small_checkpoint !! "classifier.weight"%string) /\
  is_Some (small_checkpoint !! "classifier.bias"%string) /\
  exists R,
    Weights.load_pretrained_weights small_checkpoint false = ret (R, false) /\
    R !! "features.denseblock1.denselayer1.norm.1.weight"%string =
    small_checkpoint !! "features.denseblock1.denselayer1.norm.1.weight"%string.
Proof.
  assert (H1 : is_Some (small_checkpoint !! "classifier.weight"%string))
    by (exists 3%nat; vm_compute; reflexivity).
  assert (H2 : is_Some (small_checkpoint !! "classifier.bias"%string))
    by (exists 4%nat; vm_compute; reflexivity).
  split; [exact H1|]. split; [exact H2|].
  destruct (load_without_fc_removes_classifier small_checkpoint H1 H2)
    as (R & E & _ & _ & Hother & _).
  exists R. split; [exact E|]. apply Hother; discriminate.
Defined.

(** X11. A model name outside the URL table makes the loader raise the
    [KeyError] of that name, whatever the download would return and
    whatever [load_fc]: nothing is fetched or loaded. *)
Theorem load_pretrained_weights_unknown_model {tensor : Type}
  (load_url : string -> result (gmap string tensor)) (model_name : string)
  (load_fc : bool) :
  ~ In model_name supported_names ->
  Weights.load_pretrained_weights_from load_url model_name load_fc =
    raise (KeyError model_name).
Proof.
  intros Hn. unfold Weights.load_pretrained_weights_from, getitem.
  by rewrite urls_map_unsupported.
Qed.

Lemma load_pretrained_weights_unknown_model_witness :
  ~ In "densenet264"%string supported_names /\
  Weights.load_pretrained_weights_from
    (fun _ => ret small_checkpoint) "densenet264" true =
  raise (KeyError "densenet264").
Proof.
  assert (H : ~ In "densenet264"%string supported_names)
    by (cbn; intros [H|[H|[H|[H|[]]]]]; discriminate H).
  split; [exact H|].
  exact (load_pretrained_weights_unknown_model _ _ _ H).
Defined.

(** X12. The three tables agree: a name has coefficients in
    [params_dict] exactly when it has layer counts in [blocks_dict], exactly
    when it has a URL in [urls_map], and these are the four supported
    names. *)
Theorem tables_agree (name : string) :
  (In name supported_names <-> is_Some (params_dict !! name)) /\
  (In name supported_names <-> is_Some (blocks_dict !! name)) /\
  (In name supported_names <-> is_Some (Weights.urls_map !! name)).
Proof.
  assert (Hdec : In name supported_names \/ ~ In name supported_names).
  { destruct (decide (name ∈ supported_names)) as [H|H];
      [left | right]; by rewrite <- list_elem_of_In. }
  repeat split; intros H.
  - apply supported_cases in H as [-> | [-> | [-> | ->]]]; by eexists.
  - destruct Hdec as [?|Hn]; [done|].
    rewrite params_dict_unsupported in H by done. by destruct H.
  - apply supported_cases in H as [-> | [-> | [-> | ->]]]; by eexists.
  - destruct Hdec as [?|Hn]; [done|]. exfalso.
    unfold blocks_dict in H.
    rewrite !lookup_insert_ne, lookup_empty in H;
      [by destruct H | ..]; intros <-; apply Hn; cbn; tauto.
  - apply supported_cases in H as [-> | [-> | [-> | ->]]]; by eexists.
  - destruct Hdec as [?|Hn]; [done|].
    rewrite urls_map_unsupported in H by done. by destruct H.
Qed.

(** ** More on the model parameter resolver *)

Section ResolverMore.

Implicit Types (name key : string) (ov : gmap string pyobj).

Lemma replace_declared (self : GlobalParams) ov :
  (forall key, is_Some (ov !! key) -> In key GlobalParams_fields) ->
  _replace self ov =
  ret {| growth_rate := default (growth_rate self) (ov !! "growth_rate"%string);
         num_init_features :=
           default (num_init_features self) (ov !! "num_init_features"%string);
         bn_size := default (bn_size self) (ov !! "bn_size"%string);
         drop_rate := default (drop_rate self) (ov !! "drop_rate"%string);
         memory_efficient :=
           default (memory_efficient self) (ov !! "memory_efficient"%string);
         num_classes := default (num_classes self) (ov !! "num_classes"%string);
         image_size := default (image_size self) (ov !! "image_size"%string) |}.
Proof.
  intros Hov. unfold _replace.
  assert (E : foldr delete ov GlobalParams_fields = ∅).
  { apply map_eq. intros key. rewrite lookup_foldr_delete, lookup_empty.
    destruct (decide (key ∈ GlobalParams_fields)) as [H|H]; [done|].
    destruct (ov !! key) eqn:Ek; [|done].
    exfalso. apply H, list_elem_of_In, Hov. by rewrite Ek. }
  rewrite E, map_to_list_empty. reflexivity.
Qed.

Lemma truthy_false ov : truthy ov = false -> ov = ∅.
Proof.
  unfold truthy. destruct (map_to_list ov) eqn:E; [|discriminate].
  intros _. by apply map_to_list_empty_iff.
Qed.

End ResolverMore.

(** X13. [get_model_params] returns a result exactly when the model name is
    one of the four supported names and every key of the override mapping
    is a field of [GlobalParams]; otherwise it raises. *)
Theorem get_model_params_succeeds_iff (name : string)
  (override_params : gmap string pyobj) :
  (exists r, get_model_params name override_params = ret r) <->
  In name supported_names /\
  forall key, is_Some (override_params !! key) ->
              In key GlobalParams_fields.
Proof.
  split.
  - intros [r Hr].
    assert (Hn : In name supported_names).
    { destruct (decide (name ∈ supported_names)) as [H|H];
        [by apply list_elem_of_In|].
      exfalso. rewrite list_elem_of_In in H.
      unfold get_model_params in Hr.
      destruct (startswith name "densenet"); [|discriminate].
      unfold densenet_params, getitem in Hr.
      by rewrite params_dict_unsupported in Hr. }
    split; [exact Hn|]. intros key Hk.
    destruct (decide (key ∈ GlobalParams_fields)) as [H|H];
      [by apply list_elem_of_In|].
    exfalso. rewrite list_elem_of_In in H.
    unfold get_model_params in Hr. rewrite (truthy_true _ _ Hk) in Hr.
    destruct (densenet_stage name Hn) as (blocks & gp & E). rewrite E in Hr.
    destruct (replace_unexpected gp _ _ Hk H) as (keys & E' & _).
    simpl in Hr. by rewrite E' in Hr.
  - intros [Hn Hov]. unfold get_model_params.
    destruct (densenet_stage name Hn) as (blocks & gp & ->).
    rewrite result_bind_ret.
    destruct (truthy override_params); [|by eexists].
    rewrite (replace_declared gp _ Hov). by eexists.
Qed.

(** X14. For a supported name and overrides on declared fields only, the
    block-layer counts are those of the call without overrides, and every
    field of the record is the override of that field when there is one,
    and the field of the record without overrides otherwise. *)
Theorem get_model_params_overrides (name : string)
  (override_params : gmap string pyobj) :
  In name supported_names ->
  (forall key, is_Some (override_params !! key) ->
               In key GlobalParams_fields) ->
  exists blocks gp0 gp,
    get_model_params name ∅ = ret (blocks, gp0) /\
    get_model_params name override_params = ret (blocks, gp) /\
    growth_rate gp =
      default (growth_rate gp0) (override_params !! "growth_rate"%string) /\
    num_init_features gp =
      default (num_init_features gp0)
        (override_params !! "num_init_features"%string) /\
    bn_size gp = default (bn_size gp0) (override_params !! "bn_size"%string) /\
    drop_rate gp =
      default (drop_rate gp0) (override_params !! "drop_rate"%string) /\
    memory_efficient gp =
      default (memory_efficient gp0)
        (override_params !! "memory_efficient"%string) /\
    num_classes gp =
      default (num_classes gp0) (override_params !! "num_classes"%string) /\
    image_size gp =
      default (image_size gp0) (override_params !! "image_size"%string).
Proof.
  intros Hn Hov. unfold get_model_params.
  destruct (densenet_stage name Hn) as (blocks & gp0 & ->).
  rewrite !result_bind_ret.
  exists blocks, gp0.
  destruct (truthy override_params) eqn:Et.
  - rewrite (replace_declared gp0 _ Hov). eexists.
    split; [reflexivity|]. split; [reflexivity|]. by repeat split.
  - apply truthy_false in Et as ->. exists gp0.
    split; [reflexivity|]. split; [reflexivity|].
    rewrite !lookup_empty. by repeat split.
Qed.

Lemma get_model_params_overrides_witness :
  In "densenet169"%string supported_names /\
  exists blocks gp,
    get_model_params "densenet169"
      {[ "num_classes"%string := PyInt 10;
         "memory_efficient"%string := PyBool true ]} = ret (blocks, gp) /\
    num_classes gp = PyInt 10 /\ memory_efficient gp = PyBool true.
Proof.
  assert (Hn : In "densenet169"%string supported_names) by (cbn; tauto).
  split; [exact Hn|].
  destruct (get_model_params_overrides "densenet169"
              {[ "num_classes"%string := PyInt 10;
                 "memory_efficient"%string := PyBool true ]} Hn)
    as (blocks & gp0 & gp & _ & E & _ & _ & _ & _ & Hm & Hc & _).
  { intros key [v Hv].
    apply lookup_insert_Some in Hv as [[<- _]|[_ Hv]]; [cbn; tauto|].
    apply lookup_singleton_Some in Hv as [<- _]. cbn; tauto. }
  exists blocks, gp. split; [exact E|]. split.
  - rewrite Hc. reflexivity.
  - rewrite Hm. reflexivity.
Defined.

(** ** More on the learning-rate schedule *)

(** X16. Within one period of thirty epochs, from [30 k] to [30 k + 29],
    the schedule does the same to the optimizer at every epoch. *)
Theorem lr_constant_in_period (optimizer : Training.Optimizer)
  (args : Training.Args) (k epoch epoch' : Z) :
  30 * k <= epoch < 30 * (k + 1) -> 30 * k <= epoch' < 30 * (k + 1) ->
  Training.adjust_learning_rate optimizer epoch args =
  Training.adjust_learning_rate optimizer epoch' args.
Proof.
  intros He He'. unfold Training.adjust_learning_rate, Num.floordiv.
  assert (epoch / 30 = k) as -> by (symmetry; apply Z.div_unique with (epoch - 30 * k); lia).
  assert (epoch' / 30 = k) as -> by (symmetry; apply Z.div_unique with (epoch' - 30 * k); lia).
  reflexivity.
Qed.

Lemma lr_constant_in_period_witness :
  30 * 2 <= 60 < 30 * (2 + 1) /\ 30 * 2 <= 89 < 30 * (2 + 1) /\
  Training.adjust_learning_rate sgd_optimizer 60 {| Training.lr := 1 # 10 |} =
  Training.adjust_learning_rate sgd_optimizer 89 {| Training.lr := 1 # 10 |}.
Proof.
  split; [lia|]. split; [lia|].
  apply (lr_constant_in_period _ _ 2); lia.
Defined.


(** ** More on [AverageMeter] *)



(** ** More on [AverageMeter] in binary64 *)

Section MeterFloatMore.

Lemma int_total_perm (calls calls' : list (Z * Z)) :
  calls ≡ₚ calls' -> int_total calls = int_total calls'.
Proof. induction 1; simpl; lia. Qed.

Lemma int_weighted_sum_perm (calls calls' : list (Z * Z)) :
  calls ≡ₚ calls' -> int_weighted_sum calls = int_weighted_sum calls'.
Proof. induction 1; simpl; lia. Qed.

End MeterFloatMore.

(** X20. With integer values below [2^1023] in magnitude and positive
    integer weights, the order of the calls does not matter for [sum],
    [count] and [avg]: two sequences with the same calls in another order
    both return normally and leave the same three attributes. *)
Theorem average_meter_order_independent_ints (self : IEEE.AverageMeter.t)
  (icalls icalls' : list (Z * Z)) :
  icalls ≡ₚ icalls' ->
  Forall (fun c : Z * Z => Z.abs c.1 < 2 ^ 1023 /\ 0 < c.2) icalls ->
  exists m m',
    IEEE.AverageMeter.updates (int_calls icalls)
      (IEEE.AverageMeter.reset self) = (m, ret ()) /\
    IEEE.AverageMeter.updates (int_calls icalls')
      (IEEE.AverageMeter.reset self) = (m', ret ()) /\
    IEEE.AverageMeter.sum m = IEEE.AverageMeter.sum m' /\
    IEEE.AverageMeter.count m = IEEE.AverageMeter.count m' /\
    IEEE.AverageMeter.avg m = IEEE.AverageMeter.avg m'.
Proof.
  intros Hperm Hall.
  assert (Hall' : Forall (fun c : Z * Z => Z.abs c.1 < 2 ^ 1023 /\ 0 < c.2)
                    icalls') by (by rewrite <- Hperm).
  destruct (updates_ints icalls (IEEE.AverageMeter.reset self) 0 0 Hall
              eq_refl eq_refl ltac:(lia) ltac:(lia))
    as (m & E & Hs & Hc & Ha).
  destruct (updates_ints icalls' (IEEE.AverageMeter.reset self) 0 0 Hall'
              eq_refl eq_refl ltac:(lia) ltac:(lia))
    as (m' & E' & Hs' & Hc' & Ha').
  exists m, m'. split; [exact E|]. split; [exact E'|].
  rewrite Hs, Hs', Hc, Hc'.
  rewrite (int_total_perm _ _ Hperm), (int_weighted_sum_perm _ _ Hperm).
  split; [done|]. split; [done|].
  destruct icalls as [|c icalls].
  - apply Permutation_nil in Hperm as ->. simpl in E, E'.
    injection E as <-. by injection E' as <-.
  - assert (icalls' <> []).
    { intros ->. symmetry in Hperm. by apply Permutation_nil_cons in Hperm. }
    rewrite Ha, Ha' by done.
    by rewrite (int_total_perm _ _ Hperm), (int_weighted_sum_perm _ _ Hperm).
Qed.

Lemma average_meter_order_independent_ints_witness :
  exists m m',
    IEEE.AverageMeter.updates (int_calls [(4, 2); (7, 1)])
      (IEEE.AverageMeter.reset zero_float_meter) = (m, ret ()) /\
    IEEE.AverageMeter.updates (int_calls [(7, 1); (4, 2)])
      (IEEE.AverageMeter.reset zero_float_meter) = (m', ret ()) /\
    IEEE.AverageMeter.sum m = IEEE.AverageMeter.sum m' /\
    IEEE.AverageMeter.count m = IEEE.AverageMeter.count m' /\
    IEEE.AverageMeter.avg m = IEEE.AverageMeter.avg m'.
Proof.
  apply average_meter_order_independent_ints.
  - apply Permutation_swap.
  - repeat constructor; simpl; try lia; reflexivity.
Defined.

(** ** More on [accuracy] *)

Section AccuracyMore.

Import Num Torch Metrics.

(** The result of [accuracy] for a non-empty [topk], case by case. *)
Lemma accuracy_cases output target k0 topk' :
  let topk := k0 :: topk' in
  let maxk := foldl Nat.max k0 topk' in
  let n := length (rows output) in
  accuracy output target topk =
  if (ncols output <? maxk)%nat
  then raise (RuntimeError "selected index k out of range")
  else if (length target =? n)%nat || (length target =? 1)%nat
  then
    let expanded :=
      if (length target =? n)%nat then replicate maxk target
      else replicate maxk (replicate n (hd 0 target)) in
    if (length target =? 0)%nat then raise ZeroDivisionError
    else ret (percentages (correct_of output maxk expanded) (length target)
                topk)
  else raise (RuntimeError "the expanded size must match the existing size").
Proof.
  intros topk maxk n. subst topk. unfold accuracy, max_. fold maxk.
  rewrite result_bind_ret. unfold Torch.topk.
  destruct (ncols output <? maxk)%nat; [reflexivity|].
  rewrite result_bind_ret. unfold expand_as. fold n.
  assert (Hloop : forall expanded,
    mapM (fun k =>
            scale ← truediv (Float 100) (Int (Z.of_nat (length target)));
            ret (count_true (take k (Torch.eq (t maxk (topk_row maxk <$> rows output)) expanded)) * to_Q scale)%Q) (k0 :: topk') =
    if (length target =? 0)%nat then raise ZeroDivisionError
    else ret (percentages (correct_of output maxk expanded) (length target)
                (k0 :: topk'))).
  { intros expanded. destruct (length target) as [|b] eqn:Eb.
    - reflexivity.
    - assert (Hpos : 0 < Z.of_nat (S b)) by lia.
      pose proof (accuracy_loop
        (Torch.eq (t maxk (topk_row maxk <$> rows output)) expanded)
        _ (k0 :: topk') Hpos) as Hl.
      cbv zeta in Hl. simpl "=?"%nat. exact Hl. }
  destruct (length target =? n)%nat.
  - rewrite result_bind_ret. cbv zeta. simpl orb. apply Hloop.
  - destruct (length target =? 1)%nat.
    + rewrite result_bind_ret. cbv zeta. simpl orb. apply Hloop.
    + reflexivity.
Qed.

End AccuracyMore.

(** X23. The shapes are checked before the division: a [k] above the number
    of classes, or a number of labels that is neither the number of rows of
    the output nor 1, makes [accuracy] raise [RuntimeError], also when there
    is no label at all. *)
Theorem accuracy_shape_errors (output : Torch.Tensor) (target : list Z)
  (topk : list nat) :
  topk <> [] ->
  (Exists (fun k => (Torch.ncols output < k)%nat) topk ->
   Metrics.accuracy output target topk =
     raise (RuntimeError "selected index k out of range")) /\
  (Forall (fun k => (k <= Torch.ncols output)%nat) topk ->
   length target <> length (Torch.rows output) -> length target <> 1%nat ->
   Metrics.accuracy output target topk =
     raise (RuntimeError "the expanded size must match the existing size")).
Proof.
  intros Hne. destruct topk as [|k0 topk']; [done|].
  rewrite accuracy_cases. cbv zeta.
  pose proof (foldl_max_le k0 topk') as [Hk0 Hks]. split.
  - intros Hex.
    assert (Hlt : (Torch.ncols output < foldl Nat.max k0 topk')%nat).
    { apply Exists_cons in Hex as [H|H]; [lia|].
      apply Exists_exists in H as (k & Hk & Hlt).
      rewrite Forall_forall in Hks. specialize (Hks k Hk). lia. }
    by rewrite (proj2 (Nat.ltb_lt _ _) Hlt).
  - intros Hall H1 H2. inversion Hall as [|? ? H0 Hall']; subst.
    pose proof (foldl_max_bound _ _ _ H0 Hall') as Hle.
    rewrite (proj2 (Nat.ltb_ge _ _) Hle).
    rewrite (proj2 (Nat.eqb_neq _ _) H1), (proj2 (Nat.eqb_neq _ _) H2).
    reflexivity.
Qed.

Lemma accuracy_shape_errors_witness :
  [1%nat; 5%nat] <> [] /\
  Exists (fun k => (Torch.ncols two_scores < k)%nat) [1%nat; 5%nat] /\
  Metrics.accuracy two_scores [] [1%nat; 5%nat] =
    raise (RuntimeError "selected index k out of range") /\
  Metrics.accuracy two_scores [] [1%nat] =
    raise (RuntimeError "the expanded size must match the existing size").
Proof.
  assert (H1 : [1%nat; 5%nat] <> []) by discriminate.
  assert (H2 : Exists (fun k => (Torch.ncols two_scores < k)%nat)
                 [1%nat; 5%nat])
    by (apply Exists_cons_tl, Exists_cons_hd; simpl; lia).
  split; [exact H1|]. split; [exact H2|]. split.
  - exact (proj1 (accuracy_shape_errors two_scores [] _ H1) H2).
  - apply (proj2 (accuracy_shape_errors two_scores [] [1%nat]
                    ltac:(discriminate))).
    + repeat constructor; simpl; lia.
    + discriminate.
    + discriminate.
Defined.

(** ** [accuracy] in float32: failures and the top-1 entry *)

Section AccuracyFloatMore.

Import Torch IEEE.Metrics.

Lemma mapM_ret_iff {A B} (f : A -> result B) (l : list A) :
  (exists res, mapM f l = ret res) <->
  Forall (fun x => exists y, f x = ret y) l.
Proof.
  induction l as [|x l IH]; simpl.
  - split; [constructor | by eexists].
  - split.
    + intros [res H]. destruct (f x) as [e|y] eqn:E; [done|]. simpl in H.
      destruct (mapM f l) as [e|ys] eqn:E'; [done|].
      constructor; [by exists y|]. apply IH. by exists ys.
    + intros H. inversion H as [|? ? [y Hy] Hl]; subst.
      apply IH in Hl as [ys Hys]. exists (y :: ys).
      by rewrite Hy, Hys.
Qed.

Lemma mapM_ret_length {A B} (f : A -> result B) (l : list A) res :
  mapM f l = ret res -> length res = length l.
Proof.
  revert res. induction l as [|x l IH]; intros res; simpl.
  - by intros [= <-].
  - destruct (f x) as [e|y]; [done|]. simpl.
    destruct (mapM f l) as [e|ys]; [done|]. simpl.
    intros [= <-]. simpl. f_equal. by apply IH.
Qed.

(** The shape of the table [correct]: [maxk] rows of [n] entries. *)
Lemma correct_shape (maxk n : nat) (pred : list (list nat))
  (expanded : list (list Z)) :
  length pred = n -> length expanded = maxk ->
  Forall (fun r => length r = n) expanded ->
  length (Torch.eq (Torch.t maxk pred) expanded) = maxk /\
  Forall (fun r => length r = n) (Torch.eq (Torch.t maxk pred) expanded).
Proof.
  intros Hp He Hr. unfold Torch.eq, Torch.t. split.
  - rewrite length_zip_with, length_fmap, length_seq. lia.
  - apply Forall_lookup. intros i r Hi.
    apply lookup_zip_with_Some in Hi as (a & b & -> & Ha & Hb).
    rewrite list_lookup_fmap in Ha.
    destruct (seq 0 maxk !! i) as [j|]; [|done]. injection Ha as <-.
    rewrite length_zip_with, length_fmap.
    rewrite Forall_lookup in Hr. rewrite (Hr _ _ Hb). lia.
Qed.

Lemma view_flat_take {A} (maxk n k : nat) (c : list (list A)) :
  length c = maxk -> Forall (fun r => length r = n) c -> (k <= maxk)%nat ->
  view_flat (take k c) =
  if (2 <=? k)%nat && (2 <=? n)%nat
  then raise (RuntimeError
                "view size is not compatible with input tensor's size and stride")
  else ret (concat (take k c)).
Proof.
  intros Hc Hr Hk. unfold view_flat. rewrite length_take, Hc.
  replace (k `min` maxk)%nat with k by lia.
  destruct (2 <=? k)%nat eqn:E; [|done]. apply Nat.leb_le in E.
  destruct c as [|r c]; [simpl in *; lia|].
  destruct k as [|k]; [lia|]. simpl.
  inversion Hr; subst. done.
Qed.

(** One iteration of the loop over [topk]. *)
Lemma accuracy_entry (b : Z) (c : list (list bool)) (maxk n k : nat) :
  0 <= b < 2 ^ 1023 ->
  length c = maxk -> Forall (fun r => length r = n) c -> (k <= maxk)%nat ->
  (exists y,
     (flat ← view_flat (take k c);
      scale ← Py.truediv (Py.Float B64.hundred) (Py.Int b);
      ret (B32.mul (float_sum flat) (B32.round scale))) = ret y) <->
  ((k <= 1)%nat \/ (n <= 1)%nat) /\ b <> 0.
Proof.
  intros Hb Hc Hr Hk. rewrite (view_flat_take maxk n k c Hc Hr Hk).
  destruct (Nat.leb_spec 2 k) as [H2k|H2k];
    destruct (Nat.leb_spec 2 n) as [H2n|H2n]; simpl andb; cbv iota.
  - split; [by intros [y H]|]. intros [[?|?] _]; lia.
  - rewrite result_bind_ret.
    destruct (Z.eq_dec b 0) as [->|Hb0].
    + split; [by intros [y H]|]. by intros [_ ?].
    + destruct (scale_finite b ltac:(lia)) as [-> _].
      rewrite result_bind_ret. split; [|by eexists].
      intros _. split; [lia | done].
  - rewrite result_bind_ret.
    destruct (Z.eq_dec b 0) as [->|Hb0].
    + split; [by intros [y H]|]. by intros [_ ?].
    + destruct (scale_finite b ltac:(lia)) as [-> _].
      rewrite result_bind_ret. split; [|by eexists].
      intros _. split; [lia | done].
  - rewrite result_bind_ret.
    destruct (Z.eq_dec b 0) as [->|Hb0].
    + split; [by intros [y H]|]. by intros [_ ?].
    + destruct (scale_finite b ltac:(lia)) as [-> _].
      rewrite result_bind_ret. split; [|by eexists].
      intros _. split; [lia | done].
Qed.

End AccuracyFloatMore.

(** X22. With fewer than [2^1023] labels, [accuracy] returns a result
    exactly when [topk] is not empty, no [k] exceeds the number of classes,
    the number of labels is the number of rows of the output or 1, there is
    at least one label, and no view fails: every [k] is at most 1 or the
    output has at most one row.  The result then has one entry for every
    [k]. *)
Theorem accuracy_returns_iff (topk_row : nat -> list Q -> list nat)
  (output : Torch.Tensor) (target : list Z) (topk : list nat) :
  Z.of_nat (length target) < 2 ^ 1023 ->
  ((exists res, IEEE.Metrics.accuracy topk_row output target topk = ret res) <->
   topk <> [] /\
   Forall (fun k => (k <= Torch.ncols output)%nat) topk /\
   (length target = length (Torch.rows output) \/ length target = 1%nat) /\
   target <> [] /\
   (Forall (fun k => (k <= 1)%nat) topk \/
    (length (Torch.rows output) <= 1)%nat)) /\
  (forall res, IEEE.Metrics.accuracy topk_row output target topk = ret res ->
               length res = length topk).
Proof.
  intros Hn. unfold IEEE.Metrics.accuracy.
  destruct topk as [|k0 topk'].
  { split; [|discriminate]. split; [intros [res H]; discriminate H|].
    by intros [H _]. }
  unfold Metrics.max_. rewrite result_bind_ret.
  set (maxk := foldl Nat.max k0 topk').
  pose proof (foldl_max_le k0 topk') as [Hk0 Hks]. fold maxk in Hk0, Hks.
  assert (Hmax : Forall (fun k => (k <= maxk)%nat) (k0 :: topk'))
    by (by constructor).
  unfold IEEE.Metrics.tensor_topk.
  destruct (Torch.ncols output <? maxk)%nat eqn:E1.
  { split; [|discriminate]. split; [intros [res H]; discriminate H|].
    intros (_ & Hall & _). apply Nat.ltb_lt in E1. exfalso.
    inversion Hall as [|? ? H0 Hall']; subst.
    pose proof (foldl_max_bound _ _ _ H0 Hall'). unfold maxk in E1. lia. }
  apply Nat.ltb_ge in E1.
  assert (Hall : Forall (fun k => (k <= Torch.ncols output)%nat) (k0 :: topk')).
  { eapply Forall_impl; [exact Hmax|]. simpl. intros k Hk. lia. }
  rewrite result_bind_ret. cbv zeta.
  set (n := length (Torch.rows output)).
  assert (Hloop : forall expanded,
    length expanded = maxk -> Forall (fun r => length r = n) expanded ->
    let body := fun k =>
      flat ← IEEE.Metrics.view_flat
               (take k (Torch.eq (Torch.t maxk (topk_row maxk <$>
                                                  Torch.rows output))
                          expanded));
      scale ← Py.truediv (Py.Float B64.hundred)
                (Py.Int (Z.of_nat (length target)));
      ret (B32.mul (IEEE.Metrics.float_sum flat) (B32.round scale)) in
    ((exists res, mapM body (k0 :: topk') = ret res) <->
     target <> [] /\
     (Forall (fun k => (k <= 1)%nat) (k0 :: topk') \/ (n <= 1)%nat)) /\
    (forall res, mapM body (k0 :: topk') = ret res ->
                 length res = length (k0 :: topk'))).
  { intros expanded He Hr body. split; [|apply mapM_ret_length].
    rewrite mapM_ret_iff.
    destruct (correct_shape maxk n (topk_row maxk <$> Torch.rows output)
                expanded) as [Hc1 Hc2]; [by rewrite length_fmap|done..|].
    assert (Hentry : forall k, (k <= maxk)%nat ->
              (exists y, body k = ret y) <->
              ((k <= 1)%nat \/ (n <= 1)%nat) /\
              Z.of_nat (length target) <> 0).
    { intros k Hk. apply (accuracy_entry _ _ maxk n k); [lia|done..]. }
    split.
    - intros H. split.
      + inversion H as [|? ? H0 _]; subst.
        apply Hentry in H0 as [_ H0]; [|by inversion Hmax].
        intros ->. done.
      + destruct (decide (n <= 1)%nat) as [?|Hn1]; [by right|]. left.
        apply Forall_forall. intros k Hk.
        rewrite Forall_forall in H. rewrite Forall_forall in Hmax.
        destruct (proj1 (Hentry k (Hmax k Hk)) (H k Hk)) as [[?|?] _]; lia.
    - intros [Hne Hv]. apply Forall_forall. intros k Hk.
      rewrite Forall_forall in Hmax. apply Hentry; [by apply Hmax|].
      split.
      + destruct Hv as [Hv|?]; [|by right]. left.
        rewrite Forall_forall in Hv. by apply Hv.
      + destruct target; [done | simpl; lia]. }
  unfold Torch.expand_as. fold n.
  destruct (length target =? n)%nat eqn:E2.
  - apply Nat.eqb_eq in E2. rewrite result_bind_ret.
    destruct (Hloop (replicate maxk target)) as [H1 H2].
    { by rewrite length_replicate. }
    { by apply Forall_replicate. }
    cbv zeta in H1, H2. split; [|exact H2].
    rewrite H1. split.
    + intros [? ?]. repeat split; try done. by left.
    + intros (_ & _ & _ & ? & ?). done.
  - destruct (length target =? 1)%nat eqn:E3.
    + apply Nat.eqb_eq in E3. rewrite result_bind_ret.
      destruct (Hloop (replicate maxk (replicate n (hd 0 target))))
        as [H1 H2].
      { by rewrite length_replicate. }
      { apply Forall_replicate. by rewrite length_replicate. }
      cbv zeta in H1, H2. split; [|exact H2].
      rewrite H1. split.
      * intros [? ?]. repeat split; try done. by right.
      * intros (_ & _ & _ & ? & ?). done.
    + split; [|discriminate]. split; [intros [res H]; discriminate H|].
      apply Nat.eqb_neq in E2, E3. intros (_ & _ & [?|?] & _); done.
Qed.

Lemma accuracy_returns_iff_witness :
  (exists res,
     IEEE.Metrics.accuracy Torch.topk_row clear_scores [1; 0] [1%nat; 0%nat]
       = ret res) /\
  IEEE.Metrics.accuracy Torch.topk_row clear_scores [1; 0] [1%nat; 2%nat] =
    raise (RuntimeError
             "view size is not compatible with input tensor's size and stride").
Proof.
  split.
  - apply (accuracy_returns_iff Torch.topk_row clear_scores [1; 0]
             [1%nat; 0%nat]); [reflexivity|].
    split; [done|]. split; [repeat constructor; simpl; lia|].
    split; [by left|]. split; [done|]. left. repeat constructor.
  - vm_compute. reflexivity.
Defined.

(** X24. For a batch of [N] examples, [0 < N < 2^24] (scores of shape
    (N, C) with [C >= 1], N labels), [accuracy] with [topk = (1,)] returns
    one float32 number: the rounded product of the number of examples whose
    first-ranked class is the label and the float32 factor [100.0 / N]; that
    number of examples is at most [N]. *)
Theorem accuracy_top1_hits (topk_row : nat -> list Q -> list nat)
  (output : Torch.Tensor) (target : list Z) :
  length target = length (Torch.rows output) ->
  (1 <= Torch.ncols output)%nat ->
  0 < Z.of_nat (length target) < 2 ^ 24 ->
  IEEE.Metrics.accuracy topk_row output target [1%nat] =
    ret [B32.mul
           (B32.of_Z (Z.of_nat (hits topk_row (Torch.rows output) target)))
           (scale32 (Z.of_nat (length target)))] /\
  (hits topk_row (Torch.rows output) target <= length target)%nat.
Proof.
  intros Hlen Hcols Hn. split.
  - apply accuracy_top1_value; [done..|].
    split; [lia|]. transitivity (2 ^ 24); [lia | reflexivity].
  - unfold hits.
    etransitivity; [apply length_filter|].
    rewrite length_zip_with. apply Nat.le_min_r.
Qed.

Lemma accuracy_top1_hits_witness :
  IEEE.Metrics.accuracy Torch.topk_row clear_scores [1; 2] [1%nat] =
    ret [B32.mul (B32.of_Z (Z.of_nat (hits Torch.topk_row
                                        (Torch.rows clear_scores) [1; 2])))
           (scale32 2)] /\
  hits Torch.topk_row (Torch.rows clear_scores) [1; 2] = 1%nat /\
  B32.mul (B32.of_Z 1) (scale32 2) = B32.of_Z 50.
Proof.
  split; [|split].
  - apply (accuracy_top1_hits Torch.topk_row clear_scores [1; 2]);
      [reflexivity | simpl; lia | split; [simpl; lia | reflexivity]].
  - vm_compute. reflexivity.
  - vm_compute. reflexivity.
Defined.

(** * Examples *)

Example get_model_params_121 :
  get_model_params "densenet121" ∅ =
  ret ([6; 12; 24; 16],
       mkGlobalParams (PyInt 32) (PyInt 64) (PyInt 4) (PyInt 0) (PyBool false)
         (PyInt 1000) (PyInt 224)).
Proof. vm_compute. reflexivity. Qed.

Example get_model_params_foo :
  get_model_params "densenet121" {[ "foo"%string := PyInt 1 ]} =
  raise (ValueError ["foo"%string]).
Proof. vm_compute. reflexivity. Qed.

Example new_key_ex1 :
  Weights.new_key "features.denseblock1.denselayer1.norm.1.weight" =
  Some "features.denseblock1.denselayer1.norm1.weight"%string.
Proof. vm_compute. reflexivity. Qed.

Example new_key_ex2 :
  Weights.new_key "features.denseblock1.denselayer1.norm1.weight" = None.
Proof. vm_compute. reflexivity. Qed.

Example new_key_ex3 :
  Weights.new_key "a
b.denselayer12.conv.2.running_var" = None.
Proof. vm_compute. reflexivity. Qed.

Example new_key_ex4 :
  Weights.new_key "xdenselayer12.conv.2.running_var
" = Some "xdenselayer12.conv2.running_var"%string.
Proof. vm_compute. reflexivity. Qed.

Example new_key_ex5 :
  Weights.new_key "denselayer1.norm.1.biasdenselayer2.relu.2.bias" =
  Some "denselayer1.norm.1.biasdenselayer2.relu2.bias"%string.
Proof. vm_compute. reflexivity. Qed.

Example adjust_learning_rate_ex1 :
  IEEE.Training.adjust_learning_rate float_optimizer 9720
    {| IEEE.Training.lr := B64.tenth |} =
  ret {| IEEE.Training.param_groups :=
           [ {[ "lr"%string := IEEE.PyFloat (S754_zero false) ]};
             {[ "momentum"%string := IEEE.PyFloat (B64.of_decimal 9 (-1));
                "lr"%string := IEEE.PyFloat (S754_zero false) ]} ] |}.
Proof. vm_compute. reflexivity. Qed.

Example average_meter_ex1 :
  IEEE.AverageMeter.updates [(Py.Int 4, 2); (Py.Int 6, 2)] zero_float_meter =
  (IEEE.AverageMeter.mk (Py.Int 6) (Py.Float (B64.of_decimal 5 0))
     (Py.Int 20) (Py.Int 4), ret ()).
Proof. vm_compute. reflexivity. Qed.

Example accuracy_ex1 :
  IEEE.Metrics.accuracy Torch.topk_row clear_scores [1; 1; 1] [1%nat] =
  raise (RuntimeError "the expanded size must match the existing size").
Proof. vm_compute. reflexivity. Qed.

Example accuracy_ex2 :
  IEEE.Metrics.accuracy Torch.topk_row (second_class 3) [1; 0; 0] [1%nat] =
  ret [B32.of_decimal 3333333206176758 (-14)].
Proof. vm_compute. reflexivity. Qed.
